(** * The v2 querier of the query service: cache-aware time-range
    reconciliation, series merge and query fan-out.

    The development embeds the Go package [v2] (querier.go): the
    reconciler [findMissingTimeRanges], the merger [mergeSerieses], the
    executors [runBuilderQueries], [runPromQueries], [runClickHouseQueries],
    [runBuilderListQueries] and the entry point [QueryRange].

    Conventions.
    - [int64] values are integers of [Z]; every arithmetic operation of the
      source is followed by its two's-complement wrap-around.
    - A [float64] that comes from the conversion of an [int64] is an
      integer too: it is kept as the integer it denotes.
    - A Go run-time panic (division by zero, nil dereference) is the
      [Panic] outcome.
    - A [[]*v3.Series] is a list of series values: the elements of the
      slices handled here are never nil pointers, but for the slice that a
      failed decoding leaves behind, which is a list of optional series.
    - Where a caller goes on with series that a function has changed where
      they are ([mergeSerieses] in the PromQL unit), the series are kept in
      a store and the slices hold their places.
    - A slice or map that the source distinguishes from nil is an
      [option]: [None] is nil.
    - The test-only logs [queriesExecuted] and [timeRanges] are written and
      never read by the querier; they are left out. *)

From stdpp Require Import gmap strings list fin_maps sorting.
From Stdlib Require Import ZArith Lia.
From Stdlib Require OrderedTypeEx.

Set Warnings "-register-all".

(** ** Outcomes: a returned value or a run-time panic *)

Inductive outcome (A : Type) : Type :=
| Ret (a : A)
| Panic (msg : string).
Arguments Ret {A} a.
Arguments Panic {A} msg.

Definition obind {A B : Type} (m : outcome A) (k : A → outcome B) : outcome B :=
  match m with
  | Ret a => k a
  | Panic msg => Panic msg
  end.

Global Instance outcome_ret : MRet outcome := λ A a, Ret a.
Global Instance outcome_bind : MBind outcome := λ A B k m, obind m k.

Fixpoint omapM {A B : Type} (f : A → outcome B) (l : list A) : outcome (list B) :=
  match l with
  | [] => Ret []
  | a :: l' => b ← f a ; bs ← omapM f l' ; Ret (b :: bs)
  end.

(** ** Machine integers and the float64 conversions *)

Module Int64.
Local Open Scope Z_scope.

Definition min_int64 : Z := - 2 ^ 63.
Definition max_int64 : Z := 2 ^ 63 - 1.

Definition in_int64 (z : Z) : Prop := min_int64 ≤ z ≤ max_int64.

(** Two's-complement reduction of a mathematical result to [int64]. *)
Definition wrap (z : Z) : Z := (z + 2 ^ 63) mod 2 ^ 64 - 2 ^ 63.

Definition add (a b : Z) : Z := wrap (a + b).
Definition sub (a b : Z) : Z := wrap (a - b).
Definition mul (a b : Z) : Z := wrap (a * b).

(** Go's [%]: truncated remainder; a zero divisor panics. *)
Definition rem (a b : Z) : outcome Z :=
  if b =? 0 then Panic "integer divide by zero" else Ret (Z.rem a b).

(** [float64(z)]: the double nearest to [z], ties to even.  A double has
    53 significant bits, so an integer of magnitude at most [2^53] is
    kept and a larger one is rounded to a multiple of its unit in the
    last place. *)
Definition to_float64 (z : Z) : Z :=
  let a := Z.abs z in
  if a <=? 2 ^ 53 then z
  else
    let ulp := 2 ^ (Z.log2 a - 52) in
    let q := a / ulp in
    let r := a mod ulp in
    let q' := if 2 * r <? ulp then q
              else if ulp <? 2 * r then q + 1
              else if Z.even q then q else q + 1 in
    Z.sgn z * (q' * ulp).

(** [int64(f)] for an integer-valued double.  The only double reached
    here that is out of range is [2^63]; Go leaves that conversion to the
    implementation, and amd64 yields the minimal [int64]. *)
Definition of_float64 (f : Z) : Z :=
  if (min_int64 <=? f) && (f <=? max_int64) then f else min_int64.

(** [math.Min] on doubles that denote integers. *)
Definition fmin (a b : Z) : Z := Z.min a b.

End Int64.

(** ** Data model (package model/v3, as far as the querier reads it) *)

(** [Value] is a float64; the querier never computes with it, so it is
    kept as its IEEE-754 bit pattern. *)
Record Point : Type := mkPoint {
  Timestamp : Z;
  Value : Z
}.

Record Series : Type := mkSeries {
  Labels : gmap string string;
  Points : list Point
}.

Record missInterval : Type := mkMiss {
  start : Z;
  end_ : Z
}.

Global Instance Point_eq_dec : EqDecision Point.
Proof. solve_decision. Defined.
Global Instance missInterval_eq_dec : EqDecision missInterval.
Proof. solve_decision. Defined.

(** ** TimeRangeReconciler: findMissingTimeRanges *)

Section Reconciler.
Local Open Scope Z_scope.

(** The two nested loops over the points of the cached series; zero is
    the "not set yet" mark of both bounds. *)
Definition scanPoint (acc : Z * Z) (point : Point) : Z * Z :=
  let '(cachedStart, cachedEnd) := acc in
  (if (cachedStart =? 0) || (Timestamp point <? cachedStart)
   then Timestamp point else cachedStart,
   if (cachedEnd =? 0) || (cachedEnd <? Timestamp point)
   then Timestamp point else cachedEnd).

Definition scanSeries (acc : Z * Z) (series : Series) : Z * Z :=
  foldl scanPoint acc (Points series).

Definition cachedRange (seriesList : list Series) : Z * Z :=
  foldl scanSeries (0, 0) seriesList.

(** [time.Duration.Milliseconds]: a duration is a count of nanoseconds. *)
Definition Milliseconds (d : Z) : Z := Z.quot d 1000000.

(** The flux cap: [roundedMillis - fluxInterval.Milliseconds()], where
    [now] is the reading of [time.Now().UnixMilli()]. *)
Definition fluxBoundary (now step fluxInterval : Z) : outcome Z :=
  let endMillis := now in
  let adjustStep :=
    Int64.of_float64 (Int64.fmin (Int64.to_float64 step) 60) in
  r ← Int64.rem endMillis (Int64.mul adjustStep 1000) ;
  let roundedMillis := Int64.sub endMillis r in
  Ret (Int64.sub roundedMillis (Milliseconds fluxInterval)).

Definition capCachedEnd (cachedEnd boundary : Z) : Z :=
  Int64.of_float64
    (Int64.fmin (Int64.to_float64 cachedEnd) (Int64.to_float64 boundary)).

(** The cached coverage the five cases are decided on: the scanned
    start and the capped end. *)
Definition cachedCoverage (step : Z) (seriesList : list Series)
    (fluxInterval now : Z) : outcome (Z * Z) :=
  let '(cachedStart, cachedEnd) := cachedRange seriesList in
  boundary ← fluxBoundary now step fluxInterval ;
  Ret (cachedStart, capCachedEnd cachedEnd boundary).

(** The five cases, in the order of the source. *)
Definition classify (start end_ cachedStart cachedEnd : Z)
    : list missInterval * bool :=
  if (start <=? cachedStart) && (cachedEnd <=? end_) then
    ([mkMiss start (Int64.sub cachedStart 1);
      mkMiss (Int64.add cachedEnd 1) end_], false)
  else if (cachedStart <=? start) && (end_ <=? cachedEnd) then
    ([], false)
  else if (cachedStart <=? start) && (start <=? cachedEnd) then
    ([mkMiss (Int64.add cachedEnd 1) end_], false)
  else if (cachedStart <=? end_) && (end_ <=? cachedEnd) then
    ([mkMiss start (Int64.sub cachedStart 1)], false)
  else
    ([mkMiss start end_], true).

Definition validMiss (miss : missInterval) : bool := start miss <? end_ miss.

Definition validMisses (misses : list missInterval) : list missInterval :=
  List.filter validMiss misses.

Definition findMissingTimeRanges (start end_ step : Z)
    (seriesList : list Series) (fluxInterval now : Z)
    : outcome (list missInterval * bool) :=
  '(cachedStart, cachedEnd) ← cachedCoverage step seriesList fluxInterval now ;
  let '(misses, replaceCacheData) := classify start end_ cachedStart cachedEnd in
  Ret (validMisses misses, replaceCacheData).

(** *** What the reconciler's result is measured against *)

(** A miss interval as a set of timestamps, both ends included. *)
Definition inMiss (t : Z) (miss : missInterval) : Prop :=
  start miss ≤ t ≤ end_ miss.





End Reconciler.

(** ** SeriesMerger: labelsToString and mergeSerieses *)

(** [sort.Slice] of the label list by key.  The keys of a map are pairwise
    distinct, so the order of the result does not depend on the sorting
    algorithm; an insertion sort on Go's bytewise string order stands for
    it. *)
Fixpoint insertLabel (kv : string * string) (l : list (string * string))
    : list (string * string) :=
  match l with
  | [] => [kv]
  | kv' :: l' =>
      if String.ltb kv.1 kv'.1 then kv :: l else kv' :: insertLabel kv l'
  end.

Definition sortLabels (l : list (string * string)) : list (string * string) :=
  foldr insertLabel [] l.

Definition labelKV (kv : string * string) : string := kv.1 +:+ "=" +:+ kv.2.

Definition labelsToString (labels : gmap string string) : string :=
  let labelsList := sortLabels (map_to_list labels) in
  "{" +:+ String.concat "," (labelKV <$> labelsList) +:+ "}".

(** Modelled from the spec: [Series.SortPoints] is a method of model/v3,
    which is not among the sources at hand.  The spec asks for a sort of
    the points by timestamp, ascending; a stable insertion sort is used. *)
Fixpoint insertPoint (p : Point) (l : list Point) : list Point :=
  match l with
  | [] => [p]
  | p' :: l' =>
      if (Timestamp p <=? Timestamp p')%Z then p :: l else p' :: insertPoint p l'
  end.

Definition SortPoints (points : list Point) : list Point :=
  foldr insertPoint [] points.

(** Modelled from the spec: [Series.RemoveDuplicatePoints] is a method of
    model/v3, which is not among the sources at hand.  The spec asks that
    adjacent points with equal timestamp collapse to one; the last point of
    each run is the one kept. *)
Fixpoint RemoveDuplicatePoints (points : list Point) : list Point :=
  match points with
  | [] => []
  | p :: rest =>
      match rest with
      | [] => [p]
      | p' :: _ =>
          if (Timestamp p =? Timestamp p')%Z
          then RemoveDuplicatePoints rest
          else p :: RemoveDuplicatePoints rest
      end
  end.

(** [series.SortPoints(); series.RemoveDuplicatePoints()] *)
Definition sortAndDedup (series : Series) : Series :=
  mkSeries (Labels series) (RemoveDuplicatePoints (SortPoints (Points series))).

Definition signature (series : Series) : string := labelsToString (Labels series).

(** First loop of [mergeSerieses]: a later cached series takes the place
    of an earlier one with the same label signature. *)
Definition seedCached (seriesesByLabels : gmap string Series) (series : Series)
    : gmap string Series :=
  <[signature series := series]> seriesesByLabels.

(** Second loop: a missed series is entered when its signature is new,
    otherwise its points are appended to the series of the table. *)
Definition addMissed (seriesesByLabels : gmap string Series) (series : Series)
    : gmap string Series :=
  match seriesesByLabels !! signature series with
  | None => <[signature series := series]> seriesesByLabels
  | Some found =>
      <[signature series := mkSeries (Labels found) (Points found ++ Points series)]>
        seriesesByLabels
  end.

(** The table holds pointers in the source and its entries are updated in
    place; the result below is the list of the pointed series as they are
    when [mergeSerieses] returns.  Go does not fix the order in which the
    last loop walks the table: the order of [map_to_list] stands for it,
    and the results about [mergeSerieses] hold up to a permutation. *)
Definition mergeSerieses (cachedSeries missedSeries : list Series) : list Series :=
  let seriesesByLabels :=
    foldl addMissed (foldl seedCached ∅ cachedSeries) missedSeries in
  (λ kv, sortAndDedup kv.2) <$> map_to_list seriesesByLabels.

(** The timestamps of a point list, and the order wanted of a merged
    series: strictly ascending timestamps. *)
Definition timestamps (points : list Point) : list Z := Timestamp <$> points.

Definition strictlyAscending (points : list Point) : Prop :=
  StronglySorted Z.lt (timestamps points).

Definition le_ts (a b : Point) : Prop := (Timestamp a ≤ Timestamp b)%Z.

(** A series under the key it has in the merge table. *)
Definition keyed (series : Series) : string * Series := (signature series, series).

Definition distinctSignatures (seriesList : list Series) : Prop :=
  NoDup (signature <$> seriesList).

(** ** mergeSerieses on the series it is given

    The two arguments of [mergeSerieses] are slices of pointers.  The
    series it enters in its table are the series of its arguments: it
    appends to them, sorts them and strips them where they are, and the
    caller sees it.  The store holds the series behind the pointers of the
    two slices; a pointer is the place of its series in its slice, so the
    series of two places are two objects, as they are when they come from
    the decoder and from the reader. *)
Inductive seriesRef : Type :=
  | CachedRef (idx : nat)
  | MissedRef (idx : nat).

Global Instance seriesRef_eq_dec : EqDecision seriesRef.
Proof. solve_decision. Defined.

Record seriesStore : Type := mkStore {
  storedCached : list Series;
  storedMissed : list Series
}.

Definition load (st : seriesStore) (r : seriesRef) : option Series :=
  match r with
  | CachedRef idx => storedCached st !! idx
  | MissedRef idx => storedMissed st !! idx
  end.

Definition modify (f : Series → Series) (r : seriesRef) (st : seriesStore)
    : seriesStore :=
  match r with
  | CachedRef idx => mkStore (alter f idx (storedCached st)) (storedMissed st)
  | MissedRef idx => mkStore (storedCached st) (alter f idx (storedMissed st))
  end.

(** First loop: [seriesesByLabels[labelsToString(series.Labels)] = series]. *)
Definition seedCachedRef (st : seriesStore) (table : gmap string seriesRef)
    (idx : nat) : gmap string seriesRef :=
  match load st (CachedRef idx) with
  | Some series => <[signature series := CachedRef idx]> table
  | None => table
  end.

(** Second loop: a missed series with a new signature is entered; the
    points of another one are appended to the series the table points
    to. *)
Definition appendPoints (points : list Point) (found : Series) : Series :=
  mkSeries (Labels found) (Points found ++ points).

Definition addMissedRef (acc : gmap string seriesRef * seriesStore) (idx : nat)
    : gmap string seriesRef * seriesStore :=
  match load acc.2 (MissedRef idx) with
  | Some series =>
      match acc.1 !! signature series with
      | None => (<[signature series := MissedRef idx]> acc.1, acc.2)
      | Some found => (acc.1, modify (appendPoints (Points series)) found acc.2)
      end
  | None => acc
  end.

(** Third loop: every series of the table is sorted and stripped where it
    is, and its pointer appended to the result. *)
Definition sortRef (acc : list seriesRef * seriesStore) (kv : string * seriesRef)
    : list seriesRef * seriesStore :=
  (acc.1 ++ [kv.2], modify sortAndDedup kv.2 acc.2).

Definition mergeSeriesesInPlace (cachedSeries missedSeries : list Series)
    : list seriesRef * seriesStore :=
  let st := mkStore cachedSeries missedSeries in
  let table := foldl (seedCachedRef st) ∅ (seq 0 (length cachedSeries)) in
  let acc := foldl addMissedRef (table, st) (seq 0 (length missedSeries)) in
  foldl sortRef ([], acc.2) (map_to_list acc.1).

(** The series behind the returned pointers, and the series of the second
    argument as the call leaves them. *)
Definition mergedValues (cachedSeries missedSeries : list Series) : list Series :=
  let merged := mergeSeriesesInPlace cachedSeries missedSeries in
  omap (load merged.2) merged.1.

Definition missedAfterMerge (cachedSeries missedSeries : list Series) : list Series :=
  storedMissed (mergeSeriesesInPlace cachedSeries missedSeries).2.

(** The two tables of the two descriptions of [mergeSerieses] agree when
    each pointer of the one leads to the series of the other; every
    pointer of a table is a place of an argument, under the signature of
    the series there. *)
Definition agrees (refs : gmap string seriesRef) (st : seriesStore)
    (values : gmap string Series) : Prop :=
  ∀ k, match refs !! k with
       | Some r => load st r = values !! k ∧ is_Some (values !! k)
       | None => values !! k = None
       end.

Definition owned (cachedSeries missedSeries : list Series) (done : nat)
    (refs : gmap string seriesRef) : Prop :=
  ∀ k r, refs !! k = Some r →
    match r with
    | CachedRef idx => ∃ s, cachedSeries !! idx = Some s ∧ signature s = k
    | MissedRef idx =>
        (idx < done)%nat ∧ ∃ s, missedSeries !! idx = Some s ∧ signature s = k
    end.


(** ** Requests, results and errors *)

(** Modelled from the spec: the query and panel types are string constants
    of model/v3, which is not among the sources at hand.  The constants
    the querier tests are named; any other string is [QueryTypeOther],
    [PanelTypeOther]. *)
Inductive QueryType : Type :=
| QueryTypeBuilder
| QueryTypeClickHouseSQL
| QueryTypePromQL
| QueryTypeOther.

Inductive PanelType : Type :=
| PanelTypeValue
| PanelTypeGraph
| PanelTypeTable
| PanelTypeList
| PanelTypeTrace
| PanelTypeOther.

Global Instance QueryType_eq_dec : EqDecision QueryType.
Proof. solve_decision. Defined.
Global Instance PanelType_eq_dec : EqDecision PanelType.
Proof. solve_decision. Defined.

(** The values of Go's [error] interface met by the querier.  An error of a
    collaborator is opaque: a message and the class the collaborator gave
    it.  The other constructors are the errors the querier builds itself
    with [fmt.Errorf] and [multierr.Combine]. *)
Inductive error : Type :=
| ErrCollaborator (msg : string) (resourceLimit : bool)
| ErrInQuery (name : string) (cause : error)
| ErrInBuilderQueries
| ErrInPromQueries
| ErrInClickHouseQueries
| ErrInvalidQueryType
| ErrOnlyOneActiveQuery
| ErrOnlyOneResultSeries (n : nat)
| ErrMultiple (errs : list error).

(** The two errors of the Value-panel check. *)
Definition isValidationError (e : error) : bool :=
  match e with
  | ErrOnlyOneActiveQuery | ErrOnlyOneResultSeries _ => true
  | _ => false
  end.

Record Row : Type := mkRow {
  RowTimestamp : Z;
  RowData : list (string * string)
}.

Record BuilderQuery : Type := mkBuilderQuery {
  BuilderQuery_QueryName : string;
  BuilderQuery_Expression : string;
  BuilderQuery_Disabled : bool
}.

Record PromQuery : Type := mkPromQuery {
  PromQuery_Query : string;
  PromQuery_Disabled : bool
}.

Record ClickHouseQuery : Type := mkClickHouseQuery {
  ClickHouseQuery_Query : string;
  ClickHouseQuery_Disabled : bool
}.

Record CompositeQuery : Type := mkCompositeQuery {
  BuilderQueries : gmap string BuilderQuery;
  ClickHouseQueries : gmap string ClickHouseQuery;
  PromQueries : gmap string PromQuery;
  PanelType_ : PanelType;
  QueryType_ : QueryType
}.

(** [CompositeQuery] is a pointer in the source: [None] is nil. *)
Record QueryRangeParamsV3 : Type := mkParams {
  Start : Z;
  End_ : Z;
  Step : Z;
  CompositeQuery_ : option CompositeQuery;
  NoCache : bool
}.

Record AttributeKey : Type := mkAttributeKey {
  AttributeKey_Key : string;
  AttributeKey_DataType : string;
  AttributeKey_Type : string
}.

(** model.QueryRangeParams, the request of one PromQL range query. *)
Record PromRangeParams : Type := mkPromRangeParams {
  PromRange_Query : string;
  PromRange_Start : Z;
  PromRange_End : Z;
  PromRange_Step : Z
}.

Record channelResult : Type := mkChannelResult {
  Series_ : list Series;
  List_ : list Row;
  Err : option error;
  Name : string;
  Query : string
}.

Record Result : Type := mkResult {
  QueryName : string;
  Result_Series : list Series;
  Result_List : list Row
}.

(** ** Collaborators *)

(** One series of a PromQL matrix: its metric and its float samples
    ([T], [F]). *)
Record PromSeries : Type := mkPromSeries {
  Metric : gmap string string;
  Floats : list (Z * Z)
}.

(** A PromQL result, seen through its method [Matrix]. *)
Record PromResult : Type := mkPromResult {
  Matrix : list PromSeries * option error
}.

Record Reader : Type := mkReader {
  GetTimeSeriesResultV3 : string → list Series * option error;
  GetQueryRangeResult : PromRangeParams → PromResult * option error;
  GetListResultV3 : string → list Row * option error
}.

(** [Retrieve] yields the bytes, a status that is only logged, and an
    error.  [Store] acts on the cache after the unit has sent its result
    and changes nothing of what the call returns; it is left out. *)
Record Cache : Type := mkCache {
  Retrieve : string → bool → list Byte.byte * nat * option error
}.

Record KeyGenerator : Type := mkKeyGenerator {
  GenerateKeys : QueryRangeParamsV3 → gmap string string
}.

Record QueryBuilder : Type := mkQueryBuilder {
  PrepareQueries :
    QueryRangeParamsV3 → gmap string AttributeKey →
    gmap string string * option error
}.

(** The order in which the results of the units of one fan-out reach the
    channel: some arrangement of the units, fixed neither by the walk of
    the Go map nor by the scheduling of the goroutines. *)
Record Scheduler : Type := mkScheduler {
  arrange : ∀ A : Type, list A → list A;
  arrange_perm : ∀ (A : Type) (l : list A), arrange A l ≡ₚ l
}.

Record querier : Type := mkQuerier {
  cache : option Cache;
  reader : option Reader;
  keyGenerator : KeyGenerator;
  fluxInterval : Z;
  builder : QueryBuilder;
  testingMode : bool;
  returnedSeries : list Series;
  returnedErr : option error
}.

(** What the querier takes from outside its own file.

    Modelled from the spec: [jsonUnmarshal] is encoding/json on a series
    list ([None] when the payload cannot be deserialized); [clock] is the
    reading of [time.Now().UnixMilli()] by the unit of the named
    sub-query; [BuildPromQuery] (package metrics/v4) builds the range
    query of one sub-window; [IsResourceLimitError] (package errors)
    classifies an error; [runBuilderQuery] (another file of the package)
    is the unit of one builder sub-query and sends one tagged result;
    [scheduler] orders the results of a fan-out; [jsonLeftover] is what
    encoding/json has stored in the slice it was given when it returns an
    error: the decoder goes on after an error of type, so the slice can
    hold series, and nil pointers where the payload has a null. *)
Record Env : Type := mkEnv {
  jsonUnmarshal : list Byte.byte → option (list Series);
  clock : string → Z;
  BuildPromQuery : PromQuery → Z → Z → Z → PromRangeParams;
  IsResourceLimitError : error → bool;
  runBuilderQuery :
    querier → BuilderQuery → QueryRangeParamsV3 → gmap string AttributeKey →
    gmap string string → outcome channelResult;
  scheduler : Scheduler;
  jsonLeftover : list Byte.byte → list (option Series)
}.

Definition nilDereference {A : Type} : outcome A :=
  Panic "invalid memory address or nil pointer dereference".

(** [json.Unmarshal(cachedData, &seriesList)]: an empty payload (nil
    included) is an "unexpected end of JSON input". *)
Definition Unmarshal (env : Env) (cachedData : list Byte.byte) : option (list Series) :=
  match cachedData with
  | [] => None
  | _ => jsonUnmarshal env cachedData
  end.

(** The slice [cachedSeries] of a PromQL unit after its own
    [json.Unmarshal(cachedData, &cachedSeries)], whose error is only
    logged.  The slice is made empty before the call; an empty payload is
    refused before anything is stored. *)
Definition Leftover (env : Env) (cachedData : list Byte.byte) : list (option Series) :=
  match cachedData with
  | [] => []
  | _ => jsonLeftover env cachedData
  end.

Definition decodedForMerge (env : Env) (cachedData : list Byte.byte)
    : list (option Series) :=
  match Unmarshal env cachedData with
  | Some seriesList => Some <$> seriesList
  | None => Leftover env cachedData
  end.

(** Modelled from the spec: [CompositeQuery.EnabledQueries] is a method of
    model/v3, which is not among the sources at hand: the number of
    sub-queries of the request's query type that are not disabled. *)
Definition EnabledQueries (c : CompositeQuery) : nat :=
  match QueryType_ c with
  | QueryTypeBuilder =>
      length (List.filter (λ kv, negb (BuilderQuery_Disabled kv.2))
                (map_to_list (BuilderQueries c)))
  | QueryTypeClickHouseSQL =>
      length (List.filter (λ kv, negb (ClickHouseQuery_Disabled kv.2))
                (map_to_list (ClickHouseQueries c)))
  | QueryTypePromQL =>
      length (List.filter (λ kv, negb (PromQuery_Disabled kv.2))
                (map_to_list (PromQueries c)))
  | QueryTypeOther => 0
  end.

(** ** BackendExecutors *)

(** The inner loop of [execClickHouseQuery]: the points with a timestamp
    of zero or more are kept, in their order.  The points left out are
    counted for a log line only. *)
Definition keepNonNegative (series : Series) : Series :=
  mkSeries (Labels series)
    (List.filter (λ point, (0 <=? Timestamp point)%Z) (Points series)).

Definition execClickHouseQuery (q : querier) (query : string)
    : outcome (list Series * option error) :=
  match reader q with
  | None =>
      if testingMode q then Ret (returnedSeries q, returnedErr q)
      else nilDereference
  | Some rd =>
      let '(result, err) := GetTimeSeriesResultV3 rd query in
      Ret (keepNonNegative <$> result, err)
  end.

Definition seriesOfMatrix (v : PromSeries) : Series :=
  mkSeries (Metric v) ((λ p, mkPoint p.1 p.2) <$> Floats v).

Definition execPromQuery (q : querier) (params : PromRangeParams)
    : outcome (list Series * option error) :=
  match reader q with
  | None =>
      if testingMode q then Ret (returnedSeries q, returnedErr q)
      else nilDereference
  | Some rd =>
      let '(promResult, err) := GetQueryRangeResult rd params in
      match err with
      | Some e => Ret ([], Some e)
      | None =>
          let '(matrix, promErr) := Matrix promResult in
          match promErr with
          | Some e => Ret ([], Some e)
          | None => Ret (seriesOfMatrix <$> matrix, None)
          end
      end
  end.

(** The method [findMissingTimeRanges] of the querier; [now] is the reading
    of the clock made by the reconciler. *)
Definition querier_findMissingTimeRanges (env : Env) (q : querier)
    (start end_ step : Z) (cachedData : list Byte.byte) (now : Z)
    : outcome (list missInterval * bool) :=
  match Unmarshal env cachedData with
  | None => Ret ([mkMiss start end_], true)
  | Some cachedSeriesList =>
      findMissingTimeRanges start end_ step cachedSeriesList (fluxInterval q) now
  end.

(** The loop over the misses of one PromQL unit: the first failing fetch
    ends the unit with its error and the text of the failing query. *)
Fixpoint fetchMisses (env : Env) (q : querier) (promQuery : PromQuery) (step : Z)
    (misses : list missInterval) (missedSeries : list Series)
    : outcome (error * string + list Series) :=
  match misses with
  | [] => Ret (inr missedSeries)
  | miss :: rest =>
      let query := BuildPromQuery env promQuery step (start miss) (end_ miss) in
      '(series, err) ← execPromQuery q query ;
      match err with
      | Some e => Ret (inl (e, PromRange_Query query))
      | None => fetchMisses env q promQuery step rest (missedSeries ++ series)
      end
  end.

(** The cached bytes of one sub-query: nil unless the request allows the
    cache, the querier has one, a key exists and the retrieval succeeds. *)
Definition cachedPayload (q : querier) (params : QueryRangeParamsV3)
    (cacheKeys : gmap string string) (queryName : string) : list Byte.byte :=
  match cacheKeys !! queryName, cache q with
  | Some cacheKey, Some c =>
      if NoCache params then []
      else
        let '(data, _, err) := Retrieve c cacheKey true in
        match err with None => data | Some _ => [] end
  | _, _ => []
  end.

(** [mergeSerieses] reads the labels of every cached series in its first
    loop: a nil pointer among them ends the program. *)
Definition derefSerieses (seriesList : list (option Series)) : outcome (list Series) :=
  omapM (λ s, match s with Some series => Ret series | None => nilDereference end)
    seriesList.

(** The goroutine of [runPromQueries] for one sub-query, up to the result
    it sends.  The payload is decoded a second time, into the slice that is
    merged; the error of this decoding is only logged.  [mergeSerieses] is
    called in every case, and works on the fetched series where they are:
    when [replaceCachedData] is set the unit sends the fetched series as
    that call has left them. *)
Definition promUnit (env : Env) (q : querier) (params : QueryRangeParamsV3)
    (cacheKeys : gmap string string) (queryName : string) (promQuery : PromQuery)
    : outcome channelResult :=
  let cachedData := cachedPayload q params cacheKeys queryName in
  '(misses, replaceCachedData) ←
    querier_findMissingTimeRanges env q (Start params) (End_ params) (Step params)
      cachedData (clock env queryName) ;
  fetched ← fetchMisses env q promQuery (Step params) misses [] ;
  match fetched with
  | inl (err, queryText) =>
      Ret (mkChannelResult [] [] (Some err) queryName queryText)
  | inr missedSeries =>
      cachedSeries ← derefSerieses (decodedForMerge env cachedData) ;
      let mergedSeries := mergeSerieses cachedSeries missedSeries in
      let mergedSeries :=
        if (replaceCachedData : bool)
        then missedAfterMerge cachedSeries missedSeries
        else mergedSeries in
      Ret (mkChannelResult mergedSeries [] None queryName (PromQuery_Query promQuery))
  end.

(** The result entered for a unit that succeeded: with its series on the
    series paths, with its rows on the row path. *)
Definition seriesResult (r : channelResult) : Result :=
  mkResult (Name r) (Series_ r) [].

Definition rowsResult (r : channelResult) : Result :=
  mkResult (Name r) [] (List_ r).

(** The loop that empties the channel, as written three times in the
    source (builder, PromQL, ClickHouse). *)
Definition drainStep (acc : list Result * gmap string error * list error)
    (result : channelResult) : list Result * gmap string error * list error :=
  let '(results, errQueriesByName, errs) := acc in
  match Err result with
  | Some e => (results, <[Name result := e]> errQueriesByName, errs ++ [e])
  | None =>
      (results ++ [seriesResult result], errQueriesByName, errs)
  end.

(** The error map and the error list a channel content leaves behind. *)
Definition tableStep (m : gmap string error) (r : channelResult) : gmap string error :=
  match Err r with Some e => <[Name r := e]> m | None => m end.

Definition errorTable (channelResults : list channelResult) : gmap string error :=
  foldl tableStep ∅ channelResults.

Definition errorList (channelResults : list channelResult) : list error :=
  omap Err channelResults.

Definition succeeded (r : channelResult) : bool :=
  match Err r with None => true | Some _ => false end.

Definition drain (failure : error) (channelResults : list channelResult)
    : option (list Result) * option (gmap string error) * option error :=
  let '(results, errQueriesByName, errs) :=
    foldl drainStep ([], ∅, []) channelResults in
  (Some results, Some errQueriesByName,
   if decide (0 < length errs) then Some failure else None).

(** The sub-queries a fan-out starts a unit for, and the channel once
    every unit has sent its result and the channel is closed. *)
Definition finalBuilderQueries (cq : CompositeQuery) : list (string * BuilderQuery) :=
  List.filter (λ kv, String.eqb kv.1 (BuilderQuery_Expression kv.2))
    (map_to_list (BuilderQueries cq)).

Definition fanOutBuilder (env : Env) (q : querier) (params : QueryRangeParamsV3)
    (keys : gmap string AttributeKey) (cq : CompositeQuery)
    : outcome (list channelResult) :=
  let cacheKeys := GenerateKeys (keyGenerator q) params in
  omapM (λ kv, runBuilderQuery env q kv.2 params keys cacheKeys)
    (arrange (scheduler env) _ (finalBuilderQueries cq)).

Definition runBuilderQueries (env : Env) (q : querier)
    (params : QueryRangeParamsV3) (keys : gmap string AttributeKey)
    : outcome (option (list Result) * option (gmap string error) * option error) :=
  match CompositeQuery_ params with
  | None => nilDereference
  | Some cq =>
      ch ← fanOutBuilder env q params keys cq ;
      Ret (drain ErrInBuilderQueries ch)
  end.

Definition enabledPromQueries (cq : CompositeQuery) : list (string * PromQuery) :=
  List.filter (λ kv, negb (PromQuery_Disabled kv.2)) (map_to_list (PromQueries cq)).

Definition fanOutProm (env : Env) (q : querier) (params : QueryRangeParamsV3)
    (cq : CompositeQuery) : outcome (list channelResult) :=
  let cacheKeys := GenerateKeys (keyGenerator q) params in
  omapM (λ kv, promUnit env q params cacheKeys kv.1 kv.2)
    (arrange (scheduler env) _ (enabledPromQueries cq)).

Definition runPromQueries (env : Env) (q : querier) (params : QueryRangeParamsV3)
    : outcome (option (list Result) * option (gmap string error) * option error) :=
  match CompositeQuery_ params with
  | None => nilDereference
  | Some cq =>
      channelResults ← fanOutProm env q params cq ;
      Ret (drain ErrInPromQueries channelResults)
  end.

Definition clickHouseUnit (q : querier) (queryName : string)
    (clickHouseQuery : ClickHouseQuery) : outcome channelResult :=
  '(series, err) ← execClickHouseQuery q (ClickHouseQuery_Query clickHouseQuery) ;
  Ret (mkChannelResult series [] err queryName (ClickHouseQuery_Query clickHouseQuery)).

Definition enabledClickHouseQueries (cq : CompositeQuery)
    : list (string * ClickHouseQuery) :=
  List.filter (λ kv, negb (ClickHouseQuery_Disabled kv.2))
    (map_to_list (ClickHouseQueries cq)).

Definition fanOutClickHouse (env : Env) (q : querier) (cq : CompositeQuery)
    : outcome (list channelResult) :=
  omapM (λ kv, clickHouseUnit q kv.1 kv.2)
    (arrange (scheduler env) _ (enabledClickHouseQueries cq)).

Definition runClickHouseQueries (env : Env) (q : querier)
    (params : QueryRangeParamsV3)
    : outcome (option (list Result) * option (gmap string error) * option error) :=
  match CompositeQuery_ params with
  | None => nilDereference
  | Some cq =>
      channelResults ← fanOutClickHouse env q cq ;
      Ret (drain ErrInClickHouseQueries channelResults)
  end.

(** The goroutine of [runBuilderListQueries] for one prepared query. *)
Definition listUnit (q : querier) (name query : string) : outcome channelResult :=
  match reader q with
  | None => nilDereference
  | Some rd =>
      let '(rowList, err) := GetListResultV3 rd query in
      match err with
      | Some e => Ret (mkChannelResult [] [] (Some (ErrInQuery name e)) name query)
      | None => Ret (mkChannelResult [] rowList None name query)
      end
  end.

Definition drainRowsStep (acc : list Result * gmap string error * list error)
    (r : channelResult) : list Result * gmap string error * list error :=
  let '(res, errQuriesByName, errs) := acc in
  match Err r with
  | Some e => (res, <[Name r := e]> errQuriesByName, errs ++ [e])
  | None => (res ++ [rowsResult r], errQuriesByName, errs)
  end.

Definition fanOutList (env : Env) (q : querier) (queries : gmap string string)
    : outcome (list channelResult) :=
  omapM (λ kv, listUnit q kv.1 kv.2)
    (arrange (scheduler env) _ (map_to_list queries)).

Definition runBuilderListQueries (env : Env) (q : querier)
    (params : QueryRangeParamsV3) (keys : gmap string AttributeKey)
    : outcome (option (list Result) * option (gmap string error) * option error) :=
  let '(queries, err) := PrepareQueries (builder q) params keys in
  match err with
  | Some e => Ret (None, None, Some e)
  | None =>
      ch ← fanOutList env q queries ;
      let '(res, errQuriesByName, errs) := foldl drainRowsStep ([], ∅, []) ch in
      if decide (length errs ≠ 0)
      then Ret (None, Some errQuriesByName, Some (ErrMultiple errs))
      else Ret (Some res, None, None)
  end.

(** ** Orchestrator: QueryRange *)

(** The loop that deletes from the error map every error that is not a
    resource-limit error; a nil map has nothing to walk. *)
Definition keepResourceLimitErrors (env : Env)
    (errQueriesByName : option (gmap string error))
    : option (gmap string error) :=
  filter (λ kv, IsResourceLimitError env kv.2 = true) <$> errQueriesByName.

Definition len {A : Type} (s : option (list A)) : nat := length (default [] s).

(** The check made for a Value panel on what the dispatch left in
    [results] and [err]. *)
Definition valuePanelCheck (cq : CompositeQuery) (results : option (list Result))
    (err : option error) : option error :=
  if decide (1 < len results ∧ 1 < EnabledQueries cq) then
    Some ErrOnlyOneActiveQuery
  else
    match results with
    | Some [result] =>
        if decide (1 < length (Result_Series result))
        then Some (ErrOnlyOneResultSeries (length (Result_Series result)))
        else err
    | _ => err
    end.

(** The switch on the query type, for a request with a composite query. *)
Definition dispatch (env : Env) (q : querier) (params : QueryRangeParamsV3)
    (keys : gmap string AttributeKey) (cq : CompositeQuery)
    : outcome (option (list Result) * option (gmap string error) * option error) :=
  match QueryType_ cq with
  | QueryTypeBuilder =>
      '(results, errQueriesByName, err) ←
        (if decide (PanelType_ cq = PanelTypeList ∨ PanelType_ cq = PanelTypeTrace)
         then runBuilderListQueries env q params keys
         else runBuilderQueries env q params keys) ;
      Ret (results, keepResourceLimitErrors env errQueriesByName, err)
  | QueryTypePromQL => runPromQueries env q params
  | QueryTypeClickHouseSQL => runClickHouseQueries env q params
  | QueryTypeOther => Ret (None, None, Some ErrInvalidQueryType)
  end.

Definition QueryRange (env : Env) (q : querier) (params : QueryRangeParamsV3)
    (keys : gmap string AttributeKey)
    : outcome (option (list Result) * option (gmap string error) * option error) :=
  '(results, errQueriesByName, err) ←
    match CompositeQuery_ params with
    | Some cq => dispatch env q params keys cq
    | None => Ret (None, None, None)
    end ;
  match CompositeQuery_ params with
  | None => nilDereference
  | Some cq =>
      if decide (PanelType_ cq = PanelTypeValue)
      then Ret (results, errQueriesByName, valuePanelCheck cq results err)
      else Ret (results, errQueriesByName, err)
  end.

(** ** Sample values *)

Section Samples.
Local Open Scope Z_scope.

(** A cached series with points at 120 and 180. *)
Definition sampleCached : list Series :=
  [mkSeries {["service" := "api"]} [mkPoint 120 1; mkPoint 180 2]].

(** A clock reading, and cached points from the two minutes before it;
    they are younger than a flux interval of five minutes. *)
Definition sampleNow : Z := 1700000000000.

Definition sampleRecent : list Series :=
  [mkSeries {["service" := "api"]}
     [mkPoint 1699999900000 1; mkPoint 1699999940000 2]].

(** Cached points from one millisecond after the start of the window
    [100, 200] up to its end. *)
Definition sampleAlmostFull : list Series :=
  [mkSeries {["service" := "api"]} [mkPoint 101 1; mkPoint 200 2]].

(** Two series with different label sets and the same label signature,
    and a third series under other labels. *)
Definition sampleCommaValue : Series :=
  mkSeries {["a" := "b,c=d"]} [mkPoint 1 1].

Definition sampleTwoLabels : Series :=
  mkSeries (<["a" := "b"]> {["c" := "d"]}) [mkPoint 2 2].

Definition sampleUnsorted : Series :=
  mkSeries {["host" := "h1"]} [mkPoint 30 1; mkPoint 10 2; mkPoint 30 3; mkPoint 20 4].

(** A second series under the labels of [sampleUnsorted]. *)
Definition sampleSameHost : Series :=
  mkSeries {["host" := "h1"]} [mkPoint 40 5].

Definition fiveMinutes : Z := 300000000000.

Definition arrivalInOrder : Scheduler :=
  mkScheduler (λ A l, l) (λ A l, Permutation_refl l).

Definition arrivalReversed : Scheduler :=
  mkScheduler (λ A l, reverse l) (λ A l, reverse_Permutation l).

Definition sampleIsResourceLimitError (e : error) : bool :=
  match e with
  | ErrCollaborator _ resourceLimit => resourceLimit
  | _ => false
  end.

Definition sampleEnv (sch : Scheduler) : Env :=
  mkEnv (λ _, None) (λ _, sampleNow)
    (λ promQuery step s e, mkPromRangeParams (PromQuery_Query promQuery) s e step)
    sampleIsResourceLimitError
    (λ q bq params keys cacheKeys,
       Ret (mkChannelResult [] [] None (BuilderQuery_QueryName bq) ""))
    sch (λ _, []).

(** A reader that fails on the query text "bad" and otherwise returns one
    series with a point at -5 and a point at 10. *)
Definition sampleReader : Reader :=
  mkReader
    (λ query,
       if String.eqb query "bad" then ([], Some (ErrCollaborator "timeout" false))
       else ([mkSeries ∅ [mkPoint (-5) 1; mkPoint 10 2]], None))
    (λ _, (mkPromResult ([], None), None))
    (λ query,
       if String.eqb query "bad" then ([], Some (ErrCollaborator "timeout" false))
       else ([mkRow 1 []], None)).

Definition sampleQuerier (prepared : gmap string string * option error) : querier :=
  mkQuerier None (Some sampleReader) (mkKeyGenerator (λ _, ∅)) 0
    (mkQueryBuilder (λ _ _, prepared)) false [] None.

(** Three ClickHouse sub-queries, of which "A" carries the failing text,
    and the first two of them alone. *)
Definition sampleThreeQueries : gmap string ClickHouseQuery :=
  <["A" := mkClickHouseQuery "bad" false]>
    (<["B" := mkClickHouseQuery "select 1" false]>
       (<["C" := mkClickHouseQuery "select 2" false]> ∅)).

Definition sampleTwoQueries : gmap string ClickHouseQuery :=
  <["A" := mkClickHouseQuery "bad" false]>
    (<["B" := mkClickHouseQuery "select 1" false]> ∅).

Definition sampleTwoGoodQueries : gmap string ClickHouseQuery :=
  <["A" := mkClickHouseQuery "select 0" false]>
    (<["B" := mkClickHouseQuery "select 1" false]> ∅).

Definition sampleClickHouseRequest (queries : gmap string ClickHouseQuery)
    (panel : PanelType) : QueryRangeParamsV3 :=
  mkParams 100 200 60
    (Some (mkCompositeQuery ∅ queries ∅ panel QueryTypeClickHouseSQL)) false.

(** A builder request for a List panel; its sub-queries are translated by
    the query builder of the querier. *)
Definition sampleListRequest : QueryRangeParamsV3 :=
  mkParams 100 200 60
    (Some (mkCompositeQuery ∅ ∅ ∅ PanelTypeList QueryTypeBuilder)) false.

Definition sampleTimeout : error := ErrCollaborator "timeout" false.

End Samples.

(** ** Further code of the querier file *)

(** [filterCachedPoints]: in each cached series the points outside
    [start, end] are dropped, but for the points with timestamp zero, which
    are always kept.  The source rewrites the series in place and returns
    nothing; the list of the series as they are afterwards is returned
    here. *)
Definition keepCachedPoint (start end_ : Z) (p : Point) : bool :=
  negb (((Timestamp p <? start)%Z || (end_ <? Timestamp p)%Z)
        && negb (Timestamp p =? 0)%Z).

Definition filterCachedPoints (cachedSeries : list Series) (start end_ : Z)
    : list Series :=
  (λ c, mkSeries (Labels c) (List.filter (keepCachedPoint start end_) (Points c)))
    <$> cachedSeries.

(** All the points of a series list, in the order the reconciler scans
    them. *)
Definition allPoints (seriesList : list Series) : list Point :=
  concat (Points <$> seriesList).

(** The series a cached series and a missed series with its signature
    are joined into by the second loop of [mergeSerieses]. *)
Definition joinPoints (found series : Series) : Series :=
  mkSeries (Labels found) (Points found ++ Points series).

(** Every entry of a merge table sits under the signature of its
    series. *)
Definition keyedTable (table : gmap string Series) : Prop :=
  ∀ k s, table !! k = Some s → signature s = k.

(** The table of [mergeSerieses] after its two loops. *)
Definition mergeTable (cachedSeries missedSeries : list Series) : gmap string Series :=
  foldl addMissed (foldl seedCached ∅ cachedSeries) missedSeries.

(** The points of one series are points of another; the points of the
    entries of a table come from given series with the same signature. *)
Definition pointsWithin (s s' : Series) : Prop :=
  ∀ p, p ∈ Points s → p ∈ Points s'.

Definition sourced (inputs : list Series) (table : gmap string Series) : Prop :=
  ∀ k s p, table !! k = Some s → p ∈ Points s →
    ∃ s0, s0 ∈ inputs ∧ signature s0 = k ∧ p ∈ Points s0.

(** The missed series by signature, for a list with distinct signatures. *)
Definition missedTable (missedSeries : list Series) : gmap string Series :=
  list_to_map (keyed <$> missedSeries).

(** [labelsToString] after its first loop: the label list as the walk of
    the map has left it, in some order, is sorted, formatted and joined. *)
Definition labelsToStringFrom (labelsList : list (string * string)) : string :=
  "{" +:+ String.concat "," (labelKV <$> sortLabels labelsList) +:+ "}".

(** The comparison given to [sort.Slice]. *)
Definition keyBefore (a b : string * string) : Prop := String.ltb a.1 b.1 = true.

(** ** More sample values *)

(** A querier without reader whose cache holds a payload under every key,
    and an environment that decodes every payload to [sampleCached]. *)
Definition sampleCachingQuerier : querier :=
  mkQuerier (Some (mkCache (λ _ _, ([Byte.x5b; Byte.x5d], 0%nat, None))))
    None (mkKeyGenerator (λ _, {["A" := "key-A"]})) 0
    (mkQueryBuilder (λ _ _, (∅, None))) false [] None.

Definition sampleDecodingEnv : Env :=
  mkEnv (λ _, Some sampleCached) (λ _, sampleNow)
    (λ promQuery step s e, mkPromRangeParams (PromQuery_Query promQuery) s e step)
    sampleIsResourceLimitError
    (λ q bq params keys cacheKeys,
       Ret (mkChannelResult [] [] None (BuilderQuery_QueryName bq) ""))
    arrivalInOrder (λ _, []).

(** A reader whose PromQL answer has two series with their samples out of
    order, and a querier with this reader and no cache. *)
Definition sampleUnsortedReader : Reader :=
  mkReader (λ _, ([], None))
    (λ _, (mkPromResult
             ([mkPromSeries {["job" := "api"]} [(30, 1); (10, 2); (20, 3)];
               mkPromSeries {["job" := "web"]} [(15, 5); (5, 4)]]%Z, None), None))
    (λ _, ([], None)).

Definition samplePromQuerier : querier :=
  mkQuerier None (Some sampleUnsortedReader) (mkKeyGenerator (λ _, ∅)) 0%Z
    (mkQueryBuilder (λ _ _, (∅, None))) false [] None.

(** An environment whose decoder fails and leaves a nil pointer in the
    slice, and a querier with the reader above whose cache holds a payload
    under every key. *)
Definition samplePartialEnv : Env :=
  mkEnv (λ _, None) (λ _, sampleNow)
    (λ promQuery step s e, mkPromRangeParams (PromQuery_Query promQuery) s e step)
    sampleIsResourceLimitError
    (λ q bq params keys cacheKeys,
       Ret (mkChannelResult [] [] None (BuilderQuery_QueryName bq) ""))
    arrivalInOrder (λ _, [None]).

Definition samplePartialQuerier : querier :=
  mkQuerier (Some (mkCache (λ _ _, ([Byte.x5b; Byte.x5d], 0%nat, None))))
    (Some sampleUnsortedReader) (mkKeyGenerator (λ _, {["A" := "key-A"]})) 0%Z
    (mkQueryBuilder (λ _ _, (∅, None))) false [] None.

(** * Properties *)

(** ** Machine integers *)

Section Int64Facts.
Local Open Scope Z_scope.

Lemma wrap_id z : Int64.in_int64 z → Int64.wrap z = z.
Proof.
  unfold Int64.in_int64, Int64.wrap, Int64.min_int64, Int64.max_int64. intros H.
  rewrite Z.mod_small; lia.
Qed.

Lemma wrap_range z : Int64.in_int64 (Int64.wrap z).
Proof.
  unfold Int64.in_int64, Int64.wrap, Int64.min_int64, Int64.max_int64.
  pose proof (Z.mod_pos_bound (z + 2 ^ 63) (2 ^ 64) ltac:(lia)). lia.
Qed.

Lemma to_float64_small z : Z.abs z ≤ 2 ^ 53 → Int64.to_float64 z = z.
Proof.
  intros H. unfold Int64.to_float64.
  destruct (Z.leb_spec (Z.abs z) (2 ^ 53)); [done | lia].
Qed.

Lemma of_float64_id f : Int64.in_int64 f → Int64.of_float64 f = f.
Proof.
  unfold Int64.in_int64, Int64.of_float64. intros [H1 H2].
  destruct (Z.leb_spec Int64.min_int64 f); [|lia].
  destruct (Z.leb_spec f Int64.max_int64); [done | lia].
Qed.

Lemma to_float64_pos z : 1 ≤ z → 1 ≤ Int64.to_float64 z.
Proof.
  intros Hz. unfold Int64.to_float64.
  destruct (Z.leb_spec (Z.abs z) (2 ^ 53)) as [|Hbig]; [done|].
  rewrite Z.abs_eq in * by lia. rewrite Z.sgn_pos by lia.
  set (ulp := 2 ^ (Z.log2 z - 52)).
  assert (Hlog : 53 ≤ Z.log2 z) by (apply Z.log2_le_pow2; lia).
  assert (Hulp : 0 < ulp) by (apply Z.pow_pos_nonneg; lia).
  assert (Hq : 1 ≤ z / ulp).
  { apply Z.div_le_lower_bound; [done|].
    pose proof (Z.log2_spec z ltac:(lia)) as [Hlo _].
    transitivity (2 ^ Z.log2 z); [|done].
    rewrite Z.mul_1_r. apply Z.pow_le_mono_r; lia. }
  repeat case_match; nia.
Qed.

End Int64Facts.

(** ** The reconciler *)

Section ReconcilerFacts.
Local Open Scope Z_scope.

Lemma adjustStep_range step :
  1 ≤ step →
  1 ≤ Int64.of_float64 (Int64.fmin (Int64.to_float64 step) 60) ≤ 60.
Proof.
  intros Hstep. pose proof (to_float64_pos step Hstep).
  unfold Int64.fmin. rewrite of_float64_id.
  - lia.
  - unfold Int64.in_int64, Int64.min_int64, Int64.max_int64. lia.
Qed.

Lemma fluxBoundary_returns now step fluxInterval :
  1 ≤ step →
  ∃ adjustStep, 1 ≤ adjustStep ≤ 60 ∧
    fluxBoundary now step fluxInterval =
      Ret (Int64.sub (Int64.sub now (Z.rem now (adjustStep * 1000)))
             (Milliseconds fluxInterval)).
Proof.
  intros Hstep. pose proof (adjustStep_range step Hstep) as Hadj.
  unfold fluxBoundary.
  set (adjustStep := Int64.of_float64 _) in *.
  exists adjustStep. split; [done|].
  unfold Int64.mul. rewrite wrap_id.
  - unfold Int64.rem.
    destruct (Z.eqb_spec (adjustStep * 1000) 0); [lia | done].
  - unfold Int64.in_int64, Int64.min_int64, Int64.max_int64. lia.
Qed.

Lemma cachedCoverage_returns step seriesList fluxInterval now :
  1 ≤ step →
  ∃ cachedStart cachedEnd,
    cachedCoverage step seriesList fluxInterval now = Ret (cachedStart, cachedEnd).
Proof.
  intros Hstep. unfold cachedCoverage.
  destruct (cachedRange seriesList) as [cs ce].
  destruct (fluxBoundary_returns now step fluxInterval Hstep) as (a & _ & ->).
  by eexists _, _.
Qed.

Lemma findMissingTimeRanges_unfold wStart wEnd step seriesList fluxInterval now
    cachedStart cachedEnd :
  cachedCoverage step seriesList fluxInterval now = Ret (cachedStart, cachedEnd) →
  findMissingTimeRanges wStart wEnd step seriesList fluxInterval now =
    Ret (validMisses (classify wStart wEnd cachedStart cachedEnd).1,
         (classify wStart wEnd cachedStart cachedEnd).2).
Proof.
  intros Hcov. unfold findMissingTimeRanges. rewrite Hcov. simpl.
  by destruct (classify wStart wEnd cachedStart cachedEnd).
Qed.

Lemma pred_no_wrap z : Int64.min_int64 < z ≤ Int64.max_int64 → Int64.sub z 1 = z - 1.
Proof.
  intros H. apply wrap_id. unfold Int64.in_int64, Int64.min_int64, Int64.max_int64 in *. lia.
Qed.

Lemma succ_no_wrap z : Int64.min_int64 ≤ z < Int64.max_int64 → Int64.add z 1 = z + 1.
Proof.
  intros H. apply wrap_id. unfold Int64.in_int64, Int64.min_int64, Int64.max_int64 in *. lia.
Qed.




End ReconcilerFacts.

(** ** Claims on the reconciler *)

Section ReconcilerClaims.
Local Open Scope Z_scope.




(** C2.  When the cached coverage left by the flux cap lies inside the
    window (cachedStart ≥ start and cachedEnd ≤ end), the reconciler returns
    the miss [start, cachedStart-1] if start < cachedStart-1, then the miss
    [cachedEnd+1, end] if cachedEnd+1 < end, nothing else, and
    replace = false.  In particular, with the window [100, 200], cached
    points covering [120, 180] and no flux interval, the misses are
    [100, 119] and [181, 200]. *)
Theorem findMissingTimeRanges_subset :
  (∀ wStart wEnd step seriesList fluxInterval now cachedStart cachedEnd,
     cachedCoverage step seriesList fluxInterval now = Ret (cachedStart, cachedEnd) →
     wStart ≤ cachedStart → cachedEnd ≤ wEnd →
     findMissingTimeRanges wStart wEnd step seriesList fluxInterval now =
       Ret ((if decide (wStart < Int64.sub cachedStart 1)
             then [mkMiss wStart (Int64.sub cachedStart 1)] else []) ++
            (if decide (Int64.add cachedEnd 1 < wEnd)
             then [mkMiss (Int64.add cachedEnd 1) wEnd] else []), false)) ∧
  (∀ step seriesList now,
     cachedRange seriesList = (120, 180) →
     1 ≤ step → 60180 ≤ now ≤ 2 ^ 53 →
     findMissingTimeRanges 100 200 step seriesList 0 now =
       Ret ([mkMiss 100 119; mkMiss 181 200], false)).
Proof.
  split.
  - intros wStart wEnd step seriesList fluxInterval now cs ce Hcov H1 H2.
    rewrite (findMissingTimeRanges_unfold _ _ _ _ _ _ _ _ Hcov).
    unfold classify.
    destruct (Z.leb_spec wStart cs); [|lia].
    destruct (Z.leb_spec ce wEnd); [|lia].
    unfold validMisses, validMiss. simpl.
    destruct (decide (wStart < Int64.sub cs 1)) as [Hl|Hl];
      destruct (decide (Int64.add ce 1 < wEnd)) as [Hr|Hr];
      repeat match goal with
             | |- context [(?a <? ?b)] => destruct (Z.ltb_spec a b); try lia
             end; reflexivity.
  - intros step seriesList now Hrange Hstep Hnow.
    destruct (fluxBoundary_returns now step 0 Hstep) as (a & Ha & Hb).
    pose proof (Z.rem_bound_pos now (a * 1000) ltac:(lia) ltac:(lia)) as Hr.
    assert (Hcov : cachedCoverage step seriesList 0 now = Ret (120, 180)).
    { unfold cachedCoverage. rewrite Hrange, Hb. simpl. f_equal. f_equal.
      set (r := Z.rem now (a * 1000)) in *.
      assert (Int64.sub now r = now - r) as ->.
      { apply wrap_id. unfold Int64.in_int64, Int64.min_int64, Int64.max_int64. lia. }
      assert (Int64.sub (now - r) (Milliseconds 0) = now - r) as ->.
      { replace (Milliseconds 0) with 0 by reflexivity.
        unfold Int64.sub. rewrite Z.sub_0_r.
        apply wrap_id. unfold Int64.in_int64, Int64.min_int64, Int64.max_int64. lia. }
      unfold capCachedEnd, Int64.fmin.
      rewrite (to_float64_small 180), (to_float64_small (now - r)) by lia.
      rewrite Z.min_l by lia. reflexivity. }
    rewrite (findMissingTimeRanges_unfold _ _ _ _ _ _ _ _ Hcov). reflexivity.
Qed.

(** Both misses kept; both dropped, the left one of a single millisecond
    and the right one empty; the left one kept and the right one dropped. *)
Lemma findMissingTimeRanges_subset_witness :
  findMissingTimeRanges 100 200 60 sampleCached 0 sampleNow =
    Ret ([mkMiss 100 119; mkMiss 181 200], false) ∧
  findMissingTimeRanges 100 200 60 sampleCached 0 sampleNow =
    Ret ([mkMiss 100 119; mkMiss 181 200], false) ∧
  findMissingTimeRanges 100 200 60 sampleAlmostFull 0 sampleNow =
    Ret ([], false) ∧
  findMissingTimeRanges 100 200 60
    [mkSeries ∅ [mkPoint 120 1; mkPoint 200 2]] 0 sampleNow =
    Ret ([mkMiss 100 119], false).
Proof.
  destruct findMissingTimeRanges_subset as [Hgeneral Hliteral].
  split; [|split; [|split]].
  - apply Hliteral; [reflexivity | lia | unfold sampleNow; lia].
  - exact (Hgeneral 100 200 60 sampleCached 0 sampleNow 120 180
             eq_refl ltac:(lia) ltac:(lia)).
  - exact (Hgeneral 100 200 60 sampleAlmostFull 0 sampleNow 101 200
             eq_refl ltac:(lia) ltac:(lia)).
  - exact (Hgeneral 100 200 60 [mkSeries ∅ [mkPoint 120 1; mkPoint 200 2]] 0
             sampleNow 120 200 eq_refl ltac:(lia) ltac:(lia)).
Defined.

(** The other two literals of the reconciler: a disjoint and a superset
    cache. *)
Example findMissingTimeRanges_disjoint :
  findMissingTimeRanges 100 200 60
    [mkSeries ∅ [mkPoint 300 1; mkPoint 400 2]] 0 sampleNow =
    Ret ([mkMiss 100 200], true).
Proof. reflexivity. Qed.

Example findMissingTimeRanges_superset :
  findMissingTimeRanges 100 200 60
    [mkSeries ∅ [mkPoint 50 1; mkPoint 250 2]] 0 sampleNow =
    Ret ([], false).
Proof. reflexivity. Qed.

(** A step of zero makes the rounding of the clock divide by zero. *)
Example findMissingTimeRanges_zero_step :
  findMissingTimeRanges 100 200 0 sampleCached 0 sampleNow =
    Panic "integer divide by zero".
Proof. reflexivity. Qed.

End ReconcilerClaims.

(** ** The merger *)

Section MergerFacts.
Local Open Scope Z_scope.

Lemma insertPoint_perm p l : insertPoint p l ≡ₚ p :: l.
Proof.
  induction l as [|a l IH]; simpl; [done|].
  case_match; [done|]. rewrite IH. apply Permutation_swap.
Qed.

Lemma SortPoints_perm l : SortPoints l ≡ₚ l.
Proof.
  induction l as [|a l IH]; simpl; [done|].
  unfold SortPoints in *. rewrite insertPoint_perm. by f_equiv.
Qed.

Lemma insertPoint_sorted p l :
  StronglySorted le_ts l → StronglySorted le_ts (insertPoint p l).
Proof.
  induction l as [|a l IH]; simpl; intros HS.
  - repeat constructor.
  - apply StronglySorted_cons in HS as [Hall HS].
    destruct (Z.leb_spec (Timestamp p) (Timestamp a)) as [Hle|Hgt].
    + apply StronglySorted_cons. split; [|by apply StronglySorted_cons].
      constructor; [done|].
      eapply Forall_impl; [exact Hall|]. unfold le_ts in *. intros; lia.
    + apply StronglySorted_cons. split; [|by apply IH].
      rewrite insertPoint_perm. constructor; [unfold le_ts; lia | done].
Qed.

Lemma SortPoints_sorted l : StronglySorted le_ts (SortPoints l).
Proof.
  induction l as [|a l IH]; simpl; [constructor|].
  by apply insertPoint_sorted.
Qed.

Lemma RemoveDuplicatePoints_subset l p :
  p ∈ RemoveDuplicatePoints l → p ∈ l.
Proof.
  induction l as [|a rest IH]; [done|].
  destruct rest as [|a' rest']; [done|].
  change (RemoveDuplicatePoints (a :: a' :: rest')) with
    (if Timestamp a =? Timestamp a'
     then RemoveDuplicatePoints (a' :: rest')
     else a :: RemoveDuplicatePoints (a' :: rest')).
  case_match.
  - intros Hin. right. by apply IH.
  - intros [->|Hin]%elem_of_cons; [left|right; by apply IH].
Qed.

Lemma RemoveDuplicatePoints_timestamps l t :
  t ∈ timestamps (RemoveDuplicatePoints l) ↔ t ∈ timestamps l.
Proof.
  induction l as [|a rest IH]; [done|].
  destruct rest as [|a' rest']; [done|].
  change (RemoveDuplicatePoints (a :: a' :: rest')) with
    (if Timestamp a =? Timestamp a'
     then RemoveDuplicatePoints (a' :: rest')
     else a :: RemoveDuplicatePoints (a' :: rest')).
  destruct (Z.eqb_spec (Timestamp a) (Timestamp a')) as [Heq|Hne].
  - rewrite IH. unfold timestamps. rewrite !fmap_cons, !elem_of_cons. rewrite Heq.
    tauto.
  - unfold timestamps in *. rewrite !fmap_cons, elem_of_cons, IH.
    rewrite !fmap_cons, !elem_of_cons. tauto.
Qed.

Lemma RemoveDuplicatePoints_strict l :
  StronglySorted le_ts l → strictlyAscending (RemoveDuplicatePoints l).
Proof.
  unfold strictlyAscending.
  induction l as [|a rest IH]; [constructor|].
  destruct rest as [|a' rest']; [repeat constructor|].
  change (RemoveDuplicatePoints (a :: a' :: rest')) with
    (if Timestamp a =? Timestamp a'
     then RemoveDuplicatePoints (a' :: rest')
     else a :: RemoveDuplicatePoints (a' :: rest')).
  intros [Hall HS]%StronglySorted_cons.
  destruct (Z.eqb_spec (Timestamp a) (Timestamp a')) as [Heq|Hne]; [by apply IH|].
  unfold timestamps. rewrite fmap_cons. apply StronglySorted_cons.
  split; [|by apply IH].
  apply Forall_forall. intros t Ht.
  apply (RemoveDuplicatePoints_timestamps (a' :: rest') t) in Ht.
  unfold timestamps in Ht. apply list_elem_of_fmap in Ht as (p & -> & Hp).
  apply StronglySorted_cons in HS as [Hall' _].
  apply Forall_cons in Hall as [Ha' _]. unfold le_ts in *.
  apply elem_of_cons in Hp as [->|Hp]; [lia|].
  rewrite Forall_forall in Hall'. specialize (Hall' p Hp). lia.
Qed.

Lemma sortAndDedup_sound series :
  Labels (sortAndDedup series) = Labels series ∧
  strictlyAscending (Points (sortAndDedup series)) ∧
  (∀ t, t ∈ timestamps (Points (sortAndDedup series)) ↔
        t ∈ timestamps (Points series)) ∧
  (∀ p, p ∈ Points (sortAndDedup series) → p ∈ Points series).
Proof.
  unfold sortAndDedup. simpl. split; [done|]. split; [|split].
  - apply RemoveDuplicatePoints_strict, SortPoints_sorted.
  - intros t. rewrite RemoveDuplicatePoints_timestamps.
    unfold timestamps. by rewrite SortPoints_perm.
  - intros p Hp%RemoveDuplicatePoints_subset. by rewrite SortPoints_perm in Hp.
Qed.

Lemma seedCached_table X :
  distinctSignatures X →
  map_to_list (foldl seedCached ∅ X) ≡ₚ keyed <$> X.
Proof.
  unfold distinctSignatures.
  induction X as [|s X IH] using rev_ind; intros Hnd.
  - simpl. by rewrite map_to_list_empty.
  - rewrite fmap_app in Hnd. apply NoDup_app in Hnd as (HndX & Hfresh & _).
    rewrite foldl_app. simpl. unfold seedCached at 1.
    rewrite map_to_list_insert.
    + rewrite fmap_app. simpl. rewrite IH by done.
      by rewrite (Permutation_app_comm (keyed <$> X)).
    + apply eq_None_not_Some. intros [v Hv].
      apply elem_of_map_to_list in Hv. rewrite IH in Hv by done.
      apply list_elem_of_fmap in Hv as (s' & Heq & Hs'). apply (f_equal fst) in Heq as Hsig. unfold keyed in Hsig. cbn [fst] in Hsig.
      apply (Hfresh (signature s)).
      * rewrite Hsig. by apply list_elem_of_fmap_2.
      * simpl. left.
Qed.

Lemma addMissed_table X :
  distinctSignatures X →
  foldl addMissed ∅ X = foldl seedCached ∅ X.
Proof.
  unfold distinctSignatures.
  induction X as [|s X IH] using rev_ind; intros Hnd; [done|].
  rewrite fmap_app in Hnd. apply NoDup_app in Hnd as (HndX & Hfresh & _).
  rewrite !foldl_app. simpl. rewrite IH by done.
  unfold addMissed, seedCached at 2.
  destruct (foldl seedCached ∅ X !! signature s) as [found|] eqn:Hfound; [|done].
  exfalso. apply elem_of_map_to_list in Hfound.
  rewrite seedCached_table in Hfound by done.
  apply list_elem_of_fmap in Hfound as (s' & Heq & Hs'). apply (f_equal fst) in Heq as Hsig. unfold keyed in Hsig. cbn [fst] in Hsig.
  apply (Hfresh (signature s)).
  - rewrite Hsig. by apply list_elem_of_fmap_2.
  - simpl. left.
Qed.

Lemma mergeSerieses_cached_only X :
  distinctSignatures X → mergeSerieses X [] ≡ₚ sortAndDedup <$> X.
Proof.
  intros Hnd. unfold mergeSerieses. simpl.
  rewrite (seedCached_table X Hnd). rewrite <- list_fmap_compose.
  by rewrite (list_fmap_ext _ sortAndDedup X) by done.
Qed.

Lemma mergeSerieses_missed_only X :
  distinctSignatures X → mergeSerieses [] X ≡ₚ sortAndDedup <$> X.
Proof.
  intros Hnd. unfold mergeSerieses. simpl.
  rewrite (addMissed_table X Hnd), (seedCached_table X Hnd).
  rewrite <- list_fmap_compose.
  by rewrite (list_fmap_ext _ sortAndDedup X) by done.
Qed.

End MergerFacts.

Section CacheClaims.
Local Open Scope Z_scope.

(** C3.  When the cached payload cannot be deserialized, the method
    findMissingTimeRanges of the querier returns the single miss
    [start, end] and replace = true, for every window, every step and
    every clock reading; it returns a value: not an error, which its result
    has no place for, and not a panic.  An empty payload, the nil payload
    included, is such a payload. *)
Theorem undecodable_payload_is_full_miss env q wStart wEnd step now :
  (∀ cachedData,
     Unmarshal env cachedData = None →
     querier_findMissingTimeRanges env q wStart wEnd step cachedData now =
       Ret ([mkMiss wStart wEnd], true)) ∧
  querier_findMissingTimeRanges env q wStart wEnd step [] now =
    Ret ([mkMiss wStart wEnd], true).
Proof.
  assert (Hfull : ∀ cachedData,
            Unmarshal env cachedData = None →
            querier_findMissingTimeRanges env q wStart wEnd step cachedData now =
              Ret ([mkMiss wStart wEnd], true)).
  { intros cachedData Hbad. unfold querier_findMissingTimeRanges.
    by rewrite Hbad. }
  split; [exact Hfull|]. by apply Hfull.
Qed.

Lemma undecodable_payload_is_full_miss_witness :
  querier_findMissingTimeRanges (sampleEnv arrivalInOrder) (sampleQuerier (∅, None))
    100 200 60 [Byte.x7b] sampleNow =
    Ret ([mkMiss 100 200], true).
Proof.
  destruct (undecodable_payload_is_full_miss (sampleEnv arrivalInOrder)
              (sampleQuerier (∅, None)) 100 200 60 sampleNow) as [Hfull _].
  apply Hfull. reflexivity.
Defined.

(** C4, as amended.  For every series list X whose series have pairwise
    distinct label signatures, mergeSerieses(X, []) and mergeSerieses([], X)
    are both, up to the order of the series, X with the points of each
    series sorted by timestamp and stripped of duplicate timestamps: the
    labels are kept, the timestamps are strictly ascending, and the
    timestamps and the points come from the series. *)
Theorem mergeSerieses_with_nothing X :
  distinctSignatures X →
  mergeSerieses X [] ≡ₚ sortAndDedup <$> X ∧
  mergeSerieses [] X ≡ₚ sortAndDedup <$> X ∧
  ∀ series, series ∈ X →
    Labels (sortAndDedup series) = Labels series ∧
    strictlyAscending (Points (sortAndDedup series)) ∧
    (∀ t, t ∈ timestamps (Points (sortAndDedup series)) ↔
          t ∈ timestamps (Points series)) ∧
    (∀ p, p ∈ Points (sortAndDedup series) → p ∈ Points series).
Proof.
  intros Hnd. split; [by apply mergeSerieses_cached_only|].
  split; [by apply mergeSerieses_missed_only|].
  intros series _. apply sortAndDedup_sound.
Qed.

Lemma mergeSerieses_with_nothing_witness :
  mergeSerieses [sampleUnsorted; sampleTwoLabels] [] ≡ₚ
    [mkSeries {["host" := "h1"]} [mkPoint 10 2; mkPoint 20 4; mkPoint 30 3];
     sampleTwoLabels] ∧
  mergeSerieses [] [sampleUnsorted; sampleTwoLabels] ≡ₚ
    [mkSeries {["host" := "h1"]} [mkPoint 10 2; mkPoint 20 4; mkPoint 30 3];
     sampleTwoLabels].
Proof.
  destruct (mergeSerieses_with_nothing [sampleUnsorted; sampleTwoLabels])
    as (Hcached & Hmissed & _).
  - unfold distinctSignatures. apply (bool_decide_unpack _). by vm_compute.
  - split; [exact Hcached | exact Hmissed].
Defined.

(** C4 as stated fails.  The merge table has one entry per label
    signature.  When X holds two series under the same labels,
    mergeSerieses(X, []) keeps the later one only and mergeSerieses([], X)
    joins their points, so neither is X sorted and stripped and the two
    differ.  The same happens for two series with different label sets and
    the same signature. *)
Lemma mergeSerieses_same_signature :
  (mergeSerieses [sampleUnsorted; sampleSameHost] [] = [sampleSameHost] ∧
   mergeSerieses [] [sampleUnsorted; sampleSameHost] =
     [mkSeries {["host" := "h1"]}
        [mkPoint 10 2; mkPoint 20 4; mkPoint 30 3; mkPoint 40 5]] ∧
   ¬ (mergeSerieses [sampleUnsorted; sampleSameHost] [] ≡ₚ
        sortAndDedup <$> [sampleUnsorted; sampleSameHost]) ∧
   ¬ (mergeSerieses [] [sampleUnsorted; sampleSameHost] ≡ₚ
        sortAndDedup <$> [sampleUnsorted; sampleSameHost])) ∧
  (Labels sampleCommaValue ≠ Labels sampleTwoLabels ∧
   mergeSerieses [sampleCommaValue; sampleTwoLabels] [] = [sampleTwoLabels] ∧
   mergeSerieses [] [sampleCommaValue; sampleTwoLabels] =
     [mkSeries {["a" := "b,c=d"]} [mkPoint 1 1; mkPoint 2 2]] ∧
   ¬ (mergeSerieses [sampleCommaValue; sampleTwoLabels] [] ≡ₚ
        sortAndDedup <$> [sampleCommaValue; sampleTwoLabels]) ∧
   ¬ (mergeSerieses [] [sampleCommaValue; sampleTwoLabels] ≡ₚ
        sortAndDedup <$> [sampleCommaValue; sampleTwoLabels])).
Proof.
  split.
  - split; [by vm_compute|]. split; [by vm_compute|].
    split; intros Hperm; apply Permutation_length in Hperm;
      vm_compute in Hperm; discriminate.
  - split.
    { intros Heq. apply (f_equal (λ m : gmap string string, m !! "c")) in Heq.
      vm_compute in Heq. discriminate. }
    split; [by vm_compute|]. split; [by vm_compute|].
    split; intros Hperm; apply Permutation_length in Hperm;
      vm_compute in Hperm; discriminate.
Qed.

End CacheClaims.

(** ** Fan-out and fan-in *)

Section FanInFacts.

Lemma omapM_Forall2 {A B : Type} (f : A → outcome B) l bs :
  omapM f l = Ret bs ↔ Forall2 (λ a b, f a = Ret b) l bs.
Proof.
  revert bs. induction l as [|a l IH]; intros bs; simpl.
  - split.
    + intros [= <-]. constructor.
    + intros ->%Forall2_nil_inv_l. done.
  - split.
    + destruct (f a) as [b|] eqn:Hb; simpl; [|done].
      destruct (omapM f l) as [bs'|] eqn:Hbs; simpl; [|done].
      intros [= <-]. constructor; [done|]. by apply IH.
    + intros (b & bs' & Hb & Hbs & ->)%Forall2_cons_inv_l.
      rewrite Hb. simpl. apply IH in Hbs. rewrite Hbs. done.
Qed.

Lemma omapM_returns {A B : Type} (f : A → outcome B) l :
  Forall (λ a, ∃ b, f a = Ret b) l → ∃ bs, omapM f l = Ret bs.
Proof.
  induction 1 as [|a l [b Hb] _ [bs Hbs]]; simpl.
  - by eexists.
  - rewrite Hb. simpl. rewrite Hbs. by eexists.
Qed.

Lemma drainStep_foldl ch res m errs :
  foldl drainStep (res, m, errs) ch =
    (res ++ (seriesResult <$> List.filter succeeded ch),
     foldl tableStep m ch, errs ++ errorList ch).
Proof.
  revert res m errs. induction ch as [|r ch IH]; intros res m errs.
  - simpl. by rewrite !app_nil_r.
  - cbn [foldl List.filter]. unfold errorList, succeeded. cbn [omap list_omap].
    replace (drainStep (res, m, errs) r) with
      (match Err r with
       | Some e => (res, <[Name r := e]> m, errs ++ [e])
       | None => (res ++ [seriesResult r], m, errs)
       end) by done.
    unfold tableStep at 2.
    destruct (Err r) as [e|] eqn:He; rewrite IH; unfold errorList, succeeded;
      rewrite ?fmap_cons, <- ?app_assoc; done.
Qed.

Lemma drainRowsStep_foldl ch res m errs :
  foldl drainRowsStep (res, m, errs) ch =
    (res ++ (rowsResult <$> List.filter succeeded ch),
     foldl tableStep m ch, errs ++ errorList ch).
Proof.
  revert res m errs. induction ch as [|r ch IH]; intros res m errs.
  - simpl. by rewrite !app_nil_r.
  - cbn [foldl List.filter]. unfold errorList, succeeded. cbn [omap list_omap].
    replace (drainRowsStep (res, m, errs) r) with
      (match Err r with
       | Some e => (res, <[Name r := e]> m, errs ++ [e])
       | None => (res ++ [rowsResult r], m, errs)
       end) by done.
    unfold tableStep at 2.
    destruct (Err r) as [e|] eqn:He; rewrite IH; unfold errorList, succeeded;
      rewrite ?fmap_cons, <- ?app_assoc; done.
Qed.

Lemma drain_unfold failure ch :
  drain failure ch =
    (Some (seriesResult <$> List.filter succeeded ch), Some (errorTable ch),
     if decide (0 < length (errorList ch)) then Some failure else None).
Proof. unfold drain. by rewrite drainStep_foldl. Qed.

Lemma errorTable_snoc ch r : errorTable (ch ++ [r]) = tableStep (errorTable ch) r.
Proof. unfold errorTable. by rewrite foldl_app. Qed.

(** Every entry of the error map is the error of a failed unit. *)
Lemma errorTable_origin ch k e :
  errorTable ch !! k = Some e → ∃ r, r ∈ ch ∧ Name r = k ∧ Err r = Some e.
Proof.
  induction ch as [|r ch IH] using rev_ind.
  - unfold errorTable. simpl. by rewrite lookup_empty.
  - rewrite errorTable_snoc. unfold tableStep.
    destruct (Err r) as [e'|] eqn:He.
    + rewrite lookup_insert. case_decide as Hk.
      * intros [= <-]. exists r. rewrite elem_of_app, list_elem_of_singleton. auto.
      * intros (r' & ? & ? & ?)%IH. exists r'. rewrite elem_of_app. auto.
    + intros (r' & ? & ? & ?)%IH. exists r'. rewrite elem_of_app. auto.
Qed.

(** With one unit per name, the error of every failed unit is in the map. *)
Lemma errorTable_lookup ch r e :
  NoDup (Name <$> ch) → r ∈ ch → Err r = Some e →
  errorTable ch !! Name r = Some e.
Proof.
  induction ch as [|r' ch IH] using rev_ind; intros Hnd Hin He.
  - by apply elem_of_nil in Hin.
  - rewrite fmap_app in Hnd. apply NoDup_app in Hnd as (Hnd & Hfresh & _).
    rewrite errorTable_snoc. unfold tableStep.
    apply elem_of_app in Hin as [Hin|Hin];
      [|apply list_elem_of_singleton in Hin as ->].
    + assert (Name r' ≠ Name r) as Hne.
      { intros Heq. apply (Hfresh (Name r)); [by apply list_elem_of_fmap_2|].
        rewrite <- Heq. simpl. left. }
      destruct (Err r'); [rewrite lookup_insert_ne by done|]; by apply IH.
    + rewrite He. by rewrite lookup_insert_eq.
Qed.

Lemma errorList_nonempty ch r :
  r ∈ ch → is_Some (Err r) → 0 < length (errorList ch).
Proof.
  intros Hin [e He]. unfold errorList.
  assert (e ∈ omap Err ch) as Hmem by (apply list_elem_of_omap; eauto).
  destruct (omap Err ch); [by apply elem_of_nil in Hmem | simpl; lia].
Qed.

Lemma errorList_empty ch : Forall (λ r, Err r = None) ch → errorList ch = [].
Proof.
  induction 1 as [|r ch Hr _ IH]; [done|].
  unfold errorList in *. simpl. by rewrite Hr.
Qed.

Lemma errorTable_empty ch : Forall (λ r, Err r = None) ch → errorTable ch = ∅.
Proof.
  induction ch as [|r ch IH] using rev_ind; [done|].
  intros [Hch [Hr _]%Forall_cons]%Forall_app.
  rewrite errorTable_snoc. unfold tableStep. rewrite Hr. by apply IH.
Qed.

Lemma filter_succeeded_all ch :
  Forall (λ r, Err r = None) ch → List.filter succeeded ch = ch.
Proof.
  induction 1 as [|r ch Hr _ IH]; [done|].
  simpl. unfold succeeded at 1. rewrite Hr. by rewrite IH.
Qed.

End FanInFacts.

(** ** The orchestrator *)

Section OrchestratorFacts.

Lemma QueryRange_unfold env q params keys cq results errs err :
  CompositeQuery_ params = Some cq →
  dispatch env q params keys cq = Ret (results, errs, err) →
  QueryRange env q params keys =
    Ret (results, errs,
         if decide (PanelType_ cq = PanelTypeValue)
         then valuePanelCheck cq results err else err).
Proof.
  intros Hcq Hdispatch. unfold QueryRange. rewrite Hcq, Hdispatch. simpl.
  by case_decide.
Qed.

Lemma valuePanelCheck_keeps_failure cq results err :
  is_Some err → is_Some (valuePanelCheck cq results err).
Proof.
  intros Herr. unfold valuePanelCheck.
  repeat case_match; try done; by eexists.
Qed.

Lemma NoDup_fst_filter {A : Type} (f : string * A → bool) (l : list (string * A)) :
  NoDup l.*1 → NoDup (List.filter f l).*1.
Proof.
  induction l as [|kv l IH]; simpl; [done|].
  intros [Hnotin Hnd]%NoDup_cons. specialize (IH Hnd).
  destruct (f kv); [|done]. simpl. apply NoDup_cons. split; [|done].
  intros (kv' & Heq & Hin)%list_elem_of_fmap. apply Hnotin.
  apply list_elem_of_fmap. exists kv'. split; [done|].
  apply list_elem_of_In in Hin. apply List.filter_In in Hin as [Hin _].
  by apply list_elem_of_In.
Qed.

Lemma enabledClickHouse_elem cq name chq :
  (name, chq) ∈ enabledClickHouseQueries cq ↔
  ClickHouseQueries cq !! name = Some chq ∧ ClickHouseQuery_Disabled chq = false.
Proof.
  unfold enabledClickHouseQueries.
  rewrite list_elem_of_In, List.filter_In, <- list_elem_of_In, elem_of_map_to_list.
  simpl. by rewrite negb_true_iff.
Qed.

Lemma enabledClickHouse_NoDup cq : NoDup (enabledClickHouseQueries cq).*1.
Proof. apply NoDup_fst_filter, NoDup_fst_map_to_list. Qed.

Lemma enabledProm_elem cq name pq :
  (name, pq) ∈ enabledPromQueries cq ↔
  PromQueries cq !! name = Some pq ∧ PromQuery_Disabled pq = false.
Proof.
  unfold enabledPromQueries.
  rewrite list_elem_of_In, List.filter_In, <- list_elem_of_In, elem_of_map_to_list.
  simpl. by rewrite negb_true_iff.
Qed.

Lemma enabledProm_NoDup cq : NoDup (enabledPromQueries cq).*1.
Proof. apply NoDup_fst_filter, NoDup_fst_map_to_list. Qed.

Lemma clickHouseUnit_returns q name chq series err :
  execClickHouseQuery q (ClickHouseQuery_Query chq) = Ret (series, err) →
  clickHouseUnit q name chq =
    Ret (mkChannelResult series [] err name (ClickHouseQuery_Query chq)).
Proof. intros Hexec. unfold clickHouseUnit. by rewrite Hexec. Qed.

Lemma clickHouseUnit_inv q name chq r :
  clickHouseUnit q name chq = Ret r →
  Name r = name ∧
  execClickHouseQuery q (ClickHouseQuery_Query chq) = Ret (Series_ r, Err r).
Proof.
  unfold clickHouseUnit.
  destruct (execClickHouseQuery q (ClickHouseQuery_Query chq)) as [[s e]|];
    simpl; [|done].
  by intros [= <-].
Qed.

(** The units of sub-queries that all succeed fill the channel with one
    successful result each. *)
Lemma clickHouse_successes q (units : list (string * ClickHouseQuery)) :
  (∀ name chq, (name, chq) ∈ units →
     ∃ series, execClickHouseQuery q (ClickHouseQuery_Query chq) = Ret (series, None)) →
  ∃ ch,
    omapM (λ kv, clickHouseUnit q kv.1 kv.2) units = Ret ch ∧
    Forall (λ r, Err r = None) ch ∧
    Name <$> ch = units.*1.
Proof.
  induction units as [|[name chq] units IH]; intros Hall.
  - exists []. by repeat split.
  - destruct (Hall name chq) as [series Hs]; [left|].
    destruct IH as (ch & Hch & Hok & Hnames).
    { intros n c Hin. apply (Hall n c). by right. }
    exists (mkChannelResult series [] None name (ClickHouseQuery_Query chq) :: ch).
    split; [|split].
    + simpl. rewrite (clickHouseUnit_returns _ _ _ _ _ Hs). simpl. by rewrite Hch.
    + by constructor.
    + by rewrite !fmap_cons, Hnames.
Qed.

Lemma omapM_app {A B : Type} (f : A → outcome B) l1 l2 bs1 bs2 :
  omapM f l1 = Ret bs1 → omapM f l2 = Ret bs2 →
  omapM f (l1 ++ l2) = Ret (bs1 ++ bs2).
Proof.
  rewrite !omapM_Forall2. apply Forall2_app.
Qed.

Lemma tableStep_successes m ch :
  Forall (λ r, Err r = None) ch → foldl tableStep m ch = m.
Proof.
  induction 1 as [|r ch Hr _ IH]; [done|].
  simpl. unfold tableStep at 2. by rewrite Hr.
Qed.

End OrchestratorFacts.

Section FanOutClaims.

(** C5.  For a ClickHouseSQL request in which the enabled sub-query K
    fails and every other enabled sub-query succeeds, QueryRange returns one
    result for each enabled sub-query other than K (N-1 results for N
    enabled sub-queries), each with the series of its sub-query, an error
    map whose only entry is K with its error, and a non-nil error, whatever
    the order in which the units finish. *)
Theorem clickhouse_single_failure env q params keys cq K chK seriesK errK :
  CompositeQuery_ params = Some cq →
  QueryType_ cq = QueryTypeClickHouseSQL →
  ClickHouseQueries cq !! K = Some chK →
  ClickHouseQuery_Disabled chK = false →
  execClickHouseQuery q (ClickHouseQuery_Query chK) = Ret (seriesK, Some errK) →
  (∀ name chq,
     name ≠ K → ClickHouseQueries cq !! name = Some chq →
     ClickHouseQuery_Disabled chq = false →
     ∃ series, execClickHouseQuery q (ClickHouseQuery_Query chq) = Ret (series, None)) →
  ∃ results err,
    QueryRange env q params keys = Ret (Some results, Some {[K := errK]}, Some err) ∧
    S (length results) = EnabledQueries cq ∧
    K :: (QueryName <$> results) ≡ₚ (enabledClickHouseQueries cq).*1 ∧
    ∀ r, r ∈ results →
      ∃ chq, ClickHouseQueries cq !! QueryName r = Some chq ∧
             ClickHouseQuery_Disabled chq = false ∧
             execClickHouseQuery q (ClickHouseQuery_Query chq) =
               Ret (Result_Series r, None).
Proof.
  intros Hcq Hty HK HKen HKfail Hothers.
  pose proof (arrange_perm (scheduler env) _ (enabledClickHouseQueries cq)) as Hperm.
  set (units := arrange (scheduler env) _ (enabledClickHouseQueries cq)) in *.
  assert (Hnd : NoDup units.*1) by (rewrite Hperm; apply enabledClickHouse_NoDup).
  assert (HKin : (K, chK) ∈ units) by (rewrite Hperm; by apply enabledClickHouse_elem).
  apply list_elem_of_split in HKin as (u1 & u2 & Hunits).
  rewrite Hunits, fmap_app, fmap_cons in Hnd.
  apply NoDup_app in Hnd as (_ & Hfresh1 & [Hfresh2 _]%NoDup_cons).
  assert (Hin : ∀ name chq, (name, chq) ∈ u1 ++ u2 →
            name ≠ K ∧ ClickHouseQueries cq !! name = Some chq ∧
            ClickHouseQuery_Disabled chq = false).
  { intros name chq Hmem. split.
    - intros ->. apply elem_of_app in Hmem as [Hmem|Hmem].
      + apply (Hfresh1 K); [by apply (list_elem_of_fmap_2 fst _ (K, chq))|left].
      + apply Hfresh2. by apply (list_elem_of_fmap_2 fst _ (K, chq)).
    - apply enabledClickHouse_elem. rewrite <- Hperm, Hunits.
      rewrite elem_of_app, elem_of_cons. rewrite elem_of_app in Hmem. tauto. }
  destruct (clickHouse_successes q u1) as (c1 & Hc1 & Hok1 & Hn1).
  { intros name chq Hmem. destruct (Hin name chq) as (? & ? & ?); [|by eauto].
    apply elem_of_app. by left. }
  destruct (clickHouse_successes q u2) as (c2 & Hc2 & Hok2 & Hn2).
  { intros name chq Hmem. destruct (Hin name chq) as (? & ? & ?); [|by eauto].
    apply elem_of_app. by right. }
  set (rK := mkChannelResult seriesK [] (Some errK) K (ClickHouseQuery_Query chK)).
  assert (Hch : fanOutClickHouse env q cq = Ret (c1 ++ rK :: c2)).
  { unfold fanOutClickHouse. fold units. rewrite Hunits.
    apply omapM_app; [done|]. simpl.
    rewrite (clickHouseUnit_returns _ _ _ _ _ HKfail). simpl. by rewrite Hc2. }
  assert (Hdispatch : dispatch env q params keys cq =
            Ret (Some (seriesResult <$> (c1 ++ c2)), Some {[K := errK]},
                 Some ErrInClickHouseQueries)).
  { unfold dispatch. rewrite Hty. unfold runClickHouseQueries. rewrite Hcq, Hch.
    simpl. rewrite drain_unfold. f_equal. f_equal; [f_equal|].
    - f_equal. f_equal. rewrite !List.filter_app. simpl.
      by rewrite !filter_succeeded_all.
    - f_equal. unfold errorTable. rewrite foldl_app. simpl.
      rewrite (tableStep_successes ∅ c1) by done.
      rewrite tableStep_successes by done. done.
    - unfold errorList. rewrite omap_app. simpl.
      fold (errorList c1). fold (errorList c2).
      rewrite !errorList_empty by done. done. }
  destruct (valuePanelCheck_keeps_failure cq
              (Some (seriesResult <$> (c1 ++ c2))) (Some ErrInClickHouseQueries))
    as [e He]; [by eexists|].
  exists (seriesResult <$> (c1 ++ c2)),
    (if decide (PanelType_ cq = PanelTypeValue) then e else ErrInClickHouseQueries).
  split.
  { rewrite (QueryRange_unfold _ _ _ _ _ _ _ _ Hcq Hdispatch).
    case_decide; [rewrite He|]; reflexivity. }
  assert (Hnames : QueryName <$> (seriesResult <$> (c1 ++ c2)) = (u1 ++ u2).*1).
  { rewrite <- list_fmap_compose, !fmap_app, <- Hn1, <- Hn2. done. }
  split; [|split].
  - unfold EnabledQueries. rewrite Hty. fold (enabledClickHouseQueries cq).
    rewrite <- Hperm, Hunits, <- (length_fmap QueryName), Hnames.
    rewrite length_fmap, !length_app. simpl. lia.
  - rewrite Hnames, <- Hperm, Hunits, !fmap_app, fmap_cons. simpl.
    apply Permutation_middle.
  - intros r Hr. apply list_elem_of_fmap in Hr as (c & -> & Hc).
    assert (Hunit : ∃ kv, kv ∈ u1 ++ u2 ∧ clickHouseUnit q kv.1 kv.2 = Ret c).
    { apply omapM_Forall2 in Hc1, Hc2.
      pose proof (Forall2_app Hc1 Hc2) as Hall.
      apply list_elem_of_lookup in Hc as [i Hi].
      destruct (Forall2_lookup_r _ _ _ _ _ Hall Hi) as (kv & Hkv & Hret).
      exists kv. split; [|done]. apply list_elem_of_lookup. eauto. }
    destruct Hunit as ([name chq] & Hmem & Hret).
    apply clickHouseUnit_inv in Hret as [Hname Hexec]. simpl in *.
    destruct (Hin name chq Hmem) as (Hne & Hlook & Hen).
    destruct (Hothers name chq Hne Hlook Hen) as [series Hseries].
    exists chq. rewrite Hname. split; [done|]. split; [done|].
    rewrite Hexec in Hseries. injection Hseries as _ Hnone.
    rewrite Hexec. by rewrite Hnone.
Qed.

Lemma clickhouse_single_failure_witness :
  ∃ results err,
    QueryRange (sampleEnv arrivalReversed) (sampleQuerier (∅, None))
      (sampleClickHouseRequest sampleThreeQueries PanelTypeGraph) ∅ =
      Ret (Some results, Some {["A" := sampleTimeout]}, Some err) ∧
    length results = 2.
Proof.
  destruct (clickhouse_single_failure (sampleEnv arrivalReversed)
              (sampleQuerier (∅, None))
              (sampleClickHouseRequest sampleThreeQueries PanelTypeGraph) ∅
              (mkCompositeQuery ∅ sampleThreeQueries ∅ PanelTypeGraph
                 QueryTypeClickHouseSQL)
              "A" (mkClickHouseQuery "bad" false) [] sampleTimeout)
    as (results & err & Hret & Hlen & _).
  - reflexivity.
  - reflexivity.
  - reflexivity.
  - reflexivity.
  - reflexivity.
  - intros name chq Hne Hlook _. simpl in Hlook. unfold sampleThreeQueries in Hlook.
    rewrite !lookup_insert_Some, lookup_empty in Hlook.
    destruct Hlook as [[? _]|[_ [[_ <-]|[_ [[_ <-]|[_ ?]]]]]];
      [done | by eexists | by eexists | done].
  - exists results, err. split; [exact Hret|].
    vm_compute in Hlen. by injection Hlen.
Defined.

End FanOutClaims.

Section ExecutorClaims.
Local Open Scope Z_scope.

Lemma filter_sublist {A : Type} (f : A → bool) (l : list A) :
  sublist (List.filter f l) l.
Proof.
  induction l as [|a l IH]; simpl; [constructor|].
  destruct (f a); by constructor.
Qed.

Lemma keepNonNegative_sound series :
  Labels (keepNonNegative series) = Labels series ∧
  (∀ p, p ∈ Points (keepNonNegative series) ↔
        p ∈ Points series ∧ 0 ≤ Timestamp p) ∧
  sublist (Points (keepNonNegative series)) (Points series).
Proof.
  unfold keepNonNegative. simpl. split; [done|]. split.
  - intros p. rewrite !list_elem_of_In, List.filter_In. by rewrite Z.leb_le.
  - apply filter_sublist.
Qed.

(** C9.  A ClickHouse query run by the reader returns the series of the
    reader, each with its labels and with exactly its points of timestamp
    zero or more, in their order; the error returned is the error of the
    reader, so the removal never makes the query fail.  A series with
    points at -5 and 10 comes back with the point at 10 alone. *)
Theorem execClickHouseQuery_drops_negative q rd query :
  reader q = Some rd →
  execClickHouseQuery q query =
    Ret (keepNonNegative <$> (GetTimeSeriesResultV3 rd query).1,
         (GetTimeSeriesResultV3 rd query).2) ∧
  (∀ series,
     Labels (keepNonNegative series) = Labels series ∧
     (∀ p, p ∈ Points (keepNonNegative series) ↔
           p ∈ Points series ∧ 0 ≤ Timestamp p) ∧
     sublist (Points (keepNonNegative series)) (Points series)) ∧
  (∀ labels v1 v2,
     keepNonNegative (mkSeries labels [mkPoint (-5) v1; mkPoint 10 v2]) =
       mkSeries labels [mkPoint 10 v2]).
Proof.
  intros Hrd. split; [|split].
  - unfold execClickHouseQuery. rewrite Hrd.
    by destruct (GetTimeSeriesResultV3 rd query).
  - apply keepNonNegative_sound.
  - done.
Qed.

Lemma execClickHouseQuery_drops_negative_witness :
  execClickHouseQuery (sampleQuerier (∅, None)) "select 1" =
    Ret ([mkSeries ∅ [mkPoint 10 2]], None).
Proof.
  destruct (execClickHouseQuery_drops_negative (sampleQuerier (∅, None))
              sampleReader "select 1") as [Hexec _].
  - reflexivity.
  - exact Hexec.
Defined.

End ExecutorClaims.

Section OrchestratorClaims.

Lemma promUnit_name env q params cacheKeys name promQuery r :
  promUnit env q params cacheKeys name promQuery = Ret r → Name r = name.
Proof.
  unfold promUnit.
  destruct (querier_findMissingTimeRanges _ _ _ _ _ _ _) as [[misses replace]|];
    simpl; [|done].
  destruct (fetchMisses _ _ _ _ _ _) as [[[e text]|missed]|]; simpl; [| |done].
  - by intros [= <-].
  - destruct (derefSerieses _) as [cached|]; simpl; [|done].
    by intros [= <-].
Qed.

Lemma fanOut_names {A : Type} (unit : string → A → outcome channelResult)
    (units : list (string * A)) ch :
  (∀ name a r, unit name a = Ret r → Name r = name) →
  omapM (λ kv, unit kv.1 kv.2) units = Ret ch →
  Name <$> ch = units.*1.
Proof.
  intros Hname Hch. apply omapM_Forall2 in Hch.
  induction Hch as [|[name a] r units ch Hr _ IH]; [done|].
  rewrite !fmap_cons, IH. simpl. f_equal. by eapply Hname.
Qed.

Lemma fanOut_elem {A : Type} (unit : string → A → outcome channelResult)
    (units : list (string * A)) ch name a r :
  omapM (λ kv, unit kv.1 kv.2) units = Ret ch →
  (name, a) ∈ units → unit name a = Ret r → r ∈ ch.
Proof.
  intros Hch Hin Hr. apply omapM_Forall2 in Hch.
  apply list_elem_of_lookup in Hin as [i Hi].
  destruct (Forall2_lookup_l _ _ _ _ _ Hch Hi) as (r' & Hr' & Hret).
  simpl in Hret. rewrite Hr in Hret. injection Hret as <-.
  apply list_elem_of_lookup. eauto.
Qed.

Lemma keepResourceLimitErrors_lookup env (m : gmap string error) name e :
  filter (λ kv : string * error, IsResourceLimitError env kv.2 = true) m !! name
    = Some e ↔
  m !! name = Some e ∧ IsResourceLimitError env e = true.
Proof. by rewrite map_lookup_filter_Some. Qed.

Lemma drain_error_forced failure ch r :
  r ∈ ch → is_Some (Err r) → (drain failure ch).2 = Some failure.
Proof.
  intros Hin Herr. rewrite drain_unfold. simpl.
  pose proof (errorList_nonempty ch r Hin Herr).
  by case_decide.
Qed.

(** C6, as amended.  On both Builder paths, the series path and the row
    path, the error map returned by QueryRange is the map of the executor
    with every error that is not a resource-limit error removed, and an
    error of the executor still gives a non-nil overall error; on the
    series path the failure of any unit gives a non-nil overall error.  On
    the PromQL and ClickHouseSQL paths the map is not filtered: the error of
    every failed sub-query is in the returned map, under its name. *)
Theorem error_exposure env q params keys cq :
  CompositeQuery_ params = Some cq →
  (QueryType_ cq = QueryTypeBuilder →
   ∀ results errs err,
     (if decide (PanelType_ cq = PanelTypeList ∨ PanelType_ cq = PanelTypeTrace)
      then runBuilderListQueries env q params keys
      else runBuilderQueries env q params keys) = Ret (results, errs, err) →
     ∃ err',
       QueryRange env q params keys =
         Ret (results, keepResourceLimitErrors env errs, err') ∧
       (is_Some err → is_Some err') ∧
       ∀ kept name e,
         keepResourceLimitErrors env errs = Some kept →
         (kept !! name = Some e ↔
          (∃ m, errs = Some m ∧ m !! name = Some e) ∧
          IsResourceLimitError env e = true)) ∧
  (QueryType_ cq = QueryTypeBuilder →
   ¬ (PanelType_ cq = PanelTypeList ∨ PanelType_ cq = PanelTypeTrace) →
   ∀ ch, fanOutBuilder env q params keys cq = Ret ch →
     ∃ results err',
       QueryRange env q params keys =
         Ret (Some results,
              keepResourceLimitErrors env (Some (errorTable ch)), err') ∧
       ((∃ r, r ∈ ch ∧ is_Some (Err r)) → is_Some err')) ∧
  (QueryType_ cq = QueryTypePromQL →
   ∀ ch, fanOutProm env q params cq = Ret ch →
     ∃ results err',
       QueryRange env q params keys =
         Ret (Some results, Some (errorTable ch), err') ∧
       ∀ name promQuery r e,
         PromQueries cq !! name = Some promQuery →
         PromQuery_Disabled promQuery = false →
         promUnit env q params (GenerateKeys (keyGenerator q) params)
           name promQuery = Ret r →
         Err r = Some e →
         errorTable ch !! name = Some e) ∧
  (QueryType_ cq = QueryTypeClickHouseSQL →
   ∀ ch, fanOutClickHouse env q cq = Ret ch →
     ∃ results err',
       QueryRange env q params keys =
         Ret (Some results, Some (errorTable ch), err') ∧
       ∀ name chq series e,
         ClickHouseQueries cq !! name = Some chq →
         ClickHouseQuery_Disabled chq = false →
         execClickHouseQuery q (ClickHouseQuery_Query chq) = Ret (series, Some e) →
         errorTable ch !! name = Some e).
Proof.
  intros Hcq. split; [|split; [|split]].
  - intros Hty results errs err Hrun.
    assert (Hdispatch : dispatch env q params keys cq =
              Ret (results, keepResourceLimitErrors env errs, err)).
    { unfold dispatch. rewrite Hty, Hrun. done. }
    rewrite (QueryRange_unfold _ _ _ _ _ _ _ _ Hcq Hdispatch).
    eexists. split; [done|]. split.
    + intros Herr. destruct (decide (PanelType_ cq = PanelTypeValue));
        [by apply valuePanelCheck_keeps_failure|done].
    + intros kept name e Hkept. destruct errs as [m|]; [|done].
      simpl in Hkept. injection Hkept as <-.
      rewrite keepResourceLimitErrors_lookup. split.
      * intros [? ?]. split; [by exists m|done].
      * intros [(m' & [= <-] & ?) ?]. done.
  - intros Hty Hseries ch Hch.
    assert (Hdispatch : dispatch env q params keys cq =
              Ret ((drain ErrInBuilderQueries ch).1.1,
                   keepResourceLimitErrors env (drain ErrInBuilderQueries ch).1.2,
                   (drain ErrInBuilderQueries ch).2)).
    { unfold dispatch. rewrite Hty. rewrite decide_False by done.
      unfold runBuilderQueries. rewrite Hcq, Hch. simpl.
      by destruct (drain ErrInBuilderQueries ch) as [[? ?] ?]. }
    rewrite (QueryRange_unfold _ _ _ _ _ _ _ _ Hcq Hdispatch).
    rewrite drain_unfold. simpl. eexists _, _. split; [done|].
    intros (r & Hin & Herr).
    pose proof (errorList_nonempty ch r Hin Herr).
    rewrite (decide_True (P := (0 < length (errorList ch))%nat)) by done.
    destruct (decide (PanelType_ cq = PanelTypeValue));
        [by apply valuePanelCheck_keeps_failure|done].
  - intros Hty ch Hch.
    assert (Hdispatch : dispatch env q params keys cq =
              Ret (drain ErrInPromQueries ch)).
    { unfold dispatch. rewrite Hty. unfold runPromQueries. by rewrite Hcq, Hch. }
    rewrite drain_unfold in Hdispatch.
    rewrite (QueryRange_unfold _ _ _ _ _ _ _ _ Hcq Hdispatch).
    eexists _, _. split; [done|].
    intros name promQuery r e Hlook Hen Hunit Herr.
    unfold fanOutProm in Hch.
    pose proof (arrange_perm (scheduler env) _ (enabledPromQueries cq)) as Hperm.
    assert (Hnames : Name <$> ch =
              (arrange (scheduler env) _ (enabledPromQueries cq)).*1).
    { apply (fanOut_names (promUnit env q params
               (GenerateKeys (keyGenerator q) params)) _ _
               (promUnit_name env q params _) Hch). }
    assert (Hin : r ∈ ch).
    { eapply (fanOut_elem (promUnit env q params
               (GenerateKeys (keyGenerator q) params))); [exact Hch| |exact Hunit].
      rewrite Hperm. by apply enabledProm_elem. }
    rewrite <- (promUnit_name _ _ _ _ _ _ _ Hunit).
    apply errorTable_lookup; [|done|done].
    rewrite Hnames, Hperm. apply enabledProm_NoDup.
  - intros Hty ch Hch.
    assert (Hdispatch : dispatch env q params keys cq =
              Ret (drain ErrInClickHouseQueries ch)).
    { unfold dispatch. rewrite Hty. unfold runClickHouseQueries. by rewrite Hcq, Hch. }
    rewrite drain_unfold in Hdispatch.
    rewrite (QueryRange_unfold _ _ _ _ _ _ _ _ Hcq Hdispatch).
    eexists _, _. split; [done|].
    intros name chq series e Hlook Hen Hexec.
    unfold fanOutClickHouse in Hch.
    pose proof (arrange_perm (scheduler env) _ (enabledClickHouseQueries cq)) as Hperm.
    assert (Hnames : Name <$> ch =
              (arrange (scheduler env) _ (enabledClickHouseQueries cq)).*1).
    { apply (fanOut_names (clickHouseUnit q) _ _
               (λ n a r H, proj1 (clickHouseUnit_inv q n a r H)) Hch). }
    pose proof (clickHouseUnit_returns q name chq series (Some e) Hexec) as Hunit.
    assert (Hin : mkChannelResult series [] (Some e) name
                    (ClickHouseQuery_Query chq) ∈ ch).
    { eapply (fanOut_elem (clickHouseUnit q)); [exact Hch| |exact Hunit].
      rewrite Hperm. by apply enabledClickHouse_elem. }
    apply (errorTable_lookup ch _ e) in Hin; [done| |done].
    rewrite Hnames, Hperm. apply enabledClickHouse_NoDup.
Qed.

Lemma error_exposure_witness :
  ∃ err',
    QueryRange (sampleEnv arrivalInOrder) (sampleQuerier ({["A" := "bad"]}, None))
      sampleListRequest ∅ = Ret (None, Some ∅, err').
Proof.
  destruct (error_exposure (sampleEnv arrivalInOrder)
              (sampleQuerier ({["A" := "bad"]}, None)) sampleListRequest ∅
              (mkCompositeQuery ∅ ∅ ∅ PanelTypeList QueryTypeBuilder) eq_refl)
    as [Hbuilder _].
  destruct (Hbuilder eq_refl None
              (Some {["A" := ErrInQuery "A" sampleTimeout]})
              (Some (ErrMultiple [ErrInQuery "A" sampleTimeout])))
    as (err' & Hret & _).
  - by vm_compute.
  - exists err'. exact Hret.
Defined.

(** C6 as stated fails: the filter is not kept to the series path.  On the
    row path of a Builder request the executor returns the error of the
    failed sub-query "A" in its map, and QueryRange returns the map
    without it, the error not being a resource-limit error. *)
Lemma row_path_errors_are_filtered :
  runBuilderListQueries (sampleEnv arrivalInOrder)
    (sampleQuerier ({["A" := "bad"]}, None)) sampleListRequest ∅ =
    Ret (None, Some {["A" := ErrInQuery "A" sampleTimeout]},
         Some (ErrMultiple [ErrInQuery "A" sampleTimeout])) ∧
  QueryRange (sampleEnv arrivalInOrder)
    (sampleQuerier ({["A" := "bad"]}, None)) sampleListRequest ∅ =
    Ret (None, Some ∅, Some (ErrMultiple [ErrInQuery "A" sampleTimeout])).
Proof. split; by vm_compute. Qed.

(** C7, as amended.  For a request with panelType = Value whose dispatch
    returns: if more than one result was collected and more than one
    sub-query is enabled, QueryRange returns the error "only one active
    query"; if exactly one result was collected and it has more than one
    series, QueryRange returns the error "only one result series";
    otherwise the error of the dispatch is returned as it is.  In
    particular a Value-panel ClickHouseSQL request with two or more enabled
    sub-queries that all succeed yields the error "only one active
    query". *)
Theorem value_panel_rule env q params keys cq :
  CompositeQuery_ params = Some cq →
  PanelType_ cq = PanelTypeValue →
  (∀ results errs err,
     dispatch env q params keys cq = Ret (results, errs, err) →
     ∃ err',
       QueryRange env q params keys = Ret (results, errs, err') ∧
       (1 < len results → 1 < EnabledQueries cq →
        err' = Some ErrOnlyOneActiveQuery) ∧
       (∀ result, results = Some [result] → 1 < length (Result_Series result) →
        err' = Some (ErrOnlyOneResultSeries (length (Result_Series result)))) ∧
       (len results ≤ 1 ∨ EnabledQueries cq ≤ 1 →
        (∀ result, results = Some [result] → length (Result_Series result) ≤ 1) →
        err' = err)) ∧
  (QueryType_ cq = QueryTypeClickHouseSQL →
   2 ≤ EnabledQueries cq →
   (∀ name chq,
      ClickHouseQueries cq !! name = Some chq →
      ClickHouseQuery_Disabled chq = false →
      ∃ series, execClickHouseQuery q (ClickHouseQuery_Query chq) = Ret (series, None)) →
   ∃ results,
     QueryRange env q params keys =
       Ret (Some results, Some ∅, Some ErrOnlyOneActiveQuery) ∧
     length results = EnabledQueries cq).
Proof.
  intros Hcq Hpanel. split.
  - intros results errs err Hdispatch.
    rewrite (QueryRange_unfold _ _ _ _ _ _ _ _ Hcq Hdispatch).
    rewrite decide_True by done. eexists. split; [done|].
    unfold valuePanelCheck. split; [|split].
    + intros H1 H2. by rewrite decide_True.
    + intros result -> Hlen. rewrite decide_False by (unfold len; simpl; lia).
      by rewrite decide_True.
    + intros Hfew Hone. rewrite decide_False by lia.
      destruct results as [[|result [|? ?]]|]; try done.
      rewrite decide_False; [done|]. specialize (Hone result eq_refl). lia.
  - intros Hty Hmany Hall.
    pose proof (arrange_perm (scheduler env) _ (enabledClickHouseQueries cq)) as Hperm.
    destruct (clickHouse_successes q
                (arrange (scheduler env) _ (enabledClickHouseQueries cq)))
      as (ch & Hch & Hok & Hnames).
    { intros name chq Hin. rewrite Hperm in Hin.
      apply enabledClickHouse_elem in Hin as [? ?]. eauto. }
    assert (Hlen : length ch = EnabledQueries cq).
    { unfold EnabledQueries. rewrite Hty. fold (enabledClickHouseQueries cq).
      rewrite <- Hperm, <- (length_fmap Name), Hnames. by rewrite length_fmap. }
    assert (Hdispatch : dispatch env q params keys cq =
              Ret (Some (seriesResult <$> ch), Some ∅, None)).
    { unfold dispatch. rewrite Hty. unfold runClickHouseQueries, fanOutClickHouse.
      rewrite Hcq, Hch. simpl. rewrite drain_unfold.
      rewrite filter_succeeded_all, errorTable_empty, errorList_empty by done.
      done. }
    exists (seriesResult <$> ch).
    rewrite (QueryRange_unfold _ _ _ _ _ _ _ _ Hcq Hdispatch).
    rewrite decide_True by done. unfold valuePanelCheck.
    rewrite decide_True by (unfold len; simpl; rewrite length_fmap; lia).
    split; [done|]. by rewrite length_fmap.
Qed.

Lemma value_panel_rule_witness :
  ∃ results,
    QueryRange (sampleEnv arrivalInOrder) (sampleQuerier (∅, None))
      (sampleClickHouseRequest sampleTwoGoodQueries PanelTypeValue) ∅ =
      Ret (Some results, Some ∅, Some ErrOnlyOneActiveQuery) ∧
    length results = 2%nat.
Proof.
  destruct (value_panel_rule (sampleEnv arrivalInOrder) (sampleQuerier (∅, None))
              (sampleClickHouseRequest sampleTwoGoodQueries PanelTypeValue) ∅
              (mkCompositeQuery ∅ sampleTwoGoodQueries ∅ PanelTypeValue
                 QueryTypeClickHouseSQL) eq_refl eq_refl) as [_ Hmany].
  destruct Hmany as (results & Hret & Hlen).
  - reflexivity.
  - vm_compute. lia.
  - intros name chq Hlook _. simpl in Hlook. unfold sampleTwoGoodQueries in Hlook.
    rewrite !lookup_insert_Some, lookup_empty in Hlook.
    destruct Hlook as [[_ <-]|[_ [[_ <-]|[_ ?]]]]; [by eexists | by eexists | done].
  - exists results. split; [exact Hret|]. rewrite Hlen. by vm_compute.
Defined.

(** C7 as stated fails.  A Value-panel request with two enabled
    sub-queries of which one fails collects a single result with a single
    series: the error returned is the error of the executor, not one of the
    two errors of the Value-panel check. *)
Lemma value_panel_backend_error :
  EnabledQueries (mkCompositeQuery ∅ sampleTwoQueries ∅ PanelTypeValue
                    QueryTypeClickHouseSQL) = 2%nat ∧
  QueryRange (sampleEnv arrivalInOrder) (sampleQuerier (∅, None))
    (sampleClickHouseRequest sampleTwoQueries PanelTypeValue) ∅ =
    Ret (Some [mkResult "B" [mkSeries ∅ [mkPoint 10 2]] []],
         Some {["A" := sampleTimeout]}, Some ErrInClickHouseQueries) ∧
  isValidationError ErrInClickHouseQueries = false.
Proof. split; [by vm_compute|]. split; [by vm_compute|done]. Qed.

(** C8.  On the row path of the Builder executor: when the translation of
    the sub-queries fails, the call returns no results, no error map and
    the translation error, whatever the reader (no unit is started); when
    the units have run and one of them failed, the call returns a nil
    result list, the map of the errors by name and the combined error of
    all failures.  A non-nil error never comes with results, from
    runBuilderListQueries as from QueryRange. *)
Theorem row_path_all_or_nothing env q params keys :
  (∀ queries e,
     PrepareQueries (builder q) params keys = (queries, Some e) →
     runBuilderListQueries env q params keys = Ret (None, None, Some e)) ∧
  (∀ queries ch r,
     PrepareQueries (builder q) params keys = (queries, None) →
     fanOutList env q queries = Ret ch →
     r ∈ ch → is_Some (Err r) →
     runBuilderListQueries env q params keys =
       Ret (None, Some (errorTable ch), Some (ErrMultiple (errorList ch))) ∧
     errorList ch ≠ []) ∧
  (∀ results errs err,
     runBuilderListQueries env q params keys = Ret (results, errs, err) →
     is_Some err → results = None) ∧
  (∀ cq results errs err,
     CompositeQuery_ params = Some cq →
     QueryType_ cq = QueryTypeBuilder →
     PanelType_ cq = PanelTypeList ∨ PanelType_ cq = PanelTypeTrace →
     runBuilderListQueries env q params keys = Ret (results, errs, err) →
     QueryRange env q params keys =
       Ret (results, keepResourceLimitErrors env errs, err) ∧
     (is_Some err → results = None)).
Proof.
  assert (Hnone : ∀ results errs err,
            runBuilderListQueries env q params keys = Ret (results, errs, err) →
            is_Some err → results = None).
  { intros results errs err. unfold runBuilderListQueries.
    destruct (PrepareQueries (builder q) params keys) as [queries [e|]].
    - by intros [= <- _ _].
    - destruct (fanOutList env q queries) as [ch|]; simpl; [|done].
      rewrite drainRowsStep_foldl. case_decide.
      + by intros [= <- _ _].
      + intros [= _ _ <-] [? ?]. done. }
  split; [|split; [|split]].
  - intros queries e Hprep. unfold runBuilderListQueries. by rewrite Hprep.
  - intros queries ch r Hprep Hch Hin Herr.
    pose proof (errorList_nonempty ch r Hin Herr) as Hlen.
    unfold runBuilderListQueries. rewrite Hprep, Hch. simpl.
    rewrite drainRowsStep_foldl. simpl.
    rewrite decide_True by lia. split; [done|].
    intros Hnil. rewrite Hnil in Hlen. simpl in Hlen. lia.
  - exact Hnone.
  - intros cq results errs err Hcq Hty Hpanel Hrun. split; [|by eapply Hnone].
    assert (Hdispatch : dispatch env q params keys cq =
              Ret (results, keepResourceLimitErrors env errs, err)).
    { unfold dispatch. rewrite Hty. rewrite decide_True by done. by rewrite Hrun. }
    rewrite (QueryRange_unfold _ _ _ _ _ _ _ _ Hcq Hdispatch).
    rewrite decide_False; [done|]. intros Hvalue. rewrite Hvalue in Hpanel.
    by destruct Hpanel.
Qed.

Lemma row_path_all_or_nothing_witness :
  runBuilderListQueries (sampleEnv arrivalInOrder)
    (sampleQuerier (∅, Some (ErrCollaborator "unknown column" false)))
    sampleListRequest ∅ =
    Ret (None, None, Some (ErrCollaborator "unknown column" false)) ∧
  runBuilderListQueries (sampleEnv arrivalInOrder)
    (sampleQuerier (<["A" := "bad"]> {["B" := "select 1"]}, None))
    sampleListRequest ∅ =
    Ret (None, Some {["A" := ErrInQuery "A" sampleTimeout]},
         Some (ErrMultiple [ErrInQuery "A" sampleTimeout])).
Proof.
  split.
  - destruct (row_path_all_or_nothing (sampleEnv arrivalInOrder)
                (sampleQuerier (∅, Some (ErrCollaborator "unknown column" false)))
                sampleListRequest ∅) as [Htranslate _].
    by apply (Htranslate ∅).
  - destruct (row_path_all_or_nothing (sampleEnv arrivalInOrder)
                (sampleQuerier (<["A" := "bad"]> {["B" := "select 1"]}, None))
                sampleListRequest ∅) as (_ & Hunits & _).
    destruct (Hunits (<["A" := "bad"]> {["B" := "select 1"]})
                [mkChannelResult [] [] (Some (ErrInQuery "A" sampleTimeout)) "A" "bad";
                 mkChannelResult [] [mkRow 1 []] None "B" "select 1"]
                (mkChannelResult [] [] (Some (ErrInQuery "A" sampleTimeout)) "A" "bad"))
      as [Hret _].
    + reflexivity.
    + by vm_compute.
    + left.
    + by eexists.
    + exact Hret.
Defined.

(** C10 fails on the code.  For a request whose CompositeQuery is nil,
    QueryRange skips the dispatch and then reads the panel type through the
    nil pointer: the call panics instead of returning three nils. *)
Theorem QueryRange_nil_composite env q wStart wEnd step noCache keys :
  QueryRange env q (mkParams wStart wEnd step None noCache) keys = nilDereference.
Proof. reflexivity. Qed.

End OrchestratorClaims.

(** ** Further properties of the reconciler *)

Section ReconcilerExtras.
Local Open Scope Z_scope.

Ltac leb_cases :=
  repeat match goal with
  | |- context [(?a <=? ?b)] => destruct (Z.leb_spec a b)
  | |- context [(?a <? ?b)] => destruct (Z.ltb_spec a b)
  end; simpl.

Lemma of_float64_range f : Int64.in_int64 (Int64.of_float64 f).
Proof.
  unfold Int64.of_float64, Int64.in_int64.
  destruct (Z.leb_spec Int64.min_int64 f); simpl.
  - destruct (Z.leb_spec f Int64.max_int64); simpl; [lia|].
    unfold Int64.min_int64, Int64.max_int64. lia.
  - unfold Int64.min_int64, Int64.max_int64. lia.
Qed.

Lemma of_float64_le f bound :
  Int64.min_int64 ≤ bound → f ≤ bound → Int64.of_float64 f ≤ bound.
Proof.
  intros Hb Hf. unfold Int64.of_float64.
  destruct (Z.leb_spec Int64.min_int64 f); simpl; [|done].
  destruct (Z.leb_spec f Int64.max_int64); simpl; done.
Qed.

Lemma capCachedEnd_le_boundary cachedEnd boundary :
  Z.abs boundary ≤ 2 ^ 53 → capCachedEnd cachedEnd boundary ≤ boundary.
Proof.
  intros Hb. unfold capCachedEnd, Int64.fmin.
  rewrite (to_float64_small boundary) by done.
  apply of_float64_le; [unfold Int64.min_int64; lia | lia].
Qed.

Lemma capCachedEnd_range cachedEnd boundary :
  Int64.in_int64 (capCachedEnd cachedEnd boundary).
Proof. apply of_float64_range. Qed.

(** The flux boundary lies at most one rounding step below the clock
    minus the flux interval, and never above it. *)
Lemma fluxBoundary_bounds now step fluxInterval :
  1 ≤ step → 0 ≤ now ≤ 2 ^ 53 → 0 ≤ Milliseconds fluxInterval ≤ now →
  ∃ boundary,
    fluxBoundary now step fluxInterval = Ret boundary ∧
    now - 60000 - Milliseconds fluxInterval < boundary ≤
      now - Milliseconds fluxInterval ∧
    Z.abs boundary ≤ 2 ^ 53.
Proof.
  intros Hstep Hnow Hms.
  destruct (fluxBoundary_returns now step fluxInterval Hstep) as (a & Ha & ->).
  pose proof (Z.rem_bound_pos now (a * 1000) ltac:(lia) ltac:(lia)) as Hr.
  assert (Hle : Z.rem now (a * 1000) ≤ now).
  { rewrite Z.rem_mod_nonneg by lia. apply Z.mod_le; lia. }
  set (r := Z.rem now (a * 1000)) in *.
  eexists. split; [done|].
  assert (Int64.sub now r = now - r) as ->.
  { apply wrap_id. unfold Int64.in_int64, Int64.min_int64, Int64.max_int64. lia. }
  assert (Int64.sub (now - r) (Milliseconds fluxInterval) =
          now - r - Milliseconds fluxInterval) as ->.
  { apply wrap_id. unfold Int64.in_int64, Int64.min_int64, Int64.max_int64. lia. }
  lia.
Qed.


Lemma classify_shape wStart wEnd cachedStart cachedEnd :
  let misses := validMisses (classify wStart wEnd cachedStart cachedEnd).1 in
  let replace := (classify wStart wEnd cachedStart cachedEnd).2 in
  Forall (λ miss, start miss < end_ miss) misses ∧
  (length misses ≤ 2)%nat ∧
  (∀ miss, miss ∈ misses → start miss = wStart ∨ end_ miss = wEnd) ∧
  (replace = true → misses = validMisses [mkMiss wStart wEnd]).
Proof.
  unfold classify, validMisses, validMiss.
  repeat case_match; simpl; repeat case_match; simpl.
  all: repeat match goal with
       | H : (_ <? _) = true |- _ => apply Z.ltb_lt in H
       | H : (_ <? _) = false |- _ => clear H
       end.
  all: split; [repeat constructor; simpl; lia|].
  all: split; [lia|].
  all: split; [|done].
  all: intros miss Hin;
       repeat (apply elem_of_cons in Hin as [->|Hin]; [simpl; auto|]);
       by apply elem_of_nil in Hin.
Qed.

(** X1.  For a step of one second or more findMissingTimeRanges returns
    at most two misses; each has its start below its end and starts at the
    start of the window or ends at its end; when replace is set, the only
    miss there can be is the whole window. *)
Theorem findMissingTimeRanges_shape wStart wEnd step seriesList fluxInterval now :
  1 ≤ step →
  ∃ misses replace,
    findMissingTimeRanges wStart wEnd step seriesList fluxInterval now =
      Ret (misses, replace) ∧
    Forall (λ miss, start miss < end_ miss) misses ∧
    (length misses ≤ 2)%nat ∧
    (∀ miss, miss ∈ misses → start miss = wStart ∨ end_ miss = wEnd) ∧
    (replace = true → misses = validMisses [mkMiss wStart wEnd]).
Proof.
  intros Hstep.
  destruct (cachedCoverage_returns step seriesList fluxInterval now Hstep)
    as (cs & ce & Hcov).
  eexists _, _. split; [by apply findMissingTimeRanges_unfold|].
  apply classify_shape.
Qed.

Lemma findMissingTimeRanges_shape_witness :
  ∃ misses replace,
    findMissingTimeRanges 100 200 60 sampleCached 0 sampleNow =
      Ret (misses, replace) ∧
    Forall (λ miss, start miss < end_ miss) misses ∧
    (length misses ≤ 2)%nat.
Proof.
  destruct (findMissingTimeRanges_shape 100 200 60 sampleCached 0 sampleNow)
    as (misses & replace & Hret & Hvalid & Hlen & _); [lia|].
  exists misses, replace. by repeat split.
Defined.

Lemma classify_covering wStart wEnd cachedStart cachedEnd :
  cachedStart ≤ wStart → wStart ≤ wEnd → wEnd ≤ cachedEnd →
  Int64.min_int64 < wStart → wEnd < Int64.max_int64 →
  validMisses (classify wStart wEnd cachedStart cachedEnd).1 = [] ∧
  (classify wStart wEnd cachedStart cachedEnd).2 = false.
Proof.
  intros H1 Hw H2 Hlo Hhi. unfold classify.
  destruct (Z.leb_spec wStart cachedStart), (Z.leb_spec cachedEnd wEnd); simpl.
  - assert (cachedStart = wStart) as -> by lia.
    assert (cachedEnd = wEnd) as -> by lia.
    rewrite pred_no_wrap, succ_no_wrap
      by (unfold Int64.min_int64, Int64.max_int64 in *; lia).
    unfold validMisses, validMiss. simpl.
    destruct (Z.ltb_spec wStart (wStart - 1)); [lia|].
    destruct (Z.ltb_spec (wEnd + 1) wEnd); [lia|]. done.
  - destruct (Z.leb_spec cachedStart wStart), (Z.leb_spec wEnd cachedEnd);
      simpl; (done || lia).
  - destruct (Z.leb_spec cachedStart wStart), (Z.leb_spec wEnd cachedEnd);
      simpl; (done || lia).
  - destruct (Z.leb_spec cachedStart wStart), (Z.leb_spec wEnd cachedEnd);
      simpl; (done || lia).
Qed.

(** X2.  When the cached coverage left by the flux cap holds the whole
    window (cachedStart ≤ start ≤ end ≤ cachedEnd, the window not at the
    ends of int64), findMissingTimeRanges returns no miss and replace =
    false, also when the coverage is exactly the window and the subset case
    is the one taken. *)
Theorem findMissingTimeRanges_superset_case wStart wEnd step seriesList
    fluxInterval now cachedStart cachedEnd :
  cachedCoverage step seriesList fluxInterval now = Ret (cachedStart, cachedEnd) →
  cachedStart ≤ wStart → wStart ≤ wEnd → wEnd ≤ cachedEnd →
  Int64.min_int64 < wStart → wEnd < Int64.max_int64 →
  findMissingTimeRanges wStart wEnd step seriesList fluxInterval now =
    Ret ([], false).
Proof.
  intros Hcov H1 Hw H2 Hlo Hhi.
  rewrite (findMissingTimeRanges_unfold _ _ _ _ _ _ _ _ Hcov).
  by destruct (classify_covering wStart wEnd cachedStart cachedEnd) as [-> ->].
Qed.

Lemma findMissingTimeRanges_superset_case_witness :
  findMissingTimeRanges 130 170 60 sampleCached 0 sampleNow = Ret ([], false).
Proof.
  apply (findMissingTimeRanges_superset_case 130 170 60 sampleCached 0 sampleNow
           120 180); [reflexivity | lia | lia | lia | reflexivity | reflexivity].
Defined.

(** X3.  For a proper cached coverage (cachedStart ≤ cachedEnd) and a
    window with start ≤ end, replace is set exactly when the coverage and
    the window have no timestamp in common. *)
Theorem replace_iff_disjoint wStart wEnd step seriesList fluxInterval now
    cachedStart cachedEnd :
  cachedCoverage step seriesList fluxInterval now = Ret (cachedStart, cachedEnd) →
  cachedStart ≤ cachedEnd → wStart ≤ wEnd →
  ∃ misses replace,
    findMissingTimeRanges wStart wEnd step seriesList fluxInterval now =
      Ret (misses, replace) ∧
    (replace = true ↔ cachedEnd < wStart ∨ wEnd < cachedStart).
Proof.
  intros Hcov Hle Hw.
  eexists _, _. split; [by apply findMissingTimeRanges_unfold|].
  unfold classify. leb_cases; split; (done || lia).
Qed.

Lemma replace_iff_disjoint_witness :
  ∃ misses,
    findMissingTimeRanges 300 400 60 sampleCached 0 sampleNow = Ret (misses, true).
Proof.
  destruct (replace_iff_disjoint 300 400 60 sampleCached 0 sampleNow 120 180)
    as (misses & replace & Hret & Hiff); [reflexivity | lia | lia |].
  exists misses. assert (replace = true) as <- by (apply Hiff; lia). exact Hret.
Defined.

(** X4.  When the cached coverage overlaps the window on its left
    (cachedStart ≤ start ≤ cachedEnd < end) the only miss is
    [cachedEnd+1, end]; when it overlaps the window on its right
    (start < cachedStart ≤ end ≤ cachedEnd) the only miss is
    [start, cachedStart-1]; each is kept only if its start is below its end,
    and replace = false.  This holds also when an edge of the coverage is an
    edge of the window and the subset case is the one taken. *)
Theorem findMissingTimeRanges_partial_overlap wStart wEnd step seriesList
    fluxInterval now cachedStart cachedEnd :
  cachedCoverage step seriesList fluxInterval now = Ret (cachedStart, cachedEnd) →
  (cachedStart ≤ wStart → wStart ≤ cachedEnd → cachedEnd < wEnd →
   Int64.min_int64 < wStart → wEnd ≤ Int64.max_int64 →
   findMissingTimeRanges wStart wEnd step seriesList fluxInterval now =
     Ret (validMisses [mkMiss (cachedEnd + 1) wEnd], false)) ∧
  (wStart < cachedStart → cachedStart ≤ wEnd → wEnd ≤ cachedEnd →
   Int64.min_int64 ≤ wStart → wEnd < Int64.max_int64 →
   findMissingTimeRanges wStart wEnd step seriesList fluxInterval now =
     Ret (validMisses [mkMiss wStart (cachedStart - 1)], false)).
Proof.
  intros Hcov. rewrite (findMissingTimeRanges_unfold _ _ _ _ _ _ _ _ Hcov).
  split.
  - intros H1 H2 H3 Hlo Hhi. unfold classify.
    rewrite succ_no_wrap by lia.
    destruct (Z.leb_spec wStart cachedStart), (Z.leb_spec cachedEnd wEnd);
      simpl; try lia.
    + assert (cachedStart = wStart) as -> by lia.
      rewrite pred_no_wrap by lia.
      unfold validMisses, validMiss. simpl.
      destruct (Z.ltb_spec wStart (wStart - 1)); [lia|]. done.
    + destruct (Z.leb_spec cachedStart wStart), (Z.leb_spec wEnd cachedEnd),
        (Z.leb_spec wStart cachedEnd); simpl; (done || lia).
  - intros H1 H2 H3 Hlo Hhi. unfold classify.
    rewrite pred_no_wrap by lia.
    destruct (Z.leb_spec wStart cachedStart), (Z.leb_spec cachedEnd wEnd);
      simpl; try lia.
    + assert (cachedEnd = wEnd) as -> by lia.
      rewrite succ_no_wrap by lia.
      unfold validMisses, validMiss. simpl.
      destruct (Z.ltb_spec (wEnd + 1) wEnd); [lia|].
      by destruct (wStart <? cachedStart - 1).
    + destruct (Z.leb_spec cachedStart wStart), (Z.leb_spec wEnd cachedEnd),
        (Z.leb_spec wStart cachedEnd), (Z.leb_spec cachedStart wEnd);
        simpl; (done || lia).
Qed.

Lemma findMissingTimeRanges_partial_overlap_witness :
  findMissingTimeRanges 150 250 60 sampleCached 0 sampleNow =
    Ret ([mkMiss 181 250], false) ∧
  findMissingTimeRanges 100 150 60 sampleCached 0 sampleNow =
    Ret ([mkMiss 100 119], false).
Proof.
  split.
  - destruct (findMissingTimeRanges_partial_overlap 150 250 60 sampleCached 0
                sampleNow 120 180) as [Hleft _]; [reflexivity|].
    apply Hleft; [lia | lia | lia | reflexivity | discriminate].
  - destruct (findMissingTimeRanges_partial_overlap 100 150 60 sampleCached 0
                sampleNow 120 180) as [_ Hright]; [reflexivity|].
    apply Hright; [lia | lia | lia | discriminate | reflexivity].
Defined.



Lemma cachedRange_allPoints sl :
  cachedRange sl = foldl scanPoint (0, 0) (allPoints sl).
Proof.
  unfold cachedRange, allPoints. generalize (0, 0).
  induction sl as [|s sl IH]; intros acc; simpl; [done|].
  rewrite foldl_app. apply IH.
Qed.

Lemma scan_positive_points pts :
  Forall (λ p, 0 < Timestamp p) pts →
  let acc := foldl scanPoint (0, 0) pts in
  (pts = [] ∧ acc = (0, 0)) ∨
  (pts ≠ [] ∧ acc.1 ∈ timestamps pts ∧ acc.2 ∈ timestamps pts ∧
   ∀ p, p ∈ pts → acc.1 ≤ Timestamp p ≤ acc.2).
Proof.
  induction pts as [|p pts IH] using rev_ind; intros Hpos; [by left|].
  apply Forall_app in Hpos as [Hpts [Hp _]%Forall_cons].
  right. split; [by destruct pts|].
  cbn zeta. rewrite foldl_app. cbn [foldl].
  destruct (IH Hpts) as [[-> ->]|(Hne & Hlo & Hhi & Hall)].
  - simpl. unfold timestamps. simpl.
    split; [left|]. split; [left|].
    intros p' Hp'. apply list_elem_of_singleton in Hp' as ->. lia.
  - destruct (foldl scanPoint (0, 0) pts) as [a b]. simpl in *.
    assert (Ha : 0 < a).
    { unfold timestamps in Hlo. apply list_elem_of_fmap in Hlo as (p0 & -> & Hp0).
      rewrite Forall_forall in Hpts. by apply Hpts. }
    assert (Hb : 0 < b).
    { unfold timestamps in Hhi. apply list_elem_of_fmap in Hhi as (p0 & -> & Hp0).
      rewrite Forall_forall in Hpts. by apply Hpts. }
    unfold timestamps in *. rewrite fmap_app. simpl.
    destruct (Z.eqb_spec a 0); [lia|]. destruct (Z.eqb_spec b 0); [lia|]. simpl.
    destruct (Z.ltb_spec (Timestamp p) a), (Z.ltb_spec b (Timestamp p)); simpl.
    all: rewrite !elem_of_app, !list_elem_of_singleton.
    all: split; [tauto|]; split; [tauto|].
    all: intros p' Hp'; apply elem_of_app in Hp' as [Hp'|Hp'];
         [specialize (Hall p' Hp')|apply list_elem_of_singleton in Hp' as ->]; lia.
Qed.

(** X6.  When every cached point has a positive timestamp, the bounds the
    reconciler scans are the smallest and the largest timestamp of all the
    points of all the series; without any point both bounds are zero. *)
Theorem cachedRange_min_max seriesList :
  Forall (λ p, 0 < Timestamp p) (allPoints seriesList) →
  (allPoints seriesList = [] ∧ cachedRange seriesList = (0, 0)) ∨
  (allPoints seriesList ≠ [] ∧
   (cachedRange seriesList).1 ∈ timestamps (allPoints seriesList) ∧
   (cachedRange seriesList).2 ∈ timestamps (allPoints seriesList) ∧
   ∀ p, p ∈ allPoints seriesList →
     (cachedRange seriesList).1 ≤ Timestamp p ≤ (cachedRange seriesList).2).
Proof.
  intros Hpos. rewrite cachedRange_allPoints. by apply scan_positive_points.
Qed.

Lemma cachedRange_min_max_witness :
  cachedRange
    [mkSeries ∅ [mkPoint 150 1; mkPoint 120 2]; mkSeries ∅ [mkPoint 180 3]] =
    (120, 180).
Proof.
  destruct (cachedRange_min_max
              [mkSeries ∅ [mkPoint 150 1; mkPoint 120 2];
               mkSeries ∅ [mkPoint 180 3]]) as [[Hnil _]|_].
  - repeat constructor.
  - discriminate Hnil.
  - reflexivity.
Defined.

(** X7.  The doc comment of findMissingTimeRanges: the flux interval at the
    end of the window is always asked for again.  For a step of one second
    or more, a clock reading between 0 and 2^53 ms and a flux interval not
    longer than the clock reading, every timestamp of the window (start <
    end) that is later than now minus the flux interval lies in a returned
    miss, whatever the cache holds; the one exception is the last
    millisecond of a window that ends one millisecond after that bound. *)
Theorem flux_tail_is_fetched wStart wEnd step seriesList fluxInterval now t :
  1 ≤ step → 0 ≤ now ≤ 2 ^ 53 → 0 ≤ Milliseconds fluxInterval ≤ now →
  wStart < wEnd →
  wStart ≤ t ≤ wEnd →
  now - Milliseconds fluxInterval < t →
  t < wEnd ∨ now - Milliseconds fluxInterval + 1 < wEnd →
  ∃ misses replace miss,
    findMissingTimeRanges wStart wEnd step seriesList fluxInterval now =
      Ret (misses, replace) ∧
    miss ∈ misses ∧ inMiss t miss.
Proof.
  intros Hstep Hnow Hms Hw Ht Hflux Hlast.
  destruct (fluxBoundary_bounds now step fluxInterval Hstep Hnow Hms)
    as (b & Hb & Hbb & Habs).
  set (cs := (cachedRange seriesList).1).
  set (ce := capCachedEnd (cachedRange seriesList).2 b).
  assert (Hcov : cachedCoverage step seriesList fluxInterval now = Ret (cs, ce)).
  { unfold cachedCoverage, cs, ce. destruct (cachedRange seriesList). by rewrite Hb. }
  pose proof (capCachedEnd_le_boundary (cachedRange seriesList).2 b Habs) as Hce.
  pose proof (capCachedEnd_range (cachedRange seriesList).2 b) as Hrange.
  fold ce in Hce, Hrange.
  rewrite (findMissingTimeRanges_unfold _ _ _ _ _ _ _ _ Hcov).
  assert (Hsucc : Int64.add ce 1 = ce + 1).
  { apply succ_no_wrap. unfold Int64.in_int64, Int64.max_int64 in *. lia. }
  assert (Htail : validMiss (mkMiss (ce + 1) wEnd) = true ∧
                  inMiss t (mkMiss (ce + 1) wEnd)).
  { unfold validMiss, inMiss. simpl. rewrite Z.ltb_lt. lia. }
  assert (Hwhole : validMiss (mkMiss wStart wEnd) = true ∧
                   inMiss t (mkMiss wStart wEnd)).
  { unfold validMiss, inMiss. simpl. rewrite Z.ltb_lt. lia. }
  unfold classify, validMisses. rewrite Hsucc.
  destruct (Z.leb_spec wStart cs), (Z.leb_spec ce wEnd), (Z.leb_spec cs wStart),
    (Z.leb_spec wEnd ce), (Z.leb_spec wStart ce), (Z.leb_spec cs wEnd);
    cbn [andb fst snd]; try lia.
  all: first
    [ eexists _, _, (mkMiss (ce + 1) wEnd); split; [reflexivity|];
      split; [|apply Htail];
      apply list_elem_of_In, List.filter_In; split; [solve [simpl; auto]|apply Htail]
    | eexists _, _, (mkMiss wStart wEnd); split; [reflexivity|];
      split; [|apply Hwhole];
      apply list_elem_of_In, List.filter_In; split; [solve [simpl; auto]|apply Hwhole] ].
Qed.

Lemma flux_tail_is_fetched_witness :
  ∃ misses replace miss,
    findMissingTimeRanges 1699999880000 1700000000000 60 sampleRecent
      fiveMinutes sampleNow = Ret (misses, replace) ∧
    miss ∈ misses ∧ inMiss 1699999990000 miss.
Proof.
  apply (flux_tail_is_fetched 1699999880000 1700000000000 60 sampleRecent
           fiveMinutes sampleNow 1699999990000);
    change (Milliseconds fiveMinutes) with 300000; unfold sampleNow; lia.
Defined.

End ReconcilerExtras.

(** ** Further properties of the merger *)

Section MergerExtras.
Local Open Scope Z_scope.

Lemma mergeSerieses_table cached missed :
  mergeSerieses cached missed =
    (λ kv, sortAndDedup kv.2) <$> map_to_list (mergeTable cached missed).
Proof. done. Qed.

Lemma seedCached_keyed table series :
  keyedTable table → keyedTable (seedCached table series).
Proof.
  intros Hk k s. unfold seedCached. rewrite lookup_insert.
  case_decide as Heq; [|by apply Hk]. by intros [= <-].
Qed.

Lemma addMissed_keyed table series :
  keyedTable table → keyedTable (addMissed table series).
Proof.
  intros Hk k s. unfold addMissed.
  destruct (table !! signature series) as [found|] eqn:Hfound.
  - rewrite lookup_insert. case_decide as Heq; [|by apply Hk].
    intros [= <-]. subst k. apply (Hk _ _ Hfound).
  - rewrite lookup_insert. case_decide as Heq; [|by apply Hk]. by intros [= <-].
Qed.

Lemma mergeTable_keyed cached missed : keyedTable (mergeTable cached missed).
Proof.
  unfold mergeTable.
  assert (Hseed : keyedTable (foldl seedCached ∅ cached)).
  { induction cached as [|c cached IH] using rev_ind.
    - intros k s. simpl. by rewrite lookup_empty.
    - rewrite foldl_app. simpl. by apply seedCached_keyed. }
  induction missed as [|m missed IH] using rev_ind; [done|].
  rewrite foldl_app. simpl. by apply addMissed_keyed.
Qed.

Lemma mergeSerieses_elem cached missed r :
  r ∈ mergeSerieses cached missed ↔
  ∃ s, mergeTable cached missed !! signature r = Some s ∧ r = sortAndDedup s.
Proof.
  rewrite mergeSerieses_table, list_elem_of_fmap. split.
  - intros ([k s] & -> & Hin). apply elem_of_map_to_list in Hin. simpl.
    exists s. split; [|done].
    change (signature (sortAndDedup s)) with (signature s).
    by rewrite (mergeTable_keyed cached missed k s Hin).
  - intros (s & Hs & ->). exists (signature (sortAndDedup s), s).
    split; [done|]. by apply elem_of_map_to_list.
Qed.

Lemma mergeSerieses_signatures cached missed :
  signature <$> mergeSerieses cached missed =
    (map_to_list (mergeTable cached missed)).*1.
Proof.
  rewrite mergeSerieses_table, <- list_fmap_compose.
  apply list_fmap_ext. intros i [k s] Hi. simpl.
  change (signature (sortAndDedup s)) with (signature s).
  apply (mergeTable_keyed cached missed).
  apply elem_of_map_to_list, list_elem_of_lookup. eauto.
Qed.

Lemma mergeSerieses_distinct cached missed :
  distinctSignatures (mergeSerieses cached missed).
Proof.
  unfold distinctSignatures. rewrite mergeSerieses_signatures.
  apply NoDup_fst_map_to_list.
Qed.

(** X8.  Whatever the two inputs are, the series returned by mergeSerieses
    have pairwise distinct label signatures, and the points of each are in
    strictly ascending order of timestamp: no signature and no timestamp
    comes twice. *)
Theorem mergeSerieses_no_duplicates cached missed :
  distinctSignatures (mergeSerieses cached missed) ∧
  ∀ r, r ∈ mergeSerieses cached missed → strictlyAscending (Points r).
Proof.
  split; [apply mergeSerieses_distinct|].
  intros r (s & _ & ->)%mergeSerieses_elem. apply sortAndDedup_sound.
Qed.

Lemma mergeSerieses_no_duplicates_witness :
  ∃ r, r ∈ mergeSerieses [sampleUnsorted] [sampleSameHost] ∧
       strictlyAscending (Points r).
Proof.
  destruct (mergeSerieses_no_duplicates [sampleUnsorted] [sampleSameHost])
    as [_ Hsorted].
  exists (mkSeries {["host" := "h1"]}
            [mkPoint 10 2; mkPoint 20 4; mkPoint 30 3; mkPoint 40 5]).
  assert (Hin : mkSeries {["host" := "h1"]}
                  [mkPoint 10 2; mkPoint 20 4; mkPoint 30 3; mkPoint 40 5]
                ∈ mergeSerieses [sampleUnsorted] [sampleSameHost]).
  { replace (mergeSerieses [sampleUnsorted] [sampleSameHost])
      with [mkSeries {["host" := "h1"]}
              [mkPoint 10 2; mkPoint 20 4; mkPoint 30 3; mkPoint 40 5]]
      by (by vm_compute).
    left. }
  split; [exact Hin | exact (Hsorted _ Hin)].
Defined.

Lemma addMissed_grows table series k s :
  table !! k = Some s →
  ∃ s', addMissed table series !! k = Some s' ∧ pointsWithin s s'.
Proof.
  intros Hs. unfold addMissed.
  destruct (table !! signature series) as [found|] eqn:Hfound.
  - rewrite lookup_insert. case_decide as Heq.
    + subst k. rewrite Hfound in Hs. injection Hs as ->.
      eexists. split; [done|]. intros p Hp. simpl. apply elem_of_app. by left.
    + exists s. split; [done|by intros p Hp].
  - rewrite lookup_insert. case_decide as Heq.
    + subst k. congruence.
    + exists s. split; [done|by intros p Hp].
Qed.

Lemma addMissed_holds table series :
  ∃ s', addMissed table series !! signature series = Some s' ∧
        pointsWithin series s'.
Proof.
  unfold addMissed.
  destruct (table !! signature series) as [found|] eqn:Hfound.
  - rewrite lookup_insert_eq. eexists. split; [done|].
    intros p Hp. simpl. apply elem_of_app. by right.
  - rewrite lookup_insert_eq. eexists. split; [done|by intros p Hp].
Qed.

Lemma foldl_addMissed_grows missed table k s :
  table !! k = Some s →
  ∃ s', foldl addMissed table missed !! k = Some s' ∧ pointsWithin s s'.
Proof.
  revert table s. induction missed as [|m missed IH]; intros table s Hs; simpl.
  - exists s. split; [done|by intros p Hp].
  - destruct (addMissed_grows table m k s Hs) as (s1 & Hs1 & Hin1).
    destruct (IH _ _ Hs1) as (s2 & Hs2 & Hin2).
    exists s2. split; [done|]. intros p Hp. by apply Hin2, Hin1.
Qed.

Lemma foldl_addMissed_holds missed table m :
  m ∈ missed →
  ∃ s', foldl addMissed table missed !! signature m = Some s' ∧ pointsWithin m s'.
Proof.
  revert table. induction missed as [|m' missed IH]; intros table Hin.
  - by apply elem_of_nil in Hin.
  - simpl. apply elem_of_cons in Hin as [->|Hin]; [|by apply IH].
    destruct (addMissed_holds table m') as (s1 & Hs1 & Hin1).
    destruct (foldl_addMissed_grows missed _ _ _ Hs1) as (s2 & Hs2 & Hin2).
    exists s2. split; [done|]. intros p Hp. by apply Hin2, Hin1.
Qed.

Lemma seedCached_lookup cached c :
  distinctSignatures cached → c ∈ cached →
  foldl seedCached ∅ cached !! signature c = Some c.
Proof.
  intros Hnd Hin. apply elem_of_map_to_list.
  rewrite (seedCached_table cached Hnd). by apply (list_elem_of_fmap_2 keyed).
Qed.

Lemma sourced_more inputs inputs' table :
  (∀ s, s ∈ inputs → s ∈ inputs') → sourced inputs table → sourced inputs' table.
Proof.
  intros Hsub Hsrc k s p Hs Hp.
  destruct (Hsrc k s p Hs Hp) as (s0 & ? & ? & ?). exists s0. auto.
Qed.

Lemma seedCached_sourced inputs table c :
  sourced inputs table → sourced (inputs ++ [c]) (seedCached table c).
Proof.
  intros Hsrc k s p. unfold seedCached. rewrite lookup_insert.
  case_decide as Heq.
  - intros [= <-] Hp. exists c. rewrite elem_of_app, list_elem_of_singleton. auto.
  - intros Hs Hp. destruct (Hsrc k s p Hs Hp) as (s0 & ? & ? & ?).
    exists s0. rewrite elem_of_app. auto.
Qed.

Lemma addMissed_sourced inputs table m :
  sourced inputs table → sourced (inputs ++ [m]) (addMissed table m).
Proof.
  intros Hsrc k s p. unfold addMissed.
  destruct (table !! signature m) as [found|] eqn:Hfound;
    rewrite lookup_insert; case_decide as Heq.
  - intros [= <-]. simpl. intros [Hp|Hp]%elem_of_app.
    + destruct (Hsrc _ _ p Hfound Hp) as (s0 & ? & ? & ?).
      exists s0. rewrite elem_of_app. subst k. auto.
    + exists m. rewrite elem_of_app, list_elem_of_singleton. auto.
  - intros Hs Hp. destruct (Hsrc k s p Hs Hp) as (s0 & ? & ? & ?).
    exists s0. rewrite elem_of_app. auto.
  - intros [= <-] Hp. exists m. rewrite elem_of_app, list_elem_of_singleton. auto.
  - intros Hs Hp. destruct (Hsrc k s p Hs Hp) as (s0 & ? & ? & ?).
    exists s0. rewrite elem_of_app. auto.
Qed.

Lemma mergeTable_sourced cached missed :
  sourced (cached ++ missed) (mergeTable cached missed).
Proof.
  unfold mergeTable.
  assert (Hseed : sourced cached (foldl seedCached ∅ cached)).
  { induction cached as [|c cached IH] using rev_ind.
    - intros k s p. simpl. by rewrite lookup_empty.
    - rewrite foldl_app. simpl. by apply seedCached_sourced. }
  induction missed as [|m missed IH] using rev_ind.
  - by rewrite app_nil_r.
  - rewrite foldl_app, app_assoc. simpl. by apply addMissed_sourced.
Qed.

(** X9.  mergeSerieses loses no fetched data and makes up none.  Every
    timestamp of every missed series is a timestamp of the returned series
    with the same label signature; so is every timestamp of every cached
    series when the cached series have pairwise distinct signatures; and
    every point of a returned series is a point of an input series with the
    same signature. *)
Theorem mergeSerieses_keeps_timestamps cached missed :
  (∀ m p, m ∈ missed → p ∈ Points m →
     ∃ r, r ∈ mergeSerieses cached missed ∧ signature r = signature m ∧
          Timestamp p ∈ timestamps (Points r)) ∧
  (distinctSignatures cached →
   ∀ c p, c ∈ cached → p ∈ Points c →
     ∃ r, r ∈ mergeSerieses cached missed ∧ signature r = signature c ∧
          Timestamp p ∈ timestamps (Points r)) ∧
  (∀ r p, r ∈ mergeSerieses cached missed → p ∈ Points r →
     ∃ s, s ∈ cached ++ missed ∧ signature s = signature r ∧ p ∈ Points s).
Proof.
  assert (Hkept : ∀ s0 s' p,
            mergeTable cached missed !! signature s0 = Some s' →
            pointsWithin s0 s' → p ∈ Points s0 →
            ∃ r, r ∈ mergeSerieses cached missed ∧ signature r = signature s0 ∧
                 Timestamp p ∈ timestamps (Points r)).
  { intros s0 s' p Hs' Hin Hp. exists (sortAndDedup s').
    assert (Hsig : signature (sortAndDedup s') = signature s0).
    { change (signature (sortAndDedup s')) with (signature s').
      apply (mergeTable_keyed cached missed _ _ Hs'). }
    split; [|split; [done|]].
    - apply mergeSerieses_elem. exists s'. by rewrite Hsig.
    - apply sortAndDedup_sound. unfold timestamps.
      apply list_elem_of_fmap_2. by apply Hin. }
  split; [|split].
  - intros m p Hm Hp.
    destruct (foldl_addMissed_holds missed (foldl seedCached ∅ cached) m Hm)
      as (s' & Hs' & Hin).
    by apply (Hkept m s' p).
  - intros Hnd c p Hc Hp.
    destruct (foldl_addMissed_grows missed _ _ _ (seedCached_lookup cached c Hnd Hc))
      as (s' & Hs' & Hin).
    by apply (Hkept c s' p).
  - intros r p (s & Hs & ->)%mergeSerieses_elem Hp.
    apply sortAndDedup_sound in Hp.
    change (signature (sortAndDedup s)) with (signature s) in *.
    destruct (mergeTable_sourced cached missed _ _ p Hs Hp) as (s0 & ? & ? & ?).
    by exists s0.
Qed.

Lemma mergeSerieses_keeps_timestamps_witness :
  ∃ r, r ∈ mergeSerieses [sampleUnsorted] [sampleSameHost] ∧
       signature r = signature sampleUnsorted ∧
       (20 : Z) ∈ timestamps (Points r).
Proof.
  destruct (mergeSerieses_keeps_timestamps [sampleUnsorted] [sampleSameHost])
    as (_ & Hcached & _).
  apply (Hcached ltac:(by apply NoDup_singleton) sampleUnsorted (mkPoint 20 4)).
  - left.
  - right. right. right. left.
Defined.

Lemma keyed_fst (l : list Series) : (keyed <$> l).*1 = signature <$> l.
Proof. rewrite <- list_fmap_compose. by apply list_fmap_ext. Qed.

Lemma foldl_addMissed_lookup missed table k :
  distinctSignatures missed →
  foldl addMissed table missed !! k =
    union_with (λ c m, Some (joinPoints c m)) (table !! k)
      (missedTable missed !! k).
Proof.
  unfold distinctSignatures, missedTable. revert table.
  induction missed as [|m missed IH]; intros table Hnd.
  - simpl. rewrite lookup_empty. by destruct (table !! k).
  - rewrite fmap_cons in Hnd. apply NoDup_cons in Hnd as [Hfresh Hnd].
    simpl. rewrite (IH _ Hnd). unfold keyed at 2. simpl.
    rewrite lookup_insert. case_decide as Heq.
    + subst k.
      rewrite (not_elem_of_list_to_map_1 (keyed <$> missed))
        by (by rewrite keyed_fst).
      unfold addMissed.
      destruct (table !! signature m) as [found|];
        rewrite lookup_insert_eq; done.
    + assert (addMissed table m !! k = table !! k) as ->; [|done].
      unfold addMissed.
      destruct (table !! signature m); by rewrite lookup_insert_ne.
Qed.

Lemma seedCached_lookup_Some cached k c :
  distinctSignatures cached →
  foldl seedCached ∅ cached !! k = Some c ↔ c ∈ cached ∧ signature c = k.
Proof.
  intros Hnd. rewrite <- elem_of_map_to_list, (seedCached_table cached Hnd).
  rewrite list_elem_of_fmap. unfold keyed. split.
  - intros (c' & [= -> ->] & Hin). done.
  - intros [Hin <-]. by exists c.
Qed.

Lemma missed_lookup_Some missed k m :
  distinctSignatures missed →
  missedTable missed !! k = Some m ↔
  m ∈ missed ∧ signature m = k.
Proof.
  intros Hnd. unfold missedTable.
  rewrite <- elem_of_list_to_map by (by rewrite keyed_fst).
  rewrite list_elem_of_fmap. unfold keyed. split.
  - intros (m' & [= -> ->] & Hin). done.
  - intros [Hin <-]. by exists m.
Qed.

(** X10.  For cached and missed series with pairwise distinct signatures
    on each side, mergeSerieses returns exactly: for a cached and a missed
    series with the same signature, one series with the labels of the
    cached one and the points of both, cached first, then sorted and
    stripped; every cached series without a missed counterpart, and every
    missed series without a cached one, sorted and stripped. *)
Theorem mergeSerieses_joins cached missed :
  distinctSignatures cached → distinctSignatures missed →
  ∀ r, r ∈ mergeSerieses cached missed ↔
    (∃ c m, c ∈ cached ∧ m ∈ missed ∧ signature c = signature m ∧
            r = sortAndDedup (joinPoints c m)) ∨
    (∃ c, c ∈ cached ∧ (signature c ∉ signature <$> missed) ∧
          r = sortAndDedup c) ∨
    (∃ m, m ∈ missed ∧ (signature m ∉ signature <$> cached) ∧
          r = sortAndDedup m).
Proof.
  intros Hc Hm r.
  assert (Hlook : ∀ k, mergeTable cached missed !! k =
            union_with (λ c m, Some (joinPoints c m))
              (foldl seedCached ∅ cached !! k)
              (missedTable missed !! k)).
  { intros k. by apply foldl_addMissed_lookup. }
  assert (HnoneC : ∀ k, foldl seedCached ∅ cached !! k = None ↔
                        k ∉ signature <$> cached).
  { intros k. rewrite eq_None_not_Some. split.
    - intros Hnot (c & -> & Hin)%list_elem_of_fmap. apply Hnot. exists c.
      by apply seedCached_lookup_Some.
    - intros Hnot [c Hlk]. apply seedCached_lookup_Some in Hlk as [Hin <-]; [|done].
      apply Hnot. by apply list_elem_of_fmap_2. }
  assert (HnoneM : ∀ k,
            missedTable missed !! k = None ↔
            k ∉ signature <$> missed).
  { intros k. rewrite eq_None_not_Some. split.
    - intros Hnot (m & -> & Hin)%list_elem_of_fmap. apply Hnot. exists m.
      by apply missed_lookup_Some.
    - intros Hnot [m Hlk]. apply missed_lookup_Some in Hlk as [Hin <-]; [|done].
      apply Hnot. by apply list_elem_of_fmap_2. }
  rewrite mergeSerieses_elem. split.
  - intros (s & Hs & ->). rewrite Hlook in Hs.
    change (signature (sortAndDedup s)) with (signature s) in Hs.
    destruct (foldl seedCached ∅ cached !! signature s) as [c|] eqn:HC;
      destruct (missedTable missed !! signature s) as [m|] eqn:HM; simpl in Hs.
    + injection Hs as <-.
      apply seedCached_lookup_Some in HC as [? HsigC]; [|done].
      apply missed_lookup_Some in HM as [? HsigM]; [|done].
      left. exists c, m. repeat split; (done || congruence).
    + injection Hs as <-.
      apply HnoneM in HM.
      apply seedCached_lookup_Some in HC as [? _]; [|done].
      right. left. exists c. done.
    + injection Hs as <-.
      apply HnoneC in HC.
      apply missed_lookup_Some in HM as [? _]; [|done].
      right. right. exists m. done.
    + done.
  - intros [(c & m & Hin & Hinm & Hsig & ->)|[(c & Hin & Hnot & ->)|(m & Hin & Hnot & ->)]].
    + exists (joinPoints c m). split; [|done]. rewrite Hlook.
      change (signature (sortAndDedup (joinPoints c m))) with (signature c).
      rewrite (proj2 (seedCached_lookup_Some cached (signature c) c Hc)) by done.
      rewrite (proj2 (missed_lookup_Some missed (signature c) m Hm)) by done.
      done.
    + exists c. split; [|done]. rewrite Hlook.
      change (signature (sortAndDedup c)) with (signature c).
      rewrite (proj2 (seedCached_lookup_Some cached (signature c) c Hc)) by done.
      by rewrite (proj2 (HnoneM (signature c))).
    + exists m. split; [|done]. rewrite Hlook.
      change (signature (sortAndDedup m)) with (signature m).
      rewrite (proj2 (HnoneC (signature m))) by done.
      by rewrite (proj2 (missed_lookup_Some missed (signature m) m Hm)).
Qed.

Lemma mergeSerieses_joins_witness :
  mkSeries {["host" := "h1"]}
    [mkPoint 10 2; mkPoint 20 4; mkPoint 30 3; mkPoint 40 5]
  ∈ mergeSerieses [sampleUnsorted; sampleTwoLabels] [sampleSameHost].
Proof.
  apply (mergeSerieses_joins [sampleUnsorted; sampleTwoLabels] [sampleSameHost]).
  - unfold distinctSignatures. apply (bool_decide_unpack _). by vm_compute.
  - apply NoDup_singleton.
  - left. exists sampleUnsorted, sampleSameHost.
    split; [left|]. split; [left|]. split; reflexivity.
Defined.

Lemma strictlyAscending_sorted l : strictlyAscending l → StronglySorted le_ts l.
Proof.
  unfold strictlyAscending, timestamps.
  induction l as [|a l IH]; [constructor|].
  rewrite fmap_cons. intros [Hall HS]%StronglySorted_cons.
  apply StronglySorted_cons. split; [|by apply IH].
  apply Forall_forall. intros p Hp. rewrite Forall_forall in Hall.
  specialize (Hall (Timestamp p) (list_elem_of_fmap_2 Timestamp _ _ Hp)).
  unfold le_ts. lia.
Qed.

Lemma SortPoints_sorted_id l : StronglySorted le_ts l → SortPoints l = l.
Proof.
  induction l as [|a l IH]; [done|].
  intros [Hall HS]%StronglySorted_cons.
  unfold SortPoints in *. simpl. rewrite (IH HS).
  destruct l as [|b l]; [done|]. simpl.
  apply Forall_cons in Hall as [Hab _]. unfold le_ts in Hab.
  destruct (Z.leb_spec (Timestamp a) (Timestamp b)); [done|lia].
Qed.

Lemma RemoveDuplicatePoints_strict_id l :
  strictlyAscending l → RemoveDuplicatePoints l = l.
Proof.
  unfold strictlyAscending, timestamps.
  induction l as [|a rest IH]; [done|].
  destruct rest as [|a' rest']; [done|].
  change (RemoveDuplicatePoints (a :: a' :: rest')) with
    (if Timestamp a =? Timestamp a'
     then RemoveDuplicatePoints (a' :: rest')
     else a :: RemoveDuplicatePoints (a' :: rest')).
  rewrite fmap_cons. intros [Hall HS]%StronglySorted_cons.
  rewrite fmap_cons in Hall. apply Forall_cons in Hall as [Hlt _].
  destruct (Z.eqb_spec (Timestamp a) (Timestamp a')); [lia|].
  by rewrite (IH HS).
Qed.

Lemma sortAndDedup_fixed s : strictlyAscending (Points s) → sortAndDedup s = s.
Proof.
  intros Hs. unfold sortAndDedup.
  rewrite SortPoints_sorted_id by (by apply strictlyAscending_sorted).
  rewrite RemoveDuplicatePoints_strict_id by done. by destruct s.
Qed.

(** X11.  Merging the result of a merge with nothing changes nothing but,
    possibly, the order of the series: what mergeSerieses returns is already
    sorted and stripped, one series per signature. *)
Theorem mergeSerieses_idempotent cached missed :
  mergeSerieses (mergeSerieses cached missed) [] ≡ₚ mergeSerieses cached missed.
Proof.
  rewrite (mergeSerieses_cached_only _ (mergeSerieses_distinct cached missed)).
  rewrite (list_fmap_ext sortAndDedup id (mergeSerieses cached missed)).
  - by rewrite list_fmap_id.
  - intros i r Hi. simpl. apply sortAndDedup_fixed.
    assert (Hin : r ∈ mergeSerieses cached missed)
      by (apply list_elem_of_lookup; eauto).
    apply mergeSerieses_elem in Hin as (s & _ & ->). apply sortAndDedup_sound.
Qed.

Lemma filter_filter_same {A : Type} (f : A → bool) (l : list A) :
  List.filter f (List.filter f l) = List.filter f l.
Proof.
  induction l as [|a l IH]; simpl; [done|].
  destruct (f a) eqn:Hfa; simpl; [|done]. by rewrite Hfa, IH.
Qed.

(** X12.  filterCachedPoints keeps the series and their labels, and in
    each series exactly the points whose timestamp lies in [start, end] or
    is zero, in their order: a point with timestamp zero is kept even
    outside the window.  Applying it twice is applying it once. *)
Theorem filterCachedPoints_keeps cached wStart wEnd :
  Labels <$> filterCachedPoints cached wStart wEnd = Labels <$> cached ∧
  (∀ (i : nat) c c',
     cached !! i = Some c →
     filterCachedPoints cached wStart wEnd !! i = Some c' →
     (∀ p, p ∈ Points c' ↔
           p ∈ Points c ∧ (wStart ≤ Timestamp p ≤ wEnd ∨ Timestamp p = 0)) ∧
     sublist (Points c') (Points c)) ∧
  filterCachedPoints (filterCachedPoints cached wStart wEnd) wStart wEnd =
    filterCachedPoints cached wStart wEnd.
Proof.
  unfold filterCachedPoints. split; [|split].
  - rewrite <- list_fmap_compose. by apply list_fmap_ext.
  - intros i c c' Hc Hc'. rewrite list_lookup_fmap, Hc in Hc'.
    injection Hc' as <-. simpl. split; [|apply filter_sublist].
    intros p. rewrite !list_elem_of_In, List.filter_In.
    unfold keepCachedPoint.
    destruct (Z.ltb_spec (Timestamp p) wStart), (Z.ltb_spec wEnd (Timestamp p)),
      (Z.eqb_spec (Timestamp p) 0); simpl; intuition lia.
  - rewrite <- list_fmap_compose. apply list_fmap_ext.
    intros i c _. simpl. by rewrite filter_filter_same.
Qed.

Lemma filterCachedPoints_keeps_witness :
  filterCachedPoints
    [mkSeries ∅ [mkPoint 0 1; mkPoint 90 2; mkPoint 150 3; mkPoint 250 4]]
    100 200 = [mkSeries ∅ [mkPoint 0 1; mkPoint 150 3]] ∧
  ∀ p, p ∈ [mkPoint 0 1; mkPoint 150 3] ↔
       p ∈ [mkPoint 0 1; mkPoint 90 2; mkPoint 150 3; mkPoint 250 4] ∧
       (100 ≤ Timestamp p ≤ 200 ∨ Timestamp p = 0).
Proof.
  split; [reflexivity|].
  destruct (filterCachedPoints_keeps
              [mkSeries ∅ [mkPoint 0 1; mkPoint 90 2; mkPoint 150 3; mkPoint 250 4]]
              100 200) as (_ & Hkeeps & _).
  destruct (Hkeeps 0%nat
              (mkSeries ∅ [mkPoint 0 1; mkPoint 90 2; mkPoint 150 3; mkPoint 250 4])
              (mkSeries ∅ [mkPoint 0 1; mkPoint 150 3]) eq_refl eq_refl)
    as [Hmem _].
  exact Hmem.
Defined.

End MergerExtras.

(** * mergeSerieses on the series it is given *)

Section InPlaceMerge.

Lemma load_modify f r st : load (modify f r st) r = f <$> load st r.
Proof. destruct r; simpl; apply list_lookup_alter_eq. Qed.

Lemma load_modify_ne f r r' st : r ≠ r' → load (modify f r st) r' = load st r'.
Proof.
  destruct r, r'; simpl; try done; intros Hne;
    apply list_lookup_alter_ne; congruence.
Qed.

Lemma owned_inj cached missed j refs k k' r :
  owned cached missed j refs →
  refs !! k = Some r → refs !! k' = Some r → k = k'.
Proof.
  intros Hown Hk Hk'. apply Hown in Hk, Hk'. destruct r.
  - destruct Hk as (s & Hs & <-), Hk' as (s' & Hs' & <-). congruence.
  - destruct Hk as (_ & s & Hs & <-), Hk' as (_ & s' & Hs' & <-). congruence.
Qed.

Lemma owned_more cached missed j j' refs :
  (j ≤ j')%nat → owned cached missed j refs → owned cached missed j' refs.
Proof.
  intros Hle Hown k r Hr. specialize (Hown k r Hr).
  destruct r; [done|]. destruct Hown as [Hlt Hs]. split; [lia|done].
Qed.

(** The first loop, on pointers and on values. *)
Lemma seedCachedRef_loop cached missed n :
  (n ≤ length cached)%nat →
  agrees (foldl (seedCachedRef (mkStore cached missed)) ∅ (seq 0 n))
    (mkStore cached missed) (foldl seedCached ∅ (take n cached)) ∧
  owned cached missed 0 (foldl (seedCachedRef (mkStore cached missed)) ∅ (seq 0 n)).
Proof.
  induction n as [|n IH]; intros Hn.
  - split.
    + intros k. simpl. by rewrite !lookup_empty.
    + intros k r. simpl. by rewrite lookup_empty.
  - destruct IH as [Hag Hown]; [lia|].
    destruct (lookup_lt_is_Some_2 cached n ltac:(lia)) as [x Hx].
    rewrite seq_S, foldl_app, (take_S_r _ _ _ Hx), foldl_app. simpl.
    unfold seedCachedRef at 1 3. simpl. rewrite Hx. unfold seedCached at 1.
    split.
    + intros k. rewrite !lookup_insert.
      destruct (decide (signature x = k)) as [<-|Hne].
      * simpl. split; [done|by eexists].
      * apply Hag.
    + intros k r. rewrite lookup_insert.
      destruct (decide (signature x = k)) as [<-|Hne].
      * intros [= <-]. by exists x.
      * apply Hown.
Qed.

(** The second loop: the table of pointers and the store go with the table
    of values; the series still to come are as they were given; every
    series gone through has its signature in the table. *)
Lemma addMissedRef_loop cached missed refs0 values0 j :
  agrees refs0 (mkStore cached missed) values0 →
  owned cached missed 0 refs0 →
  (j ≤ length missed)%nat →
  agrees (foldl addMissedRef (refs0, mkStore cached missed) (seq 0 j)).1
    (foldl addMissedRef (refs0, mkStore cached missed) (seq 0 j)).2
    (foldl addMissed values0 (take j missed)) ∧
  owned cached missed j (foldl addMissedRef (refs0, mkStore cached missed) (seq 0 j)).1 ∧
  (∀ idx, (j ≤ idx)%nat →
     storedMissed (foldl addMissedRef (refs0, mkStore cached missed) (seq 0 j)).2 !! idx =
       missed !! idx) ∧
  (∀ idx s, (idx < j)%nat → missed !! idx = Some s →
     is_Some ((foldl addMissedRef (refs0, mkStore cached missed) (seq 0 j)).1
                !! signature s)).
Proof.
  intros Hag0 Hown0. induction j as [|j IH]; intros Hj.
  - simpl. repeat split; try done. intros idx s Hlt. lia.
  - destruct IH as (Hag & Hown & Hrest & Hseen); [lia|].
    destruct (lookup_lt_is_Some_2 missed j ltac:(lia)) as [x Hx].
    rewrite seq_S, foldl_app, (take_S_r _ _ _ Hx), foldl_app. simpl.
    destruct (foldl addMissedRef (refs0, mkStore cached missed) (seq 0 j))
      as [refs st]. simpl in *.
    assert (Hstep : addMissedRef (refs, st) j =
              match refs !! signature x with
              | None => (<[signature x := MissedRef j]> refs, st)
              | Some found => (refs, modify (appendPoints (Points x)) found st)
              end).
    { unfold addMissedRef. simpl. by rewrite (Hrest j (le_n j)), Hx. }
    rewrite Hstep. clear Hstep. unfold addMissed at 1.
    pose proof (Hag (signature x)) as Hagx.
    destruct (refs !! signature x) as [found|] eqn:Hfound.
    + destruct Hagx as [Hload [fs Hfs]]. rewrite Hfs in *. simpl.
      split; [|split; [|split]].
      * intros k. rewrite lookup_insert.
        destruct (decide (signature x = k)) as [<-|Hne].
        -- rewrite Hfound, load_modify, Hload. simpl. split; [done|by eexists].
        -- pose proof (Hag k) as Hagk.
           destruct (refs !! k) as [r|] eqn:Hr; [|done].
           rewrite load_modify_ne; [done|].
           intros ->. apply Hne. by eapply owned_inj.
      * apply (owned_more cached missed j (S j) refs); [lia|done].
      * intros idx Hidx. rewrite <- (Hrest idx) by lia.
        pose proof (Hown _ _ Hfound) as Hw. destruct found as [i|i]; simpl; [done|].
        apply list_lookup_alter_ne. lia.
      * intros idx s Hlt Hs. destruct (decide (idx = j)) as [->|Hne].
        -- rewrite Hx in Hs. injection Hs as <-. by eexists.
        -- apply (Hseen idx s); [lia|done].
    + rewrite Hagx. simpl. split; [|split; [|split]].
      * intros k. rewrite !lookup_insert.
        destruct (decide (signature x = k)) as [<-|Hne].
        -- simpl. rewrite (Hrest j (le_n j)), Hx. split; [done|by eexists].
        -- apply Hag.
      * intros k r. rewrite lookup_insert.
        destruct (decide (signature x = k)) as [<-|Hne].
        -- intros [= <-]. split; [lia|by exists x].
        -- intros Hr. by apply (owned_more cached missed j (S j) refs ltac:(lia)).
      * intros idx Hidx. apply Hrest. lia.
      * intros idx s Hlt Hs. rewrite lookup_insert.
        destruct (decide (signature x = signature s)); [by eexists|].
        apply (Hseen idx s); [|done].
        destruct (decide (idx = j)) as [->|]; [|lia]. congruence.
Qed.

(** The third loop. *)
Lemma sortRef_loop l acc st :
  foldl sortRef (acc, st) l =
    (acc ++ l.*2, foldl (λ st kv, modify sortAndDedup kv.2 st) st l).
Proof.
  revert acc st. induction l as [|kv l IH]; intros acc st; simpl.
  - by rewrite app_nil_r.
  - unfold sortRef at 2. simpl. rewrite IH. by rewrite <- app_assoc.
Qed.

Lemma sortAll_load (l : list (string * seriesRef)) st r :
  NoDup l.*2 →
  load (foldl (λ st kv, modify sortAndDedup kv.2 st) st l) r =
    if decide (r ∈ l.*2) then sortAndDedup <$> load st r else load st r.
Proof.
  revert st. induction l as [|kv l IH]; intros st Hnd.
  - done.
  - rewrite fmap_cons in Hnd. apply NoDup_cons in Hnd as [Hfresh Hnd].
    cbn [foldl]. rewrite fmap_cons. rewrite IH by done. destruct (decide (r = kv.2)) as [->|Hne].
    + rewrite decide_False by done. rewrite load_modify.
      rewrite decide_True; [done|]. apply elem_of_cons. by left.
    + rewrite load_modify_ne by done.
      destruct (decide (r ∈ l.*2)) as [Hin|Hnin].
      * rewrite decide_True; [done|]. apply elem_of_cons. by right.
      * rewrite decide_False; [done|]. rewrite elem_of_cons. tauto.
Qed.

Lemma owned_NoDup cached missed j (refs : gmap string seriesRef) :
  owned cached missed j refs → NoDup (map_to_list refs).*2.
Proof.
  intros Hown. apply NoDup_fmap_2_strong; [|apply NoDup_map_to_list].
  intros [k r] [k' r'] Hin Hin' Heq. simpl in Heq. subst r'.
  apply elem_of_map_to_list in Hin, Hin'.
  by rewrite (owned_inj _ _ _ _ _ _ _ Hown Hin Hin').
Qed.

(** The state after the first two loops. *)
Lemma mergeSeriesesInPlace_table cached missed :
  ∃ refs st,
    mergeSeriesesInPlace cached missed =
      ((map_to_list refs).*2,
       foldl (λ st kv, modify sortAndDedup kv.2 st) st (map_to_list refs)) ∧
    agrees refs st (mergeTable cached missed) ∧
    owned cached missed (length missed) refs ∧
    (∀ idx, (length missed ≤ idx)%nat → storedMissed st !! idx = missed !! idx) ∧
    (∀ idx s, missed !! idx = Some s → is_Some (refs !! signature s)).
Proof.
  destruct (seedCachedRef_loop cached missed (length cached) (le_n _))
    as [Hag1 Hown1].
  rewrite firstn_all in Hag1.
  destruct (addMissedRef_loop cached missed _ _ (length missed) Hag1 Hown1 (le_n _))
    as (Hag & Hown & Hrest & Hseen).
  rewrite firstn_all in Hag.
  unfold mergeSeriesesInPlace.
  destruct (foldl addMissedRef _ (seq 0 (length missed))) as [refs st].
  simpl in *. exists refs, st. rewrite sortRef_loop. simpl.
  split; [done|]. split; [exact Hag|]. split; [exact Hown|].
  split; [exact Hrest|].
  intros idx s Hs. apply (Hseen idx s); [|done].
  by apply lookup_lt_Some in Hs.
Qed.

Lemma omap_load_all st (g : string * seriesRef → Series) l :
  (∀ kv, kv ∈ l → load st kv.2 = Some (g kv)) →
  omap (load st) l.*2 = g <$> l.
Proof.
  induction l as [|kv l IH]; intros Hall; [done|].
  rewrite !fmap_cons. cbn [omap list_omap]. rewrite (Hall kv) by (by left).
  f_equal. apply IH. intros kv' Hin. apply Hall. by right.
Qed.

(** The series behind the pointers returned are the series of
    [mergeSerieses], up to their order. *)
Lemma mergedValues_mergeSerieses cached missed :
  mergedValues cached missed ≡ₚ mergeSerieses cached missed.
Proof.
  destruct (mergeSeriesesInPlace_table cached missed)
    as (refs & st & Heq & Hag & Hown & _ & _).
  unfold mergedValues. rewrite Heq. simpl.
  set (value := λ r : seriesRef, default (mkSeries ∅ []) (load st r)).
  assert (Htable : mergeTable cached missed = value <$> refs).
  { apply map_eq. intros k. rewrite lookup_fmap. specialize (Hag k).
    destruct (refs !! k) as [r|]; simpl; [|done].
    destruct Hag as [Hload [s Hs]]. unfold value. by rewrite Hload, Hs. }
  rewrite mergeSerieses_table, Htable, map_to_list_fmap.
  rewrite <- !list_fmap_compose.
  assert (Hall : ∀ kv, kv ∈ map_to_list refs →
            load (foldl (λ st kv, modify sortAndDedup kv.2 st) st (map_to_list refs))
              kv.2 = Some (sortAndDedup (value kv.2))).
  { intros [k r] Hin. simpl.
    rewrite sortAll_load by (by eapply owned_NoDup).
    rewrite decide_True by (by apply (list_elem_of_fmap_2 snd _ (k, r))).
    apply elem_of_map_to_list in Hin. specialize (Hag k). rewrite Hin in Hag.
    destruct Hag as [Hload [s Hs]]. unfold value. by rewrite Hload, Hs. }
  by rewrite (omap_load_all _ (λ kv, sortAndDedup (value kv.2)) _ Hall).
Qed.

(** Fetched series with pairwise distinct signatures, merged with no
    cached series, are each sorted and stripped where they are. *)
Lemma missedAfterMerge_fresh missed :
  distinctSignatures missed →
  missedAfterMerge [] missed = sortAndDedup <$> missed.
Proof.
  intros Hnd.
  destruct (mergeSeriesesInPlace_table [] missed)
    as (refs & st & Heq & Hag & Hown & Hrest & Hseen).
  unfold missedAfterMerge. rewrite Heq. simpl.
  apply list_eq. intros idx.
  change (load (foldl (λ st kv, modify sortAndDedup kv.2 st) st (map_to_list refs))
            (MissedRef idx) = (sortAndDedup <$> missed) !! idx).
  rewrite sortAll_load by (by eapply owned_NoDup).
  rewrite list_lookup_fmap.
  destruct (missed !! idx) as [s|] eqn:Hs.
  - destruct (Hseen idx s Hs) as [r Hr].
    assert (r = MissedRef idx) as ->.
    { pose proof (Hown _ _ Hr) as Hw. destruct r as [i|i].
      - destruct Hw as (s' & Hs' & _). by rewrite lookup_nil in Hs'.
      - destruct Hw as (_ & s' & Hs' & Hsig). f_equal.
        apply (NoDup_lookup (signature <$> missed) i idx (signature s)); [done| |].
        + by rewrite list_lookup_fmap, Hs', <- Hsig.
        + by rewrite list_lookup_fmap, Hs. }
    rewrite decide_True
      by (apply (list_elem_of_fmap_2 snd _ (signature s, MissedRef idx));
          by apply elem_of_map_to_list).
    specialize (Hag (signature s)). rewrite Hr in Hag. destruct Hag as [Hload _].
    rewrite Hload. unfold mergeTable. simpl.
    rewrite (foldl_addMissed_lookup missed ∅ (signature s) Hnd), lookup_empty.
    assert (Hm : missedTable missed !! signature s = Some s).
    { apply missed_lookup_Some; [done|]. split; [|done].
      by eapply list_elem_of_lookup_2. }
    by rewrite Hm.
  - assert (Hnin : MissedRef idx ∉ (map_to_list refs).*2).
    { intros ([k r] & Hr & Hin)%list_elem_of_fmap. simpl in Hr. subst r.
      apply elem_of_map_to_list, Hown in Hin as (_ & s & Hs' & _). congruence. }
    rewrite decide_False by done. simpl. rewrite Hrest; [done|].
    by apply lookup_ge_None.
Qed.

Lemma derefSerieses_Some seriesList :
  derefSerieses (Some <$> seriesList) = Ret seriesList.
Proof.
  unfold derefSerieses. induction seriesList as [|s l IH]; [done|].
  rewrite fmap_cons. cbn [omapM]. rewrite IH. done.
Qed.

End InPlaceMerge.

(** ** Further properties of the executors and of the orchestrator *)

Section ExecutorExtras.

Lemma Unmarshal_nil env : Unmarshal env [] = None.
Proof. done. Qed.

(** X13.  The loop over the misses of a PromQL unit.  When every fetch
    succeeds, the series fetched are appended in the order of the misses;
    when a fetch fails after successful ones, the unit gets the error and
    the text of the failing query, and what comes after the failing miss
    plays no part. *)
Theorem fetchMisses_outcome env q promQuery step :
  (∀ misses fetched missedSeries,
     Forall2 (λ miss series,
        execPromQuery q
          (BuildPromQuery env promQuery step (start miss) (end_ miss)) =
          Ret (series, None)) misses fetched →
     fetchMisses env q promQuery step misses missedSeries =
       Ret (inr (missedSeries ++ concat fetched))) ∧
  (∀ before fetched miss after series e missedSeries,
     Forall2 (λ miss series,
        execPromQuery q
          (BuildPromQuery env promQuery step (start miss) (end_ miss)) =
          Ret (series, None)) before fetched →
     execPromQuery q
       (BuildPromQuery env promQuery step (start miss) (end_ miss)) =
       Ret (series, Some e) →
     fetchMisses env q promQuery step (before ++ miss :: after) missedSeries =
       Ret (inl (e, PromRange_Query
                      (BuildPromQuery env promQuery step (start miss) (end_ miss))))).
Proof.
  split.
  - intros misses fetched missedSeries Hall. revert missedSeries.
    induction Hall as [|miss series misses fetched Hfetch _ IH]; intros acc; simpl.
    + by rewrite app_nil_r.
    + rewrite Hfetch. simpl. rewrite IH. by rewrite <- app_assoc.
  - intros before fetched miss after series e missedSeries Hall Hfail.
    revert missedSeries.
    induction Hall as [|miss' series' before fetched Hfetch _ IH]; intros acc; simpl.
    + by rewrite Hfail.
    + rewrite Hfetch. simpl. apply IH.
Qed.

Lemma fetchMisses_outcome_witness :
  fetchMisses (sampleEnv arrivalInOrder) (sampleQuerier (∅, None))
    (mkPromQuery "up" false) 60 [mkMiss 100 119; mkMiss 181 200] [] =
    Ret (inr []).
Proof.
  destruct (fetchMisses_outcome (sampleEnv arrivalInOrder)
              (sampleQuerier (∅, None)) (mkPromQuery "up" false) 60)
    as [Hall _].
  apply (Hall [mkMiss 100 119; mkMiss 181 200] [[]; []] []).
  repeat constructor.
Defined.

(** X14.  A PromQL unit that does not read the cache (the request sets
    NoCache, or the querier has no cache, or no key was generated for the
    sub-query) makes one fetch over the whole window.  When the fetch of
    the reader succeeds it sends the fetched series as mergeSerieses, called
    with no cached series, has left them: for fetched series with pairwise
    distinct signatures these are the fetched series in their order, each
    sorted by timestamp and stripped of duplicate timestamps.  When the
    fetch fails it sends the error with the text of the query. *)
Theorem promUnit_without_cache env q params cacheKeys name promQuery :
  NoCache params = true ∨ cache q = None ∨ cacheKeys !! name = None →
  let query :=
    BuildPromQuery env promQuery (Step params) (Start params) (End_ params) in
  (∀ rd series,
     reader q = Some rd →
     execPromQuery q query = Ret (series, None) →
     promUnit env q params cacheKeys name promQuery =
       Ret (mkChannelResult (missedAfterMerge [] series) [] None name
              (PromQuery_Query promQuery)) ∧
     (distinctSignatures series →
      missedAfterMerge [] series = sortAndDedup <$> series)) ∧
  (∀ series e,
     execPromQuery q query = Ret (series, Some e) →
     promUnit env q params cacheKeys name promQuery =
       Ret (mkChannelResult [] [] (Some e) name (PromRange_Query query))).
Proof.
  intros Hbypass query.
  assert (Hpayload : cachedPayload q params cacheKeys name = []).
  { unfold cachedPayload.
    destruct (cacheKeys !! name) as [key|], (cache q) as [c|]; try done.
    destruct Hbypass as [->|[?|?]]; done. }
  split.
  - intros rd series _ Hfetch. split; [|apply missedAfterMerge_fresh].
    unfold promUnit. rewrite Hpayload.
    unfold querier_findMissingTimeRanges, decodedForMerge.
    rewrite Unmarshal_nil. simpl.
    fold query. rewrite Hfetch. done.
  - intros series e Hfetch. unfold promUnit. rewrite Hpayload.
    unfold querier_findMissingTimeRanges. rewrite Unmarshal_nil. simpl.
    fold query. rewrite Hfetch. done.
Qed.

Lemma promUnit_without_cache_witness :
  promUnit (sampleEnv arrivalInOrder) samplePromQuerier
    (mkParams 100 200 60 None true) {["A" := "key-A"]} "A" (mkPromQuery "up" false) =
    Ret (mkChannelResult
           [mkSeries {["job" := "api"]} [mkPoint 10 2; mkPoint 20 3; mkPoint 30 1];
            mkSeries {["job" := "web"]} [mkPoint 5 4; mkPoint 15 5]]
           [] None "A" "up").
Proof.
  destruct (promUnit_without_cache (sampleEnv arrivalInOrder)
              samplePromQuerier (mkParams 100 200 60 None true)
              {["A" := "key-A"]} "A" (mkPromQuery "up" false)) as [Hok _].
  - by left.
  - destruct (Hok sampleUnsortedReader
                [mkSeries {["job" := "api"]} [mkPoint 30 1; mkPoint 10 2; mkPoint 20 3];
                 mkSeries {["job" := "web"]} [mkPoint 15 5; mkPoint 5 4]]
                eq_refl eq_refl) as [Hsent Hsorted].
    rewrite Hsent, Hsorted; [reflexivity|].
    unfold distinctSignatures. apply (bool_decide_unpack _). by vm_compute.
Defined.

(** A payload decoded in part: the decoder has returned an error and left
    a nil pointer in the slice; the unit fetches the whole window and then
    merges, and the merge ends the program. *)
Example promUnit_partly_decoded_payload :
  promUnit samplePartialEnv samplePartialQuerier
    (mkParams 100 200 60 None false) {["A" := "key-A"]} "A" (mkPromQuery "up" false) =
    Panic "invalid memory address or nil pointer dereference".
Proof. reflexivity. Qed.

(** X15.  A PromQL unit whose cached series hold the whole window
    (cachedStart ≤ start ≤ end ≤ cachedEnd after the flux cap) makes no
    fetch: whatever the reader is, even none, it sends the cached series
    merged with nothing, which for cached series with distinct signatures
    are the cached series sorted and stripped. *)
Theorem promUnit_full_hit env q params cacheKeys name promQuery cached
    cachedStart cachedEnd :
  Unmarshal env (cachedPayload q params cacheKeys name) = Some cached →
  cachedCoverage (Step params) cached (fluxInterval q) (clock env name) =
    Ret (cachedStart, cachedEnd) →
  (cachedStart ≤ Start params)%Z → (Start params ≤ End_ params)%Z →
  (End_ params ≤ cachedEnd)%Z →
  (Int64.min_int64 < Start params)%Z → (End_ params < Int64.max_int64)%Z →
  promUnit env q params cacheKeys name promQuery =
    Ret (mkChannelResult (mergeSerieses cached []) [] None name
           (PromQuery_Query promQuery)) ∧
  (distinctSignatures cached → mergeSerieses cached [] ≡ₚ sortAndDedup <$> cached).
Proof.
  intros Hcached Hcov H1 Hw H2 Hlo Hhi. split; [|apply mergeSerieses_cached_only].
  unfold promUnit, querier_findMissingTimeRanges, decodedForMerge.
  rewrite Hcached.
  rewrite (findMissingTimeRanges_unfold _ _ _ _ _ _ _ _ Hcov).
  destruct (classify_covering (Start params) (End_ params) cachedStart cachedEnd)
    as [-> ->]; try done.
  simpl. by rewrite derefSerieses_Some.
Qed.

Lemma promUnit_full_hit_witness :
  promUnit sampleDecodingEnv sampleCachingQuerier
    (mkParams 130 170 60 None false) {["A" := "key-A"]} "A"
    (mkPromQuery "up" false) =
    Ret (mkChannelResult (mergeSerieses sampleCached []) [] None "A" "up").
Proof.
  apply (promUnit_full_hit sampleDecodingEnv sampleCachingQuerier
           (mkParams 130 170 60 None false) {["A" := "key-A"]} "A"
           (mkPromQuery "up" false) sampleCached 120 180);
    (reflexivity || (simpl; lia)).
Defined.

End ExecutorExtras.

Section OrchestratorExtras.

Lemma omapM_cons_inv {A B : Type} (f : A → outcome B) a l bs :
  omapM f (a :: l) = Ret bs →
  ∃ b bs', f a = Ret b ∧ omapM f l = Ret bs' ∧ bs = b :: bs'.
Proof.
  intros (b & bs' & ? & ? & ->)%omapM_Forall2%Forall2_cons_inv_l.
  exists b, bs'. by rewrite omapM_Forall2.
Qed.

Lemma omapM_cons {A B : Type} (f : A → outcome B) a l b bs :
  f a = Ret b → omapM f l = Ret bs → omapM f (a :: l) = Ret (b :: bs).
Proof. intros Ha Hl. simpl. rewrite Ha. simpl. by rewrite Hl. Qed.

(** The units of a fan-out do not depend on one another: another order
    of arrival gives the same results in another order. *)
Lemma omapM_perm {A B : Type} (f : A → outcome B) l l' bs :
  l ≡ₚ l' → omapM f l = Ret bs → ∃ bs', omapM f l' = Ret bs' ∧ bs ≡ₚ bs'.
Proof.
  intros Hperm. revert bs.
  induction Hperm as [|x l l' _ IH|x y l|l l' l'' _ IH1 _ IH2]; intros bs Hbs.
  - exists bs. by split.
  - apply omapM_cons_inv in Hbs as (b & bs1 & Hb & Hbs1 & ->).
    destruct (IH _ Hbs1) as (bs2 & Hbs2 & Hp).
    exists (b :: bs2). split; [by apply omapM_cons|by constructor].
  - apply omapM_cons_inv in Hbs as (b1 & bs1 & Hb1 & Hbs1 & ->).
    apply omapM_cons_inv in Hbs1 as (b2 & bs2 & Hb2 & Hbs2 & ->).
    exists (b2 :: b1 :: bs2). split; [by repeat apply omapM_cons|].
    apply Permutation_swap.
  - destruct (IH1 _ Hbs) as (bs1 & Hbs1 & Hp1).
    destruct (IH2 _ Hbs1) as (bs2 & Hbs2 & Hp2).
    exists bs2. split; [done|by etrans].
Qed.

Lemma filter_bool_perm {A : Type} (f : A → bool) l l' :
  l ≡ₚ l' → List.filter f l ≡ₚ List.filter f l'.
Proof.
  induction 1 as [|x l l' _ IH|x y l|l l' l'' _ IH1 _ IH2]; simpl.
  - done.
  - destruct (f x); [by constructor|done].
  - destruct (f x), (f y); try done. apply Permutation_swap.
  - by etrans.
Qed.

Lemma filter_split_perm {A : Type} (f : A → bool) l :
  List.filter f l ++ List.filter (λ a, negb (f a)) l ≡ₚ l.
Proof.
  induction l as [|a l IH]; simpl; [done|].
  destruct (f a); simpl.
  - by constructor.
  - rewrite <- Permutation_middle. by constructor.
Qed.

Lemma errorTable_fresh ch name :
  name ∉ Name <$> ch → errorTable ch !! name = None.
Proof.
  intros Hfresh. apply eq_None_not_Some. intros [e He].
  apply errorTable_origin in He as (r & Hin & <- & _).
  apply Hfresh. by apply list_elem_of_fmap_2.
Qed.

Lemma errorTable_keys ch :
  NoDup (Name <$> ch) →
  (map_to_list (errorTable ch)).*1 ≡ₚ
    Name <$> List.filter (λ r, negb (succeeded r)) ch.
Proof.
  induction ch as [|r ch IH] using rev_ind; intros Hnd.
  - unfold errorTable. simpl. by rewrite map_to_list_empty.
  - rewrite fmap_app in Hnd. apply NoDup_app in Hnd as (Hnd & Hfresh & _).
    rewrite errorTable_snoc, List.filter_app, fmap_app. simpl.
    unfold tableStep, succeeded at 2.
    destruct (Err r) as [e|] eqn:He; simpl.
    + rewrite map_to_list_insert.
      * rewrite fmap_cons. simpl. rewrite (IH Hnd).
        by rewrite (Permutation_app_comm _ [Name r]).
      * apply errorTable_fresh. intros Hin. apply (Hfresh _ Hin). left.
    + rewrite app_nil_r. by apply IH.
Qed.

Lemma errorTable_perm ch ch' :
  NoDup (Name <$> ch) → ch ≡ₚ ch' → errorTable ch = errorTable ch'.
Proof.
  intros Hnd Hperm.
  assert (Hnd' : NoDup (Name <$> ch')) by (by rewrite <- Hperm).
  apply map_eq. intros k. apply option_eq. intros e. split.
  - intros (r & Hin & <- & He)%errorTable_origin.
    apply errorTable_lookup; [done| |done]. by rewrite <- Hperm.
  - intros (r & Hin & <- & He)%errorTable_origin.
    apply errorTable_lookup; [done| |done]. by rewrite Hperm.
Qed.

Lemma errorList_nil_iff ch :
  errorList ch = [] ↔ Forall (λ r, Err r = None) ch.
Proof.
  split; [|apply errorList_empty].
  intros Hnil. apply Forall_forall. intros r Hin.
  destruct (Err r) as [e|] eqn:He; [|done].
  pose proof (errorList_nonempty ch r Hin ltac:(by eexists)) as Hlen.
  rewrite Hnil in Hlen. simpl in Hlen. lia.
Qed.

Lemma errorTable_empty_iff ch :
  NoDup (Name <$> ch) → errorTable ch = ∅ ↔ Forall (λ r, Err r = None) ch.
Proof.
  intros Hnd. split; [|apply errorTable_empty].
  intros Hempty. apply Forall_forall. intros r Hin.
  destruct (Err r) as [e|] eqn:He; [|done].
  pose proof (errorTable_lookup ch r e Hnd Hin He) as Hlook.
  rewrite Hempty, lookup_empty in Hlook. done.
Qed.

(** What the fan-in leaves of a channel with one result per name: every
    name is among the results or in the error map, never both, and the
    error is nil exactly when the map is empty. *)
Lemma drain_accounting failure ch :
  NoDup (Name <$> ch) →
  ∃ results errs err,
    drain failure ch = (Some results, Some errs, err) ∧
    (QueryName <$> results) ++ (map_to_list errs).*1 ≡ₚ Name <$> ch ∧
    (err = None ↔ errs = ∅) ∧
    (err = None ↔ length results = length ch).
Proof.
  intros Hnd. rewrite drain_unfold. eexists _, _, _. split; [done|].
  split; [|split].
  - rewrite <- list_fmap_compose, (errorTable_keys ch Hnd), <- fmap_app.
    by rewrite filter_split_perm.
  - rewrite (errorTable_empty_iff ch Hnd), <- errorList_nil_iff.
    by destruct (errorList ch).
  - rewrite length_fmap.
    assert (Hlen : length (List.filter succeeded ch) +
                   length (List.filter (λ r, negb (succeeded r)) ch) = length ch).
    { rewrite <- length_app. by rewrite filter_split_perm. }
    assert (Hfail : length (errorList ch) =
                    length (List.filter (λ r, negb (succeeded r)) ch)).
    { clear. unfold errorList, succeeded.
      induction ch as [|r ch IH]; simpl; [done|].
      change (list_omap _ _ Err ch) with (omap Err ch).
      destruct (Err r); simpl; by rewrite IH. }
    case_decide; split; (done || lia).
Qed.

(** X16.  The ClickHouse executor accounts for every enabled sub-query
    exactly once: when all units return, each enabled sub-query has either a
    result or an entry in the error map, a disabled one has neither, and
    the error returned is nil exactly when the map is empty, that is when
    there are as many results as enabled sub-queries. *)
Theorem runClickHouseQueries_accounting env q params cq ch :
  CompositeQuery_ params = Some cq →
  fanOutClickHouse env q cq = Ret ch →
  ∃ results errs err,
    runClickHouseQueries env q params = Ret (Some results, Some errs, err) ∧
    (QueryName <$> results) ++ (map_to_list errs).*1 ≡ₚ
      (enabledClickHouseQueries cq).*1 ∧
    (err = None ↔ errs = ∅) ∧
    (err = None ↔ length results = length (enabledClickHouseQueries cq)) ∧
    (∀ name chq,
       ClickHouseQueries cq !! name = Some chq →
       ClickHouseQuery_Disabled chq = true →
       (name ∉ QueryName <$> results) ∧ errs !! name = None).
Proof.
  intros Hcq Hch.
  pose proof (arrange_perm (scheduler env) _ (enabledClickHouseQueries cq)) as Hperm.
  assert (Hnames : Name <$> ch ≡ₚ (enabledClickHouseQueries cq).*1).
  { rewrite <- Hperm.
    rewrite (fanOut_names (clickHouseUnit q) _ _
               (λ n a r H, proj1 (clickHouseUnit_inv q n a r H)) Hch). done. }
  assert (Hnd : NoDup (Name <$> ch)).
  { rewrite Hnames. apply enabledClickHouse_NoDup. }
  destruct (drain_accounting ErrInClickHouseQueries ch Hnd)
    as (results & errs & err & Hdrain & Hall & Herr & Hlen).
  exists results, errs, err. split.
  { unfold runClickHouseQueries. rewrite Hcq, Hch. simpl. by rewrite Hdrain. }
  split; [by rewrite Hall|]. split; [done|]. split.
  { rewrite Hlen, <- (length_fmap Name ch), Hnames. by rewrite length_fmap. }
  intros name chq Hlook Hdis.
  assert (Hout : name ∉ (enabledClickHouseQueries cq).*1).
  { intros ([n c] & -> & Hin)%list_elem_of_fmap.
    apply enabledClickHouse_elem in Hin as [Hl Hen]. simpl in *. congruence. }
  rewrite <- Hnames, <- Hall in Hout.
  rewrite elem_of_app in Hout. split; [tauto|].
  apply eq_None_not_Some. intros [e He]. apply Hout. right.
  apply (list_elem_of_fmap_2 fst _ (name, e)). by apply elem_of_map_to_list.
Qed.

(** X17.  The PromQL executor accounts for every enabled sub-query
    exactly once, in the same way. *)
Theorem runPromQueries_accounting env q params cq ch :
  CompositeQuery_ params = Some cq →
  fanOutProm env q params cq = Ret ch →
  ∃ results errs err,
    runPromQueries env q params = Ret (Some results, Some errs, err) ∧
    (QueryName <$> results) ++ (map_to_list errs).*1 ≡ₚ
      (enabledPromQueries cq).*1 ∧
    (err = None ↔ errs = ∅) ∧
    (err = None ↔ length results = length (enabledPromQueries cq)) ∧
    (∀ name promQuery,
       PromQueries cq !! name = Some promQuery →
       PromQuery_Disabled promQuery = true →
       (name ∉ QueryName <$> results) ∧ errs !! name = None).
Proof.
  intros Hcq Hch.
  pose proof (arrange_perm (scheduler env) _ (enabledPromQueries cq)) as Hperm.
  assert (Hnames : Name <$> ch ≡ₚ (enabledPromQueries cq).*1).
  { rewrite <- Hperm.
    rewrite (fanOut_names (promUnit env q params
               (GenerateKeys (keyGenerator q) params)) _ _
               (promUnit_name env q params _) Hch). done. }
  assert (Hnd : NoDup (Name <$> ch)).
  { rewrite Hnames. apply enabledProm_NoDup. }
  destruct (drain_accounting ErrInPromQueries ch Hnd)
    as (results & errs & err & Hdrain & Hall & Herr & Hlen).
  exists results, errs, err. split.
  { unfold runPromQueries. rewrite Hcq, Hch. simpl. by rewrite Hdrain. }
  split; [by rewrite Hall|]. split; [done|]. split.
  { rewrite Hlen, <- (length_fmap Name ch), Hnames. by rewrite length_fmap. }
  intros name promQuery Hlook Hdis.
  assert (Hout : name ∉ (enabledPromQueries cq).*1).
  { intros ([n c] & -> & Hin)%list_elem_of_fmap.
    apply enabledProm_elem in Hin as [Hl Hen]. simpl in *. congruence. }
  rewrite <- Hnames, <- Hall in Hout.
  rewrite elem_of_app in Hout. split; [tauto|].
  apply eq_None_not_Some. intros [e He]. apply Hout. right.
  apply (list_elem_of_fmap_2 fst _ (name, e)). by apply elem_of_map_to_list.
Qed.

Lemma runClickHouseQueries_accounting_witness :
  ∃ results errs err,
    runClickHouseQueries (sampleEnv arrivalReversed) (sampleQuerier (∅, None))
      (sampleClickHouseRequest sampleThreeQueries PanelTypeGraph) =
      Ret (Some results, Some errs, err) ∧
    (QueryName <$> results) ++ (map_to_list errs).*1 ≡ₚ
      (enabledClickHouseQueries
         (mkCompositeQuery ∅ sampleThreeQueries ∅ PanelTypeGraph
            QueryTypeClickHouseSQL)).*1.
Proof.
  edestruct (runClickHouseQueries_accounting (sampleEnv arrivalReversed)
               (sampleQuerier (∅, None))
               (sampleClickHouseRequest sampleThreeQueries PanelTypeGraph)
               (mkCompositeQuery ∅ sampleThreeQueries ∅ PanelTypeGraph
                  QueryTypeClickHouseSQL))
    as (results & errs & err & Hret & Hall & _).
  - reflexivity.
  - by vm_compute.
  - exists results, errs, err. split; [exact Hret | exact Hall].
Defined.

Lemma runPromQueries_accounting_witness :
  ∃ results errs err,
    runPromQueries (sampleEnv arrivalInOrder) (sampleQuerier (∅, None))
      (mkParams 100 200 60
         (Some (mkCompositeQuery ∅ ∅
                  (<["A" := mkPromQuery "up" false]>
                     {["B" := mkPromQuery "down" true]})
                  PanelTypeGraph QueryTypePromQL)) false) =
      Ret (Some results, Some errs, err) ∧
    (err = None ↔ length results = 1%nat).
Proof.
  edestruct (runPromQueries_accounting (sampleEnv arrivalInOrder)
               (sampleQuerier (∅, None))
               (mkParams 100 200 60
                  (Some (mkCompositeQuery ∅ ∅
                           (<["A" := mkPromQuery "up" false]>
                              {["B" := mkPromQuery "down" true]})
                           PanelTypeGraph QueryTypePromQL)) false))
    as (results & errs & err & Hret & _ & _ & Hlen & _).
  - reflexivity.
  - by vm_compute.
  - exists results, errs, err. split; [exact Hret | exact Hlen].
Defined.

Lemma final_error_None cq results err :
  (if decide (PanelType_ cq = PanelTypeValue)
   then valuePanelCheck cq results err else err) = None →
  err = None.
Proof.
  destruct err as [e|]; [|done]. intros Hnone.
  destruct (decide (PanelType_ cq = PanelTypeValue)); [|done].
  destruct (valuePanelCheck_keeps_failure cq results (Some e)) as [e' He'];
    [by eexists|]. congruence.
Qed.

Lemma valuePanelCheck_perm cq results results' err :
  results ≡ₚ results' →
  valuePanelCheck cq (Some results) err = valuePanelCheck cq (Some results') err.
Proof.
  intros Hperm. unfold valuePanelCheck, len. simpl.
  rewrite <- (Permutation_length Hperm).
  destruct (decide (1 < length results ∧ 1 < EnabledQueries cq)); [done|].
  destruct results as [|r [|r' rest]].
  - by apply Permutation_nil_l in Hperm as <-.
  - by apply Permutation_singleton_l in Hperm as <-.
  - pose proof (Permutation_length Hperm) as Hlen. simpl in Hlen.
    destruct results' as [|? [|? ?]]; simpl in Hlen; (done || lia).
Qed.

Lemma QueryRange_clickhouse env q params keys cq ch :
  CompositeQuery_ params = Some cq →
  QueryType_ cq = QueryTypeClickHouseSQL →
  fanOutClickHouse env q cq = Ret ch →
  QueryRange env q params keys =
    Ret (Some (seriesResult <$> List.filter succeeded ch), Some (errorTable ch),
         if decide (PanelType_ cq = PanelTypeValue)
         then valuePanelCheck cq
                (Some (seriesResult <$> List.filter succeeded ch))
                (if decide (0 < length (errorList ch))
                 then Some ErrInClickHouseQueries else None)
         else (if decide (0 < length (errorList ch))
               then Some ErrInClickHouseQueries else None)).
Proof.
  intros Hcq Hty Hch. apply QueryRange_unfold; [done|].
  unfold dispatch. rewrite Hty. unfold runClickHouseQueries.
  rewrite Hcq, Hch. simpl. by rewrite drain_unfold.
Qed.

(** X18.  On the ClickHouseSQL path what QueryRange returns does not
    depend on the order in which the units finish: under any other
    scheduling (and any other environment) the call returns the same error
    map and the same error, and the same results in some order. *)
Theorem QueryRange_clickhouse_any_order env env' q params keys cq results errs err :
  CompositeQuery_ params = Some cq →
  QueryType_ cq = QueryTypeClickHouseSQL →
  QueryRange env q params keys = Ret (Some results, errs, err) →
  ∃ results',
    QueryRange env' q params keys = Ret (Some results', errs, err) ∧
    results ≡ₚ results'.
Proof.
  intros Hcq Hty Hret.
  destruct (fanOutClickHouse env q cq) as [ch|msg] eqn:Hch.
  2: { unfold QueryRange, dispatch, runClickHouseQueries in Hret.
       rewrite Hcq, Hty, Hch in Hret. done. }
  rewrite (QueryRange_clickhouse _ _ _ _ _ _ Hcq Hty Hch) in Hret.
  pose proof (arrange_perm (scheduler env) _ (enabledClickHouseQueries cq)) as Hp.
  pose proof (arrange_perm (scheduler env') _ (enabledClickHouseQueries cq)) as Hp'.
  destruct (omapM_perm (λ kv, clickHouseUnit q kv.1 kv.2)
              (arrange (scheduler env) _ (enabledClickHouseQueries cq))
              (arrange (scheduler env') _ (enabledClickHouseQueries cq)) ch)
    as (ch' & Hch' & Hperm); [by rewrite Hp, Hp'|exact Hch|].
  assert (Hnd : NoDup (Name <$> ch)).
  { rewrite (fanOut_names (clickHouseUnit q) _ _
               (λ n a r H, proj1 (clickHouseUnit_inv q n a r H)) Hch).
    rewrite Hp. apply enabledClickHouse_NoDup. }
  assert (Hres : seriesResult <$> List.filter succeeded ch ≡ₚ
                 seriesResult <$> List.filter succeeded ch').
  { by rewrite (filter_bool_perm succeeded ch ch' Hperm). }
  assert (Hlen : length (errorList ch') = length (errorList ch)).
  { unfold errorList. by rewrite Hperm. }
  exists (seriesResult <$> List.filter succeeded ch').
  rewrite (QueryRange_clickhouse env' _ _ _ _ _ Hcq Hty Hch').
  rewrite <- (errorTable_perm ch ch' Hnd Hperm), Hlen.
  rewrite <- (valuePanelCheck_perm cq _ _ _ Hres).
  injection Hret as <- <- <-. by split.
Qed.

Lemma QueryRange_clickhouse_any_order_witness :
  ∃ results',
    QueryRange (sampleEnv arrivalReversed) (sampleQuerier (∅, None))
      (sampleClickHouseRequest sampleTwoQueries PanelTypeValue) ∅ =
      Ret (Some results', Some {["A" := sampleTimeout]},
           Some ErrInClickHouseQueries) ∧
    [mkResult "B" [mkSeries ∅ [mkPoint 10 2]] []] ≡ₚ results'.
Proof.
  apply (QueryRange_clickhouse_any_order (sampleEnv arrivalInOrder)
           (sampleEnv arrivalReversed) (sampleQuerier (∅, None))
           (sampleClickHouseRequest sampleTwoQueries PanelTypeValue) ∅
           (mkCompositeQuery ∅ sampleTwoQueries ∅ PanelTypeValue
              QueryTypeClickHouseSQL)).
  - reflexivity.
  - reflexivity.
  - by vm_compute.
Defined.

Lemma listUnit_returns q rd name text :
  reader q = Some rd →
  (GetListResultV3 rd text).2 = None →
  listUnit q name text =
    Ret (mkChannelResult [] (GetListResultV3 rd text).1 None name text).
Proof.
  intros Hrd Hok. unfold listUnit. rewrite Hrd.
  destruct (GetListResultV3 rd text) as [rows err]. simpl in *. by subst.
Qed.

(** X19.  On the row path, when the translation succeeds and the reader
    answers every prepared query without error, runBuilderListQueries
    returns one result per prepared query, carrying the rows of the reader
    and no series, with a nil error map and a nil error. *)
Theorem runBuilderListQueries_success env q rd params keys queries :
  PrepareQueries (builder q) params keys = (queries, None) →
  reader q = Some rd →
  (∀ name text, queries !! name = Some text → (GetListResultV3 rd text).2 = None) →
  ∃ results,
    runBuilderListQueries env q params keys = Ret (Some results, None, None) ∧
    QueryName <$> results ≡ₚ (map_to_list queries).*1 ∧
    ∀ r, r ∈ results →
      ∃ text, queries !! QueryName r = Some text ∧
              Result_List r = (GetListResultV3 rd text).1 ∧
              Result_Series r = [].
Proof.
  intros Hprep Hrd Hok.
  pose proof (arrange_perm (scheduler env) _ (map_to_list queries)) as Hperm.
  set (units := arrange (scheduler env) _ (map_to_list queries)) in *.
  set (ch := (λ kv : string * string,
                mkChannelResult [] (GetListResultV3 rd kv.2).1 None kv.1 kv.2)
               <$> units).
  assert (Hch : fanOutList env q queries = Ret ch).
  { unfold fanOutList. fold units. apply omapM_Forall2.
    unfold ch. apply Forall2_fmap_r, Forall_Forall2_diag, Forall_forall.
    intros [name text] Hin. simpl. apply listUnit_returns; [done|].
    apply (Hok name). apply elem_of_map_to_list. by rewrite <- Hperm. }
  assert (Hgood : Forall (λ r, Err r = None) ch).
  { unfold ch. apply Forall_fmap, Forall_forall. by intros. }
  exists (rowsResult <$> ch). split; [|split].
  - unfold runBuilderListQueries. rewrite Hprep, Hch. simpl.
    rewrite drainRowsStep_foldl. simpl.
    rewrite (errorList_empty ch Hgood), (filter_succeeded_all ch Hgood).
    simpl. done.
  - unfold ch. rewrite <- !list_fmap_compose. by rewrite <- Hperm.
  - intros r (c & -> & Hc)%list_elem_of_fmap.
    unfold ch in Hc. apply list_elem_of_fmap in Hc as ([name text] & -> & Hin).
    simpl. exists text. split; [|done].
    apply elem_of_map_to_list. by rewrite <- Hperm.
Qed.

Lemma runBuilderListQueries_success_witness :
  ∃ results,
    runBuilderListQueries (sampleEnv arrivalReversed)
      (sampleQuerier ({["A" := "select 1"]}, None)) sampleListRequest ∅ =
      Ret (Some results, None, None) ∧
    QueryName <$> results ≡ₚ (map_to_list ({["A" := "select 1"]} : gmap string string)).*1.
Proof.
  destruct (runBuilderListQueries_success (sampleEnv arrivalReversed)
              (sampleQuerier ({["A" := "select 1"]}, None)) sampleReader
              sampleListRequest ∅ {["A" := "select 1"]})
    as (results & Hret & Hnames & _).
  - reflexivity.
  - reflexivity.
  - intros name text [_ <-]%lookup_singleton_Some. reflexivity.
  - exists results. split; [exact Hret | exact Hnames].
Defined.

(** X20.  A nil error from QueryRange comes with a non-nil result list and
    without a single entry in the error map: on every path the map
    returned is then nil or empty. *)
Theorem QueryRange_nil_error env q params keys results errs :
  QueryRange env q params keys = Ret (results, errs, None) →
  is_Some results ∧ (errs = None ∨ errs = Some ∅).
Proof.
  intros Hret. unfold QueryRange in Hret.
  destruct (CompositeQuery_ params) as [cq|] eqn:Hcq; [|done].
  destruct (dispatch env q params keys cq) as [[[r m] e]|msg] eqn:Hd;
    simpl in Hret; [|done].
  assert (Hfin : r = results ∧ m = errs ∧ e = None).
  { destruct (decide (PanelType_ cq = PanelTypeValue)) as [Hv|Hv].
    - injection Hret as <- <- Hnone. repeat split.
      apply (final_error_None cq r). by rewrite decide_True.
    - by injection Hret as <- <- <-. }
  destruct Hfin as (<- & <- & ->). clear Hret.
  assert (Hdrain : ∀ failure ch r0 m0,
            drain failure ch = (r0, m0, None) →
            is_Some r0 ∧ m0 = Some ∅).
  { intros failure ch r0 m0. rewrite drain_unfold. intros Heq.
    injection Heq as <- <- Hnone. split; [by eexists|]. f_equal.
    apply errorTable_empty, errorList_nil_iff.
    by destruct (errorList ch). }
  unfold dispatch in Hd. destruct (QueryType_ cq).
  - destruct (decide (PanelType_ cq = PanelTypeList ∨ PanelType_ cq = PanelTypeTrace)).
    + unfold runBuilderListQueries in Hd.
      destruct (PrepareQueries (builder q) params keys) as [queries [pe|]];
        simpl in Hd; [done|].
      destruct (fanOutList env q queries) as [ch|]; simpl in Hd; [|done].
      rewrite drainRowsStep_foldl in Hd. simpl in Hd.
      destruct (decide (length (errorList ch) ≠ 0)); simpl in Hd; [done|].
      injection Hd as <- <-. split; [by eexists|by left].
    + unfold runBuilderQueries in Hd. rewrite Hcq in Hd.
      destruct (fanOutBuilder env q params keys cq) as [ch|]; simpl in Hd; [|done].
      destruct (drain ErrInBuilderQueries ch) as [[r0 m0] e0] eqn:Hdr.
      simpl in Hd. injection Hd as <- <- ->.
      apply Hdrain in Hdr as [Hr ->]. split; [done|]. right. simpl.
      by rewrite map_filter_empty.
  - unfold runClickHouseQueries in Hd. rewrite Hcq in Hd.
    destruct (fanOutClickHouse env q cq) as [ch|]; simpl in Hd; [|done].
    injection Hd as Hd. apply Hdrain in Hd as [Hr ->]. by split; [|right].
  - unfold runPromQueries in Hd. rewrite Hcq in Hd.
    destruct (fanOutProm env q params cq) as [ch|]; simpl in Hd; [|done].
    injection Hd as Hd. apply Hdrain in Hd as [Hr ->]. by split; [|right].
  - done.
Qed.

Lemma QueryRange_nil_error_witness :
  ∃ results errs,
    QueryRange (sampleEnv arrivalInOrder) (sampleQuerier (∅, None))
      (sampleClickHouseRequest sampleTwoGoodQueries PanelTypeGraph) ∅ =
      Ret (results, errs, None) ∧
    is_Some results ∧ (errs = None ∨ errs = Some ∅).
Proof.
  eexists _, _. split; [vm_compute; reflexivity|].
  apply (QueryRange_nil_error (sampleEnv arrivalInOrder) (sampleQuerier (∅, None))
           (sampleClickHouseRequest sampleTwoGoodQueries PanelTypeGraph) ∅).
  by vm_compute.
Defined.

(** X21.  A query type other than builder, PromQL and ClickHouseSQL is
    answered with nil results, a nil error map and the invalid-query-type
    error, whatever the panel type: the Value panel check leaves this
    error in place. *)
Theorem QueryRange_invalid_query_type env q params keys cq :
  CompositeQuery_ params = Some cq →
  QueryType_ cq = QueryTypeOther →
  QueryRange env q params keys = Ret (None, None, Some ErrInvalidQueryType).
Proof.
  intros Hcq Hty.
  rewrite (QueryRange_unfold env q params keys cq None None
             (Some ErrInvalidQueryType) Hcq).
  - by case_decide.
  - unfold dispatch. by rewrite Hty.
Qed.

Lemma QueryRange_invalid_query_type_witness :
  QueryRange (sampleEnv arrivalInOrder) (sampleQuerier (∅, None))
    (mkParams 100 200 60
       (Some (mkCompositeQuery ∅ ∅ ∅ PanelTypeValue QueryTypeOther)) false) ∅ =
    Ret (None, None, Some ErrInvalidQueryType).
Proof.
  apply (QueryRange_invalid_query_type (sampleEnv arrivalInOrder)
           (sampleQuerier (∅, None)) _ ∅
           (mkCompositeQuery ∅ ∅ ∅ PanelTypeValue QueryTypeOther));
    reflexivity.
Defined.

End OrchestratorExtras.

(** * Extras: the label signature *)

Section SignatureExtras.

Lemma keyBefore_trans a b c : keyBefore a b → keyBefore b c → keyBefore a c.
Proof.
  unfold keyBefore, String.ltb. intros Hab Hbc.
  destruct (a.1 ?= b.1)%string eqn:H1; try done.
  destruct (b.1 ?= c.1)%string eqn:H2; try done.
  apply OrderedTypeEx.String_as_OT.cmp_lt in H1, H2.
  pose proof (OrderedTypeEx.String_as_OT.lt_trans _ _ _ H1 H2) as H3.
  apply OrderedTypeEx.String_as_OT.cmp_lt in H3.
  unfold OrderedTypeEx.String_as_OT.cmp in H3. by rewrite H3.
Qed.

Lemma keyBefore_irrefl a b : keyBefore a b → a.1 ≠ b.1.
Proof.
  unfold keyBefore, String.ltb. intros Hab Heq.
  destruct (a.1 ?= b.1)%string eqn:H1; try done.
  apply OrderedTypeEx.String_as_OT.cmp_lt in H1.
  by apply OrderedTypeEx.String_as_OT.lt_not_eq in H1.
Qed.

Lemma keyBefore_total a b : a.1 ≠ b.1 → ¬ keyBefore a b → keyBefore b a.
Proof.
  unfold keyBefore, String.ltb. intros Hne Hab.
  rewrite (String.compare_antisym b.1 a.1).
  destruct (a.1 ?= b.1)%string eqn:H1; simpl; try done.
  by apply String.compare_eq_iff in H1.
Qed.

Lemma insertLabel_perm kv l : insertLabel kv l ≡ₚ kv :: l.
Proof.
  induction l as [|kv' l IH]; simpl; [done|].
  destruct (String.ltb kv.1 kv'.1); [done|].
  rewrite IH. apply perm_swap.
Qed.

Lemma sortLabels_perm l : sortLabels l ≡ₚ l.
Proof.
  induction l as [|kv l IH]; simpl; [done|].
  fold (sortLabels l). by rewrite insertLabel_perm, IH.
Qed.

Lemma insertLabel_sorted kv l :
  kv.1 ∉ l.*1 →
  StronglySorted keyBefore l → StronglySorted keyBefore (insertLabel kv l).
Proof.
  induction l as [|kv' l IH]; intros Hfresh Hsorted; simpl.
  - by repeat constructor.
  - apply StronglySorted_inv in Hsorted as [Hl Hall].
    rewrite fmap_cons, not_elem_of_cons in Hfresh. destruct Hfresh as [Hne Hfresh].
    destruct (String.ltb kv.1 kv'.1) eqn:Hlt.
    + constructor; [by constructor|].
      constructor; [done|].
      eapply Forall_impl; [exact Hall|]. intros c Hc.
      by apply (keyBefore_trans kv kv' c).
    + constructor; [by apply IH|].
      rewrite insertLabel_perm. constructor; [|done].
      apply keyBefore_total; [done|]. unfold keyBefore. by rewrite Hlt.
Qed.

Lemma sortLabels_sorted l : NoDup l.*1 → StronglySorted keyBefore (sortLabels l).
Proof.
  induction l as [|kv l IH]; simpl; intros Hnd; [constructor|].
  fold (sortLabels l). apply NoDup_cons in Hnd as [Hfresh Hnd].
  apply insertLabel_sorted; [|by apply IH].
  by rewrite sortLabels_perm.
Qed.

(** X22.  The signature does not depend on the order in which the label
    map is walked: whatever that order, the labels come out of the sort in
    the one list that is ascending by key, so the string is the same on
    every run. *)
Theorem labelsToString_any_order (labels : gmap string string) l :
  l ≡ₚ map_to_list labels →
  StronglySorted keyBefore (sortLabels l) ∧
  sortLabels l ≡ₚ map_to_list labels ∧
  labelsToStringFrom l = labelsToString labels.
Proof.
  intros Hperm.
  assert (Hnd : NoDup l.*1).
  { rewrite Hperm. apply NoDup_fst_map_to_list. }
  pose proof (sortLabels_sorted l Hnd) as Hsorted.
  split; [done|]. split; [by rewrite sortLabels_perm|].
  unfold labelsToStringFrom, labelsToString.
  replace (sortLabels (map_to_list labels)) with (sortLabels l); [done|].
  apply (StronglySorted_unique_strong keyBefore); [|done| |].
  - intros a b _ _ Hab Hba.
    by destruct (keyBefore_irrefl a a (keyBefore_trans a b a Hab Hba)).
  - apply sortLabels_sorted, NoDup_fst_map_to_list.
  - by rewrite !sortLabels_perm.
Qed.

Lemma labelsToString_any_order_witness :
  labelsToStringFrom [("a", "b"); ("c", "d")] =
    labelsToString (Labels sampleTwoLabels).
Proof.
  apply (labelsToString_any_order (Labels sampleTwoLabels) [("a", "b"); ("c", "d")]).
  vm_compute. apply perm_swap.
Defined.

End SignatureExtras.
